(** * Verification of the resident call-schedule model builder

    A shallow embedding of [monthly_schedule.py]: the class
    [ResidentSchedulingSolver], which turns a roster of residents into a
    CP-SAT model (boolean assignment variables, hard constraints and a
    list of penalty variables whose sum is minimised).

    The Python object is a record of its attributes, methods are
    computations in a state-and-exception monad over that record, and
    the CP-SAT model the methods build is a first-order value (declared
    variables, constraints, objective) with a satisfaction semantics.
    The search performed by the external solver is not modelled: a
    "solution" is any assignment that satisfies the compiled model; the
    methods [solve] and [print_schedule], which only call the solver and
    print its answer, are left out.

    The development has two halves.  The first states and settles the
    properties claimed of the builder; the second ("Further properties
    of the builder") covers the rest of the class: the constructor and
    the calendar, the registry of residents, the remaining rules, the
    errors raised on the way and the shape of the compiled model. *)

From Stdlib Require Import ZArith Floats.SpecFloat Classical_Prop.
From stdpp Require Import base decidable option list list_numbers sorting
  strings pretty gmap.

Local Open Scope Z_scope.

(** ** Python runtime errors *)

Inductive pyerr :=
| AttributeError
| IndexError
| KeyError
| ValueError
| ZeroDivisionError
| OverflowError
| UnboundLocalError.

#[global] Instance pyerr_eq_dec : EqDecision pyerr.
Proof. solve_decision. Defined.

Definition result (A : Type) : Type := pyerr + A.

Definition Ok {A} (a : A) : result A := inr a.
Definition Raise {A} (e : pyerr) : result A := inl e.

Definition of_option {A} (e : pyerr) (o : option A) : result A :=
  match o with Some a => Ok a | None => Raise e end.

(** ** Python lists and ranges *)

(** [range(n)], [range(a, b)] and [range(a, b, step)] for a positive step. *)
Definition py_range (n : Z) : list Z := seqZ 0 n.
Definition py_range2 (a b : Z) : list Z := seqZ a (b - a).
Definition py_range3 (a b step : Z) : list Z :=
  (λ k, a + step * k) <$> seqZ 0 ((b - a + step - 1) `div` step).

(** [l[i]]: a negative index counts from the end of the list. *)
Definition py_index {A} (l : list A) (i : Z) : result A :=
  let n := Z.of_nat (length l) in
  let j := if decide (i < 0) then i + n else i in
  if decide (0 ≤ j) then of_option IndexError (l !! Z.to_nat j)
  else Raise IndexError.

(** [l[-1]] and [l[0]]. *)
Definition py_last {A} (l : list A) : result A := py_index l (-1).
Definition py_first {A} (l : list A) : result A := py_index l 0.

(** [x in l] on a list of integers. *)
Definition py_in (x : Z) (l : list Z) : bool := bool_decide (x ∈ l).

(** [l.remove(x)]: drops the first occurrence; [None] stands for the
    [ValueError] raised when there is none. *)
Fixpoint list_remove_first (x : Z) (l : list Z) : option (list Z) :=
  match l with
  | [] => None
  | y :: l' =>
      if decide (x = y) then Some l'
      else cons y <$> list_remove_first x l'
  end.

(** [l.sort()] on integers. *)
Definition py_sort (l : list Z) : list Z := merge_sort Z.le l.

(** ** Python numbers: [int] and [float]

    A [float] is an IEEE 754 binary64 value, modelled by the Standard
    Library's [spec_float] at precision 53 and maximal exponent 1024. *)

Definition prec : Z := 53.
Definition emax : Z := 1024.
Abbreviation float := spec_float.

Definition fmul : float → float → float := SFmul prec emax.
Definition fadd : float → float → float := SFadd prec emax.
Definition fsub : float → float → float := SFsub prec emax.

(** [float(z)]: correctly rounded; an integer beyond the largest float
    raises. *)
Definition float_of_int (z : Z) : result float :=
  match binary_normalize prec emax z 0 false with
  | S754_infinity _ => Raise OverflowError
  | f => Ok f
  end.

(** [a / b] on two integers: the correctly rounded quotient; a zero
    numerator gives the zero that has the sign of the divisor. *)
Definition int_truediv (a b : Z) : result float :=
  match a, b with
  | _, Z0 => Raise ZeroDivisionError
  | Z0, _ => Ok (S754_zero (b <? 0))
  | _, _ =>
      let s := xorb (a <? 0) (b <? 0) in
      let '(mz, ez, lz) :=
        SFdiv_core_binary prec emax (Z.abs a) 0 (Z.abs b) 0 in
      match binary_round_aux prec emax s mz ez lz with
      | S754_infinity _ => Raise OverflowError
      | f => Ok f
      end
  end.

(** [x / y] on two floats. *)
Definition float_truediv (x y : float) : result float :=
  match y with
  | S754_zero _ => Raise ZeroDivisionError
  | _ => Ok (SFdiv prec emax x y)
  end.

(** [int(x)] on a float: truncation toward zero. *)
Definition int_of_float (x : float) : result Z :=
  match x with
  | S754_zero _ => Ok 0
  | S754_infinity _ => Raise OverflowError
  | S754_nan => Raise ValueError
  | S754_finite s m e =>
      let a := match e with
               | Zneg p => Z.shiftr (Zpos m) (Zpos p)
               | _ => Z.shiftl (Zpos m) e
               end in
      Ok (if s then - a else a)
  end.

Inductive pynum :=
| PInt (z : Z)
| PFloat (f : float).

Definition to_float (x : pynum) : result float :=
  match x with
  | PInt z => float_of_int z
  | PFloat f => Ok f
  end.

Definition res_bind {A B} (r : result A) (k : A → result B) : result B :=
  match r with inl e => inl e | inr a => k a end.

(** [x + k], [x - k], [x * k], [x / k] for an integer literal [k]. *)
Definition num_add_int (x : pynum) (k : Z) : result pynum :=
  match x with
  | PInt z => Ok (PInt (z + k))
  | PFloat f => res_bind (float_of_int k) (λ g, Ok (PFloat (fadd f g)))
  end.

Definition num_sub_int (x : pynum) (k : Z) : result pynum :=
  match x with
  | PInt z => Ok (PInt (z - k))
  | PFloat f => res_bind (float_of_int k) (λ g, Ok (PFloat (fsub f g)))
  end.

Definition num_mul_int (x : pynum) (k : Z) : result pynum :=
  match x with
  | PInt z => Ok (PInt (z * k))
  | PFloat f => res_bind (float_of_int k) (λ g, Ok (PFloat (fmul f g)))
  end.

Definition num_div_int (x : pynum) (k : Z) : result float :=
  match x with
  | PInt z => int_truediv z k
  | PFloat f => res_bind (float_of_int k) (float_truediv f)
  end.

(** [int(x)]. *)
Definition py_int (x : pynum) : result Z :=
  match x with
  | PInt z => Ok z
  | PFloat f => int_of_float f
  end.

(** ** The CP-SAT model

    The vocabulary of the external solving engine that the builder
    uses.  A variable is its index in the model's variable list (the
    name passed to [NewBoolVar] or [NewIntVar] is a label only). *)

Abbreviation var := nat.

Inductive lit :=
| Pos (v : var)
| Neg (v : var).

(** A linear expression: a sum of variables plus a constant. *)
Record linexpr := LinExpr { lin_terms : list var; lin_const : Z }.

Definition lin_var (v : var) : linexpr := LinExpr [v] 0.
Definition lin_int (k : Z) : linexpr := LinExpr [] k.
(** [sum(...)] over variables: starts from the integer 0. *)
Definition lin_sum (vs : list var) : linexpr := LinExpr vs 0.

Inductive relop := Req | Rne | Rge | Rle | Rgt.

Inductive ct_body :=
| Linear (lhs : linexpr) (op : relop) (rhs : linexpr)
| AtMostOne (ls : list lit)
| ExactlyOne (ls : list lit)
| BoolAnd (ls : list lit)
| BoolXOr (ls : list lit)
| Implication (a b : lit).

(** A constraint with the literals given to [OnlyEnforceIf]. *)
Record constraint := Ct { ct_body_of : ct_body; ct_enforce : list lit }.

Record var_decl := VarDecl { vd_name : string; vd_lb : Z; vd_ub : Z }.

Record CpModel := {
  cp_vars : list var_decl;
  cp_cts : list constraint;
  cp_objective : option (list var);
}.

Definition empty_model : CpModel :=
  {| cp_vars := []; cp_cts := []; cp_objective := None |}.

(** *** Satisfaction *)

(** An assignment gives one value per declared variable, by index. *)
Abbreviation assignment := (list Z).

Definition value (a : assignment) (v : var) : Z := default 0 (a !! v).

Definition lit_value (a : assignment) (l : lit) : Z :=
  match l with
  | Pos v => value a v
  | Neg v => 1 - value a v
  end.

Definition lit_holds (a : assignment) (l : lit) : Prop := lit_value a l = 1.

Definition sum_values (a : assignment) (vs : list var) : Z :=
  foldr (λ v acc, value a v + acc) 0 vs.

Definition lin_value (a : assignment) (e : linexpr) : Z :=
  sum_values a (lin_terms e) + lin_const e.

Definition count_true (a : assignment) (ls : list lit) : Z :=
  foldr (λ l acc, lit_value a l + acc) 0 ls.

Definition rel_holds (op : relop) (x y : Z) : Prop :=
  match op with
  | Req => x = y
  | Rne => x ≠ y
  | Rge => y ≤ x
  | Rle => x ≤ y
  | Rgt => y < x
  end.

Definition body_holds (a : assignment) (b : ct_body) : Prop :=
  match b with
  | Linear l op r => rel_holds op (lin_value a l) (lin_value a r)
  | AtMostOne ls => count_true a ls ≤ 1
  | ExactlyOne ls => count_true a ls = 1
  | BoolAnd ls => Forall (lit_holds a) ls
  | BoolXOr ls => Z.odd (count_true a ls) = true
  | Implication x y => lit_holds a x → lit_holds a y
  end.

Definition ct_holds (a : assignment) (c : constraint) : Prop :=
  Forall (lit_holds a) (ct_enforce c) → body_holds a (ct_body_of c).

Definition in_domain (x : Z) (d : var_decl) : Prop := vd_lb d ≤ x ≤ vd_ub d.

Definition solution (m : CpModel) (a : assignment) : Prop :=
  Forall2 in_domain a (cp_vars m) ∧ Forall (ct_holds a) (cp_cts m).

(** The value of the minimised objective, [sum(self.penalties)]. *)
Definition objective_value (m : CpModel) (a : assignment) : Z :=
  sum_values a (default [] (cp_objective m)).

#[global] Instance lit_holds_dec a l : Decision (lit_holds a l).
Proof. unfold lit_holds. apply _. Defined.

#[global] Instance rel_holds_dec op x y : Decision (rel_holds op x y).
Proof. destruct op; simpl; apply _. Defined.

#[global] Instance body_holds_dec a b : Decision (body_holds a b).
Proof. destruct b; simpl; apply _. Defined.

#[global] Instance ct_holds_dec a c : Decision (ct_holds a c).
Proof. unfold ct_holds. apply _. Defined.

#[global] Instance in_domain_dec x d : Decision (in_domain x d).
Proof. unfold in_domain. apply _. Defined.

#[global] Instance solution_dec m a : Decision (solution m a).
Proof. unfold solution. apply _. Defined.

(** ** Calendar *)

Module Weekday.
Definition MONDAY : Z := 0.
Definition TUESDAY : Z := 1.
Definition WEDNESDAY : Z := 2.
Definition THURSDAY : Z := 3.
Definition FRIDAY : Z := 4.
Definition SATURDAY : Z := 5.
Definition SUNDAY : Z := 6.
(** [len(Weekday)] *)
Definition len : Z := 7.
End Weekday.

(** [date.fromisoformat] on the extended format [YYYY-MM-DD], which
    every version of the library parses.  On any other string the
    function below raises [ValueError], as the library does up to Python
    3.10; from 3.11 on the library also takes the basic format and week
    dates.  What is stated of the constructor therefore supposes a start
    date that parses here. *)
Definition digit_of (c : Ascii.ascii) : option Z :=
  let n := Z.of_nat (Ascii.nat_of_ascii c) in
  if decide (48 ≤ n ≤ 57) then Some (n - 48) else None.

Definition is_leap (y : Z) : bool :=
  bool_decide (y `mod` 4 = 0 ∧ (y `mod` 100 ≠ 0 ∨ y `mod` 400 = 0)).

Definition days_in_month (y m : Z) : Z :=
  if decide (m = 2) then (if is_leap y then 29 else 28)
  else if decide (m ∈ [4; 6; 9; 11]) then 30 else 31.

Definition fromisoformat (s : string) : result (Z * Z * Z) :=
  match String.list_ascii_of_string s with
  | [y1; y2; y3; y4; s1; m1; m2; s2; d1; d2] =>
      match digit_of <$> [y1; y2; y3; y4; m1; m2; d1; d2] with
      | [Some a; Some b; Some c; Some d; Some e; Some f; Some g; Some h] =>
          let y := 1000 * a + 100 * b + 10 * c + d in
          let m := 10 * e + f in
          let dd := 10 * g + h in
          if decide (s1 = Ascii.ascii_of_nat 45 ∧ s2 = Ascii.ascii_of_nat 45 ∧
                     1 ≤ y ∧ 1 ≤ m ≤ 12 ∧ 1 ≤ dd ≤ days_in_month y m)
          then Ok (y, m, dd) else Raise ValueError
      | _ => Raise ValueError
      end
  | _ => Raise ValueError
  end.

(** ** Residents and the solver object *)

(** An entry of [self.residents_info]. *)
Record Resident := {
  name : string;
  on_vacation_days : list Z;
  on_trauma : bool;
  on_emergency : bool;
  days_override : option Z;
  claimed_days : list (Z * string);
}.

(** The attributes of a [ResidentSchedulingSolver].  An attribute that a
    method can read before it has been assigned is an [option]: [None]
    is the absent attribute, and reading it raises [AttributeError]. *)
Record Solver := {
  classification : string;
  num_days : Z;
  trauma_shift_multiplier : Z;
  shifts : list string;
  shifts_per_day : Z;
  max_shifts_per_week : Z;
  extra_friday_penalty_amount : Z;
  half_day_call_penalty : Z;
  days : list Z;
  schedules : gmap string (list (gmap string var));
  nofill : option (list Z);
  num_nofill : option Z;
  days_to_fill : option Z;
  start_date : option (Z * Z * Z);
  working_days : list Z;
  weekends_and_holidays : list Z;
  model : CpModel;
  residents_info : option (list Resident);
  call_ratio : option float;
  penalties : option (list var);
}.

(** The penalties appended so far; none before [setup_model] creates
    the list. *)
Abbreviation penalty_list s := (default [] (penalties s)).

Definition set_schedules (x : gmap string (list (gmap string var))) (s : Solver) : Solver :=
  {| classification := classification s; num_days := num_days s;
     trauma_shift_multiplier := trauma_shift_multiplier s; shifts := shifts s;
     shifts_per_day := shifts_per_day s;
     max_shifts_per_week := max_shifts_per_week s;
     extra_friday_penalty_amount := extra_friday_penalty_amount s;
     half_day_call_penalty := half_day_call_penalty s; days := days s;
     schedules := x; nofill := nofill s; num_nofill := num_nofill s;
     days_to_fill := days_to_fill s; start_date := start_date s;
     working_days := working_days s;
     weekends_and_holidays := weekends_and_holidays s; model := model s;
     residents_info := residents_info s; call_ratio := call_ratio s;
     penalties := penalties s |}.

Definition set_day_lists (w h : list Z) (s : Solver) : Solver :=
  {| classification := classification s; num_days := num_days s;
     trauma_shift_multiplier := trauma_shift_multiplier s; shifts := shifts s;
     shifts_per_day := shifts_per_day s;
     max_shifts_per_week := max_shifts_per_week s;
     extra_friday_penalty_amount := extra_friday_penalty_amount s;
     half_day_call_penalty := half_day_call_penalty s; days := days s;
     schedules := schedules s; nofill := nofill s; num_nofill := num_nofill s;
     days_to_fill := days_to_fill s; start_date := start_date s;
     working_days := w; weekends_and_holidays := h; model := model s;
     residents_info := residents_info s; call_ratio := call_ratio s;
     penalties := penalties s |}.

Definition set_model (x : CpModel) (s : Solver) : Solver :=
  {| classification := classification s; num_days := num_days s;
     trauma_shift_multiplier := trauma_shift_multiplier s; shifts := shifts s;
     shifts_per_day := shifts_per_day s;
     max_shifts_per_week := max_shifts_per_week s;
     extra_friday_penalty_amount := extra_friday_penalty_amount s;
     half_day_call_penalty := half_day_call_penalty s; days := days s;
     schedules := schedules s; nofill := nofill s; num_nofill := num_nofill s;
     days_to_fill := days_to_fill s; start_date := start_date s;
     working_days := working_days s;
     weekends_and_holidays := weekends_and_holidays s; model := x;
     residents_info := residents_info s; call_ratio := call_ratio s;
     penalties := penalties s |}.

Definition set_residents_info (x : option (list Resident)) (s : Solver) : Solver :=
  {| classification := classification s; num_days := num_days s;
     trauma_shift_multiplier := trauma_shift_multiplier s; shifts := shifts s;
     shifts_per_day := shifts_per_day s;
     max_shifts_per_week := max_shifts_per_week s;
     extra_friday_penalty_amount := extra_friday_penalty_amount s;
     half_day_call_penalty := half_day_call_penalty s; days := days s;
     schedules := schedules s; nofill := nofill s; num_nofill := num_nofill s;
     days_to_fill := days_to_fill s; start_date := start_date s;
     working_days := working_days s;
     weekends_and_holidays := weekends_and_holidays s; model := model s;
     residents_info := x; call_ratio := call_ratio s;
     penalties := penalties s |}.

Definition set_call_ratio (x : option float) (s : Solver) : Solver :=
  {| classification := classification s; num_days := num_days s;
     trauma_shift_multiplier := trauma_shift_multiplier s; shifts := shifts s;
     shifts_per_day := shifts_per_day s;
     max_shifts_per_week := max_shifts_per_week s;
     extra_friday_penalty_amount := extra_friday_penalty_amount s;
     half_day_call_penalty := half_day_call_penalty s; days := days s;
     schedules := schedules s; nofill := nofill s; num_nofill := num_nofill s;
     days_to_fill := days_to_fill s; start_date := start_date s;
     working_days := working_days s;
     weekends_and_holidays := weekends_and_holidays s; model := model s;
     residents_info := residents_info s; call_ratio := x;
     penalties := penalties s |}.

Definition set_penalties (x : list var) (s : Solver) : Solver :=
  {| classification := classification s; num_days := num_days s;
     trauma_shift_multiplier := trauma_shift_multiplier s; shifts := shifts s;
     shifts_per_day := shifts_per_day s;
     max_shifts_per_week := max_shifts_per_week s;
     extra_friday_penalty_amount := extra_friday_penalty_amount s;
     half_day_call_penalty := half_day_call_penalty s; days := days s;
     schedules := schedules s; nofill := nofill s; num_nofill := num_nofill s;
     days_to_fill := days_to_fill s; start_date := start_date s;
     working_days := working_days s;
     weekends_and_holidays := weekends_and_holidays s; model := model s;
     residents_info := residents_info s; call_ratio := call_ratio s;
     penalties := Some x |}.

(** ** Methods as computations

    A method runs on the object and either raises or returns a value
    and the updated object.  Output written by [print] is not modelled. *)

Definition M (A : Type) : Type := Solver → result (A * Solver).

#[global] Instance M_ret : MRet M := λ A a s, Ok (a, s).
#[global] Instance M_bind : MBind M := λ A B k c s,
  match c s with
  | inl e => inl e
  | inr (a, s') => k a s'
  end.

Definition raise {A} (e : pyerr) : M A := λ _, Raise e.

Definition lift {A} (r : result A) : M A := λ s,
  match r with
  | inl e => inl e
  | inr a => Ok (a, s)
  end.

Definition gets {A} (f : Solver → A) : M A := λ s, Ok (f s, s).

(** Reading an attribute that may not have been assigned yet. *)
Definition attr {A} (f : Solver → option A) : M A := λ s,
  match f s with
  | Some a => Ok (a, s)
  | None => Raise AttributeError
  end.

Definition modify (f : Solver → Solver) : M unit := λ s, Ok (tt, f s).

(** [for x in l: body] *)
Fixpoint for_each {A} (l : list A) (body : A → M unit) : M unit :=
  match l with
  | [] => mret tt
  | x :: l' => body x ;; for_each l' body
  end.

(** [[f(x) for x in l]] *)
Fixpoint collect {A B} (l : list A) (f : A → M B) : M (list B) :=
  match l with
  | [] => mret []
  | x :: l' => y ← f x; ys ← collect l' f; mret (y :: ys)
  end.

(** [{k: f(k) for k in l}]: a later duplicate key replaces the earlier. *)
Fixpoint dict_comp {B} (l : list string) (f : string → M B)
    (acc : gmap string B) : M (gmap string B) :=
  match l with
  | [] => mret acc
  | k :: l' => y ← f k; dict_comp l' f (<[k := y]> acc)
  end.

(** *** Operations on [self.model] and [self.penalties] *)

Definition model_add_var (d : var_decl) (m : CpModel) : CpModel :=
  {| cp_vars := cp_vars m ++ [d]; cp_cts := cp_cts m;
     cp_objective := cp_objective m |}.

Definition model_add_ct (c : constraint) (m : CpModel) : CpModel :=
  {| cp_vars := cp_vars m; cp_cts := cp_cts m ++ [c];
     cp_objective := cp_objective m |}.

Definition model_minimize (vs : list var) (m : CpModel) : CpModel :=
  {| cp_vars := cp_vars m; cp_cts := cp_cts m; cp_objective := Some vs |}.

Definition NewIntVar (lb ub : Z) (label : string) : M var := λ s,
  Ok (length (cp_vars (model s)),
      set_model (model_add_var (VarDecl label lb ub) (model s)) s).

Definition NewBoolVar (label : string) : M var := NewIntVar 0 1 label.

(** [self.model.Add...(body)] and
    [self.model.Add...(body).OnlyEnforceIf(l)].  The integers of a
    constraint are unbounded here; the solver library refuses a constant
    outside the 64-bit range. *)
Definition Add (body : ct_body) : M unit :=
  modify (λ s, set_model (model_add_ct (Ct body []) (model s)) s).

Definition AddIf (body : ct_body) (l : lit) : M unit :=
  modify (λ s, set_model (model_add_ct (Ct body [l]) (model s)) s).

Definition Minimize (vs : list var) : M unit :=
  modify (λ s, set_model (model_minimize vs (model s)) s).

(** [self.penalties.append(v)] *)
Definition penalties_append (v : var) : M unit :=
  ps ← attr penalties;
  modify (set_penalties (ps ++ [v])).

(** [self.schedules[name][day][shift]] *)
Definition schedule_lookup (sch : gmap string (list (gmap string var)))
    (nm : string) (day : Z) (shift : string) : result var :=
  res_bind (of_option KeyError (sch !! nm)) (λ rows,
  res_bind (py_index rows day) (λ row,
  of_option KeyError (row !! shift))).

Definition schedule_var (nm : string) (day : Z) (shift : string) : M var :=
  sch ← gets schedules;
  lift (schedule_lookup sch nm day shift).

(** [self.shifts[0]] and [self.shifts[-1]] *)
Definition first_shift : M string := sh ← gets shifts; lift (py_first sh).
Definition last_shift : M string := sh ← gets shifts; lift (py_last sh).

Definition len {A} (l : list A) : Z := Z.of_nat (length l).

(** *** Registry and calendar methods *)

Definition add_holiday (day : Z) : M unit :=
  w ← gets working_days;
  w' ← lift (of_option ValueError (list_remove_first day w));
  h ← gets weekends_and_holidays;
  modify (set_day_lists (py_sort w') (py_sort (h ++ [day]))).

Definition calculate_call_ratio : M unit :=
  residents ← attr residents_info;
  terms ← collect residents (λ resident,
    tsm ← gets trauma_shift_multiplier;
    dtf ← attr days_to_fill;
    mret ((1 + Z.b2z (on_trauma resident) * (tsm - 1))
          * (dtf - len (on_vacation_days resident))));
  let resident_days_available := foldr Z.add 0 terms in
  dtf ← attr days_to_fill;
  ratio ← lift (int_truediv dtf resident_days_available);
  modify (set_call_ratio (Some ratio)).

(** [on_vacation_days.remove(day)] for each no-fill day, a missing day
    being passed over.  The list is a value here: the entry holds the
    list as the removals leave it, and the effect of the in-place
    removal on a list object that the caller keeps, or passes to several
    calls, is not modelled.  On a list that repeats no day the two
    agree, a further pass of the removals changing nothing; the
    statements about registered lists suppose such a list. *)
Definition strip_nofill (vacation nf : list Z) : list Z :=
  foldl (λ l day, default l (list_remove_first day l)) vacation nf.

Definition add_resident_info (r : Resident) : M unit :=
  has ← gets residents_info;
  (if has is None then modify (set_residents_info (Some [])) else mret tt) ;;
  nf ← attr nofill;
  let vacation := strip_nofill (on_vacation_days r) nf in
  residents ← attr residents_info;
  modify (set_residents_info (Some (residents ++ [
    {| name := name r; on_vacation_days := vacation;
       on_trauma := on_trauma r; on_emergency := on_emergency r;
       days_override := days_override r;
       claimed_days := claimed_days r |}]))) ;;
  calculate_call_ratio.

(** *** The constructor *)

Record init_args := {
  arg_start_date : string;
  arg_num_days : Z;
  arg_nofill : list Z;
  arg_max_shifts_per_week : Z;
  arg_extra_friday_penalty : Z;
  arg_residents_info : option (list Resident);
  arg_holidays : list Z;
  arg_shifts : list string;
  arg_classification : string;
}.

Definition default_args : init_args := {|
  arg_start_date := "2024-05-06";
  arg_num_days := 28;
  arg_nofill := [];
  arg_max_shifts_per_week := 1;
  arg_extra_friday_penalty := 5;
  arg_residents_info := None;
  arg_holidays := [];
  arg_shifts := ["day"; "night"];
  arg_classification := "junior";
|}.

Definition build_weekday_list (num_days weekday : Z) : list Z :=
  py_range3 weekday num_days Weekday.len.

(** The object as the first assignments of [__init__] leave it: the
    attributes assigned after the loop over [residents_info] are still
    absent. *)
Definition init_first (a : init_args) : Solver := {|
  classification := arg_classification a;
  num_days := arg_num_days a;
  trauma_shift_multiplier := 2;
  shifts := arg_shifts a;
  shifts_per_day := len (arg_shifts a);
  max_shifts_per_week := arg_max_shifts_per_week a;
  extra_friday_penalty_amount := arg_extra_friday_penalty a;
  half_day_call_penalty := 2;
  days := py_range (arg_num_days a);
  schedules := ∅;
  nofill := None;
  num_nofill := None;
  days_to_fill := None;
  start_date := None;
  working_days := [];
  weekends_and_holidays := [];
  model := empty_model;
  residents_info := None;
  call_ratio := None;
  penalties := None;
|}.

(** The assignments that follow the loop, up to the two day lists. *)
Definition init_second (a : init_args) (d : Z * Z * Z) (s : Solver) : Solver :=
  let wl := build_weekday_list (arg_num_days a) in
  let weekdays :=
    concat [wl Weekday.MONDAY; wl Weekday.TUESDAY; wl Weekday.WEDNESDAY;
            wl Weekday.THURSDAY; wl Weekday.FRIDAY] in
  let weekends := concat [wl Weekday.SATURDAY; wl Weekday.SUNDAY] in
  {| classification := classification s; num_days := num_days s;
     trauma_shift_multiplier := trauma_shift_multiplier s; shifts := shifts s;
     shifts_per_day := shifts_per_day s;
     max_shifts_per_week := max_shifts_per_week s;
     extra_friday_penalty_amount := extra_friday_penalty_amount s;
     half_day_call_penalty := half_day_call_penalty s; days := days s;
     schedules := schedules s;
     nofill := Some (arg_nofill a);
     num_nofill := Some (len (arg_nofill a));
     days_to_fill := Some (num_days s - len (arg_nofill a));
     start_date := Some d;
     working_days := weekdays;
     weekends_and_holidays := weekends;
     model := model s;
     residents_info := residents_info s; call_ratio := call_ratio s;
     penalties := penalties s |}.

Definition init_body (a : init_args) : M unit :=
  match arg_residents_info a with
  | Some (r :: rs) => for_each (r :: rs) add_resident_info
  | _ => mret tt
  end ;;
  d ← lift (fromisoformat (arg_start_date a));
  modify (init_second a d) ;;
  for_each (arg_holidays a) add_holiday ;;
  modify (set_model empty_model).

(** [ResidentSchedulingSolver(...)] *)
Definition init (a : init_args) : result Solver :=
  match init_body a (init_first a) with
  | inl e => inl e
  | inr (_, s) => Ok s
  end.

(** *** Rule methods of the constraint compiler *)

Definition lin_rel (v : var) (op : relop) (k : Z) : ct_body :=
  Linear (lin_var v) op (lin_int k).

Definition strictly_bounded (resident : Resident) (calculation : linexpr)
    (lower_bound upper_bound : Z) (bounded_descriptor : string) : M unit :=
  ds ← gets days;
  shifts_taken ←
    NewIntVar 0 (len ds) (bounded_descriptor +:+ "_taken_" +:+ name resident);
  lower_bound_reached ←
    NewBoolVar (bounded_descriptor +:+ "_lower_bound_" +:+ name resident);
  upper_bound_reached ←
    NewBoolVar (bounded_descriptor +:+ "_upper_bound_" +:+ name resident);
  Add (Linear (lin_var shifts_taken) Req calculation) ;;
  Add (lin_rel shifts_taken Rge lower_bound) ;;
  Add (lin_rel shifts_taken Rle upper_bound) ;;
  AddIf (lin_rel shifts_taken Req lower_bound) (Pos lower_bound_reached) ;;
  AddIf (lin_rel shifts_taken Req upper_bound) (Pos upper_bound_reached) ;;
  AddIf (lin_rel shifts_taken Rne lower_bound) (Neg lower_bound_reached) ;;
  AddIf (lin_rel shifts_taken Rne upper_bound) (Neg upper_bound_reached) ;;
  penalties_append lower_bound_reached ;;
  penalties_append upper_bound_reached.

(** The number of the days of [l] that satisfy [p]. *)
Definition count_days (p : Z → bool) (l : list Z) : Z := len (filter p l).

Definition balance_trauma_call (resident : Resident) : M unit :=
  wd ← gets working_days;
  let num_trauma_days := len wd in
  residents ← attr residents_info;
  let trauma_days_available :=
    foldr Z.add 0
      ((λ tr, count_days (λ day, negb (py_in day (on_vacation_days tr))) wd)
         <$> filter (λ tr, on_trauma tr = true) residents) in
  trauma_days_ratio ← lift (int_truediv num_trauma_days trauma_days_available);
  ds ← gets days;
  let num_away_days :=
    count_days (λ day, py_in day (on_vacation_days resident)) ds in
  expected_day_shifts ←
    (if existsb (λ day, negb (py_in day (on_vacation_days resident))) wd
     then f ← lift (float_of_int (num_trauma_days - num_away_days));
          mret (PFloat (fmul f trauma_days_ratio))
     else raise UnboundLocalError);
  up ← lift (num_add_int expected_day_shifts 1);
  trauma_upper_bound ← lift (py_int up);
  lo ← lift (num_sub_int expected_day_shifts 1);
  trauma_lower_bound ← lift (py_int lo);
  calculation ← collect wd (λ day,
    sh ← first_shift; schedule_var (name resident) day sh);
  strictly_bounded resident (lin_sum calculation)
    trauma_lower_bound trauma_upper_bound "trauma_shifts".

Definition emergency_wednesday_halfday (resident : Resident) : M unit :=
  if on_emergency resident then
    wd ← gets working_days;
    for_each
      (filter (λ day, day `mod` Weekday.len = Weekday.WEDNESDAY) wd)
      (λ day,
        sh ← gets shifts;
        for_each sh (λ shift,
          v ← schedule_var (name resident) day shift;
          Add (lin_rel v Req 0)))
  else mret tt.

Definition trauma_day_call (resident : Resident) : M unit :=
  if negb (on_trauma resident) then
    wd ← gets working_days;
    for_each wd (λ day,
      sh ← first_shift;
      v ← schedule_var (name resident) day sh;
      Add (lin_rel v Req 0))
  else mret tt.

(** [ignore] is [None] by default: no weekday compares equal to it. *)
Definition post_call_days (ignore : option Z) (resident : Resident) : M unit :=
  let nm := name resident in
  n ← gets num_days;
  for_each (py_range (n - 1)) (λ day,
    if bool_decide (Some (day `mod` 7) ≠ ignore) then
      sh ← gets shifts;
      for_each sh (λ shift,
        l ← last_shift;
        a ← schedule_var nm day l;
        b ← schedule_var nm (day + 1) shift;
        Add (AtMostOne [Pos a; Pos b]))
    else mret tt).

Definition prefer_full_day_call (resident : Resident) : M unit :=
  let nm := name resident in
  ds ← gets days;
  for_each ds (λ day,
    full_day_preference_violated ←
      NewBoolVar ("full_day_" +:+ nm +:+ "_" +:+ pretty day);
    half_day_penalty ←
      NewIntVar 0 16 ("penalty_" +:+ nm +:+ "_halfday_" +:+ pretty day);
    f ← first_shift;
    a ← schedule_var nm day f;
    l ← last_shift;
    b ← schedule_var nm day l;
    Add (BoolXOr [Pos a; Pos b; Neg full_day_preference_violated]) ;;
    hp ← gets half_day_call_penalty;
    AddIf (lin_rel half_day_penalty Rge hp) (Pos full_day_preference_violated) ;;
    penalties_append half_day_penalty).

(** The body shared by the three implication rules: the last shift of
    every day of weekday [first] implies each shift [day_gap] days on. *)
Definition implication_rule (first day_gap : Z) (resident : Resident) : M unit :=
  ds ← gets days;
  for_each ds (λ day,
    if decide (day `mod` 7 = first) then
      sh ← gets shifts;
      for_each sh (λ shift,
        l ← last_shift;
        a ← schedule_var (name resident) day l;
        b ← schedule_var (name resident) (day + day_gap) shift;
        Add (Implication (Pos a) (Pos b)))
    else mret tt).

Definition friday_implies_sunday : Resident → M unit :=
  implication_rule Weekday.FRIDAY 2.

Definition friday_implies_saturday : Resident → M unit :=
  implication_rule Weekday.FRIDAY 1.

Definition multiday_implication (first second : Z) : Resident → M unit :=
  implication_rule first ((second - first) `mod` 7).

Definition penalize_multiple_fridays (resident : Resident) : M unit :=
  let nm := name resident in
  ds ← gets days;
  for_each (filter (λ day, day `mod` 7 = Weekday.FRIDAY) ds) (λ friday,
    let other_friday := friday + Weekday.len in
    ds' ← gets days;
    if negb (py_in other_friday ds') then mret tt
    else
      let tag := nm +:+ "_Fridays_" +:+ pretty friday +:+ "_"
                   +:+ pretty other_friday in
      friday_conflict ← NewBoolVar tag;
      friday_penalty ← NewIntVar 0 16 ("penalty_" +:+ tag);
      l ← last_shift;
      a ← schedule_var nm friday l;
      l' ← last_shift;
      b ← schedule_var nm other_friday l';
      AddIf (BoolAnd [Pos a; Pos b]) (Pos friday_conflict) ;;
      amount ← gets extra_friday_penalty_amount;
      AddIf (lin_rel friday_penalty Rge amount) (Pos friday_conflict) ;;
      penalties_append friday_penalty).

Definition disperse_call (resident : Resident) : M unit :=
  let nm := name resident in
  n ← gets num_days;
  for_each (py_range (n `div` Weekday.len)) (λ week,
    let start_day := week * 7 in
    let end_day := start_day + 7 in
    per_day ← collect (py_range2 start_day end_day) (λ day,
      sh ← gets shifts;
      collect sh (λ am_pm, schedule_var nm day am_pm));
    let weekly_calls := lin_sum (concat per_day) in
    exceeds_max_calls ←
      NewBoolVar (nm +:+ "_week_" +:+ pretty week +:+ "_exceeds_max");
    cap ← gets max_shifts_per_week;
    AddIf (Linear weekly_calls Rle (lin_int cap)) (Neg exceeds_max_calls) ;;
    cap' ← gets max_shifts_per_week;
    AddIf (Linear weekly_calls Rgt (lin_int cap')) (Pos exceeds_max_calls) ;;
    weekly_penalty ←
      NewIntVar 0 7 ("Week_" +:+ pretty week +:+ "_penalty_" +:+ nm);
    cap'' ← gets max_shifts_per_week;
    for_each (py_range2 (cap'' + 1) 7) (λ i,
      weekly_exceeds_i ←
        NewBoolVar ("Week_" +:+ pretty week +:+ "_penalty_" +:+ nm
                    +:+ "_exceeds_" +:+ pretty i);
      AddIf (Linear weekly_calls Rge (lin_int i)) (Pos weekly_exceeds_i) ;;
      AddIf (lin_rel weekly_penalty Rge (2 * i)) (Pos weekly_exceeds_i) ;;
      penalties_append weekly_penalty)).

(** The expected number of last shifts of a resident: the override when
    it is truthy (present and not 0), the computed value otherwise. *)
Definition expected_night_shifts (resident : Resident) : M pynum :=
  match days_override resident with
  | Some (Zpos _ as z) | Some (Zneg _ as z) => mret (PInt z)
  | _ =>
      ds ← gets days;
      ratio ← attr call_ratio;
      a ← lift (float_of_int (len ds - len (on_vacation_days resident)));
      k ← (if on_trauma resident then gets trauma_shift_multiplier
           else mret 1);
      m ← lift (float_of_int k);
      mret (PFloat (fmul (fmul a ratio) m))
  end.

Definition set_shift_expectations (resident : Resident) : M unit :=
  expected ← expected_night_shifts resident;
  lo ← lift (num_sub_int expected 1);
  lower_bound ← lift (py_int lo);
  up ← lift (num_add_int expected 1);
  upper_bound ← lift (py_int up);
  ds ← gets days;
  total ← collect ds (λ day,
    l ← last_shift; schedule_var (name resident) day l);
  strictly_bounded resident (lin_sum total) lower_bound upper_bound
    "total_shifts" ;;
  twice ← lift (num_mul_int expected 2);
  expected_weekend_shifts ← lift (num_div_int twice 7);
  wup ← lift (num_add_int (PFloat expected_weekend_shifts) 1);
  weekend_upper_bound ← lift (py_int wup);
  wlo ← lift (num_sub_int (PFloat expected_weekend_shifts) 1);
  weekend_lower_bound ← lift (py_int wlo);
  wh ← gets weekends_and_holidays;
  weekend ← collect wh (λ day,
    f ← first_shift; schedule_var (name resident) day f);
  strictly_bounded resident (lin_sum weekend)
    weekend_lower_bound weekend_upper_bound "weekend_shift".

Definition cant_book_vacation_days (resident : Resident) : M unit :=
  ds ← gets days;
  for_each ds (λ day,
    if py_in day (on_vacation_days resident) then
      sh ← gets shifts;
      for_each sh (λ shift,
        v ← schedule_var (name resident) day shift;
        Add (lin_rel v Req 0))
    else mret tt).

Definition cant_book_nofill_days (resident : Resident) : M unit :=
  nf ← attr nofill;
  for_each nf (λ day,
    sh ← gets shifts;
    for_each sh (λ shift,
      v ← schedule_var (name resident) day shift;
      Add (lin_rel v Req 0))).

Definition assign_claimed_days (resident : Resident) : M unit :=
  for_each (claimed_days resident) (λ '(day, shift),
    v ← schedule_var (name resident) day shift;
    Add (lin_rel v Req 1)).

(** *** Compilation of the whole model *)

Definition add_resident_model (resident : Resident)
    (build_functions : option (list (Resident → M unit))) : M unit :=
  fs ← lift (of_option UnboundLocalError build_functions);
  let nm := name resident in
  ds ← gets days;
  rows ← collect ds (λ day,
    sh ← gets shifts;
    dict_comp sh (λ shift,
      NewBoolVar ("call_" +:+ nm +:+ "_" +:+ pretty day +:+ "_" +:+ shift)) ∅);
  modify (λ s, set_schedules (<[nm := rows]> (schedules s)) s) ;;
  for_each fs (λ func, func resident) ;;
  cls ← gets classification;
  if on_trauma resident && bool_decide (cls = "junior")
  then balance_trauma_call resident
  else mret tt.

Definition junior_build_functions : list (Resident → M unit) := [
  emergency_wednesday_halfday;
  cant_book_vacation_days;
  trauma_day_call;
  post_call_days None;
  prefer_full_day_call;
  penalize_multiple_fridays;
  disperse_call;
  set_shift_expectations;
  friday_implies_sunday;
  assign_claimed_days
].

Definition senior_build_functions : list (Resident → M unit) := [
  cant_book_vacation_days;
  post_call_days (Some Weekday.FRIDAY);
  penalize_multiple_fridays;
  disperse_call;
  set_shift_expectations;
  friday_implies_saturday;
  assign_claimed_days
].

(** The variables of a (day, shift) slot, one per resident. *)
Definition slot_vars (day : Z) (shift : string) : M (list var) :=
  residents ← attr residents_info;
  collect residents (λ resident, schedule_var (name resident) day shift).

(** The rule list chosen by the classification; for any other
    classification [build_functions] is never bound. *)
Definition select_build_functions (cls : string)
    : option (list (Resident → M unit)) :=
  if bool_decide (cls = "junior") then Some junior_build_functions
  else if bool_decide (cls = "senior") then Some senior_build_functions
  else None.

Definition setup_model : M unit :=
  modify (set_penalties []) ;;
  cls ← gets classification;
  let build_functions := select_build_functions cls in
  residents ← attr residents_info;
  for_each residents (λ resident,
    add_resident_model resident build_functions) ;;
  ds ← gets days;
  for_each ds (λ day,
    nf ← attr nofill;
    if py_in day nf then mret tt
    else
      sh ← gets shifts;
      for_each sh (λ shift,
        vs ← slot_vars day shift;
        Add (ExactlyOne (Pos <$> vs)))) ;;
  ps ← attr penalties;
  Minimize ps.

(** Running a method on an object, keeping the object only. *)
Definition exec (c : M unit) (s : Solver) : result Solver :=
  match c s with
  | inl e => inl e
  | inr (_, s') => Ok s'
  end.

(** * Notions used to state and prove the claims *)

(** ** Running the class as the script does *)

(** The keyword defaults of [add_resident_info]. *)
Definition resident_defaults (nm : string) : Resident := {|
  name := nm;
  on_vacation_days := [];
  on_trauma := false;
  on_emergency := false;
  days_override := None;
  claimed_days := [];
|}.

(** The constructor followed by one [add_resident_info] per resident,
    as the script drives the class. *)
Definition configure (a : init_args) (rs : list Resident) : result Solver :=
  res_bind (init a) (exec (for_each rs add_resident_info)).

(** An assignment written by variable name; an unnamed variable is 0. *)
Definition named_assignment (m : CpModel) (vals : list (string * Z))
    : assignment :=
  (λ d, default 0 ((list_to_map vals : gmap string Z) !! vd_name d))
    <$> cp_vars m.

Definition var_named (m : CpModel) (v : var) (label : string) : Prop :=
  vd_name <$> cp_vars m !! v = Some label.

Definition compile (a : init_args) (rs : list Resident) : result Solver :=
  res_bind (configure a rs) (exec setup_model).

(** The object a successful run returned. *)
Definition solver_of (r : result Solver) : Solver :=
  match r with
  | inr s => s
  | inl _ => init_first default_args
  end.

(** A senior block as the script configures it (one [night] shift a
    day), over [n] days. *)
Definition senior_block (n : Z) : init_args := {|
  arg_start_date := "2024-04-08";
  arg_num_days := n;
  arg_nofill := [];
  arg_max_shifts_per_week := 1;
  arg_extra_friday_penalty := 5;
  arg_residents_info := None;
  arg_holidays := [];
  arg_shifts := ["night"];
  arg_classification := "senior";
|}.

(** A junior block over [n] days with the no-fill days [nf]; the other
    arguments keep their defaults. *)
Definition junior_block (n : Z) (nf : list Z) : init_args := {|
  arg_start_date := "2024-05-06";
  arg_num_days := n;
  arg_nofill := nf;
  arg_max_shifts_per_week := 1;
  arg_extra_friday_penalty := 5;
  arg_residents_info := None;
  arg_holidays := [];
  arg_shifts := ["day"; "night"];
  arg_classification := "junior";
|}.

Definition trauma_resident (nm : string) : Resident := {|
  name := nm;
  on_vacation_days := [];
  on_trauma := true;
  on_emergency := false;
  days_override := None;
  claimed_days := [];
|}.

Definition residents_ABC : list Resident :=
  [resident_defaults "A"; resident_defaults "B"; resident_defaults "C"].

(** The claim's tolerance window, [e - 1 <= t <= e + 1]. *)
Definition within_one (e : pynum) (t : Z) : bool :=
  match e with
  | PInt z => bool_decide (z - 1 ≤ t ≤ z + 1)
  | PFloat f =>
      match float_of_int t, float_of_int 1 with
      | inr ft, inr one => SFleb (fsub f one) ft && SFleb ft (fadd f one)
      | _, _ => false
      end
  end.

(** ** Reading a compiled model *)

(** A resident works a shift in an assignment when the variable that the
    compiled table [s'] holds for the resident, the day and the shift is
    set. *)
Definition works (s' : Solver) (a : assignment) (r : Resident)
    (day : Z) (shift : string) : Prop :=
  ∃ v, schedule_lookup (schedules s') (name r) day shift = Ok v ∧ value a v = 1.

(** The weekday that the post-call rule skips: none for juniors, Friday
    for seniors. *)
Definition ignored_weekday (cls : string) : option Z :=
  if bool_decide (cls = "senior") then Some Weekday.FRIDAY else None.

(** The number of days from a Friday to the day its last shift implies:
    Saturday for seniors, Sunday for juniors. *)
Definition friday_gap (cls : string) : Z :=
  if bool_decide (cls = "senior") then 1 else 2.

(** The variable of a resident's last shift of a day, in a table. *)
Definition last_shift_var (s : Solver) (r : Resident) (day : Z) : result var :=
  res_bind (py_last (shifts s)) (λ l,
    schedule_lookup (schedules s) (name r) day l).

(** The integer bounds [int(e - 1)] and [int(e + 1)]. *)
Definition lower_of (e : pynum) : result Z := res_bind (num_sub_int e 1) py_int.
Definition upper_of (e : pynum) : result Z := res_bind (num_add_int e 1) py_int.

(** The variables of a resident's table are boolean variables of the
    model. *)
Definition bool_var (m : CpModel) (v : var) : Prop :=
  ∃ d, cp_vars m !! v = Some d ∧ vd_lb d = 0 ∧ vd_ub d = 1.

Definition bool_rows (m : CpModel) (rows : list (gmap string var)) : Prop :=
  ∀ row k v, row ∈ rows → row !! k = Some v → bool_var m v.

(** ** Optimal solutions and unforced penalties *)

Definition optimal (m : CpModel) (a : assignment) : Prop :=
  solution m a ∧ ∀ b, solution m b → objective_value m a ≤ objective_value m b.

Definition lit_var (l : lit) : var :=
  match l with
  | Pos v | Neg v => v
  end.

Definition body_vars (b : ct_body) : list var :=
  match b with
  | Linear l _ r => lin_terms l ++ lin_terms r
  | AtMostOne ls | ExactlyOne ls | BoolAnd ls | BoolXOr ls => lit_var <$> ls
  | Implication x y => [lit_var x; lit_var y]
  end.

(** The assignment [a] with the variables of [X] set to 0. *)
Definition zeroed (X : list var) (a : assignment) : assignment :=
  imap (λ i x, if bool_decide (i ∈ X) then 0 else x) a.

(** A constraint is untouched by zeroing [X] when it mentions no
    variable of [X], and switched off when one of the literals that
    enforce it is a variable of [X]. *)
Definition untouched (X : list var) (c : constraint) : bool :=
  forallb (λ v, negb (bool_decide (v ∈ X)))
    (body_vars (ct_body_of c) ++ (lit_var <$> ct_enforce c)).

Definition switched_off (X : list var) (c : constraint) : bool :=
  existsb (λ l, match l with
                | Pos v => bool_decide (v ∈ X)
                | Neg _ => false
                end) (ct_enforce c).

(** Zeroing [X] is safe in [m]: every constraint is untouched or
    switched off, and every variable of [X] is declared with 0 as its
    least value. *)
Definition zeroable (m : CpModel) (X : list var) : bool :=
  forallb (λ c, untouched X c || switched_off X c) (cp_cts m)
  && forallb (λ v, match cp_vars m !! v with
                   | Some d => bool_decide (vd_lb d = 0 ∧ 0 ≤ vd_ub d)
                   | None => false
                   end) X.

(** Every variable of the objective is declared with a non-negative
    least value. *)
Definition objective_bounded (m : CpModel) : bool :=
  forallb (λ v, match cp_vars m !! v with
                | Some d => bool_decide (0 ≤ vd_lb d)
                | None => false
                end) (default [] (cp_objective m)).

(** ** Relations between the object before and after a method *)

(** A method preserves [R] when every successful run relates the object
    before to the object after. *)
Definition preserves (R : relation Solver) {A} (c : M A) : Prop :=
  ∀ s a s', c s = inr (a, s') → R s s'.

(** [extends s s']: the object [s'] has the configuration of [s], and
    its model and penalty list are those of [s] with more variables,
    constraints and penalties appended. *)
Record extends (s s' : Solver) : Prop := {
  ext_classification : classification s' = classification s;
  ext_num_days : num_days s' = num_days s;
  ext_trauma_shift_multiplier :
    trauma_shift_multiplier s' = trauma_shift_multiplier s;
  ext_shifts : shifts s' = shifts s;
  ext_max_shifts_per_week : max_shifts_per_week s' = max_shifts_per_week s;
  ext_extra_friday_penalty_amount :
    extra_friday_penalty_amount s' = extra_friday_penalty_amount s;
  ext_half_day_call_penalty :
    half_day_call_penalty s' = half_day_call_penalty s;
  ext_days : days s' = days s;
  ext_nofill : nofill s' = nofill s;
  ext_days_to_fill : days_to_fill s' = days_to_fill s;
  ext_working_days : working_days s' = working_days s;
  ext_weekends_and_holidays :
    weekends_and_holidays s' = weekends_and_holidays s;
  ext_residents_info : residents_info s' = residents_info s;
  ext_call_ratio : call_ratio s' = call_ratio s;
  ext_vars : cp_vars (model s) `prefix_of` cp_vars (model s');
  ext_cts : cp_cts (model s) `prefix_of` cp_cts (model s');
  ext_penalties : penalty_list s `prefix_of` penalty_list s';
}.

(** [frame]: moreover the table of assignment variables is unchanged;
    [keeps nm]: the entry of the resident named [nm] is. *)
Definition frame (s s' : Solver) : Prop :=
  extends s s' ∧ schedules s' = schedules s.

Definition keeps (nm : string) (s s' : Solver) : Prop :=
  extends s s' ∧ schedules s' !! nm = schedules s !! nm.

(** * Concrete configurations *)

(** *** One senior resident, one day *)

Definition one_day_values : list (string * Z) := [
  ("call_A_0_night", 1); ("total_shifts_taken_A", 1);
  ("weekend_shift_lower_bound_A", 1)
].

Definition one_day_solver : Solver :=
  solver_of (configure (senior_block 1) [resident_defaults "A"]).
Definition one_day_compiled : Solver :=
  solver_of (compile (senior_block 1) [resident_defaults "A"]).
Definition one_day_solution : assignment :=
  named_assignment (model one_day_compiled) one_day_values.


(** *** Two junior trauma residents, two days, the second a no-fill day *)

Definition nofill_values : list (string * Z) := [
  ("call_A_0_day", 1); ("call_A_0_night", 1);
  ("total_shifts_taken_A", 1); ("weekend_shift_lower_bound_A", 1);
  ("trauma_shifts_taken_A", 1);
  ("call_B_1_day", 1); ("call_B_1_night", 1);
  ("total_shifts_taken_B", 1); ("weekend_shift_lower_bound_B", 1);
  ("trauma_shifts_taken_B", 1)
].

Definition nofill_residents : list Resident :=
  [trauma_resident "A"; trauma_resident "B"].
Definition nofill_solver : Solver :=
  solver_of (configure (junior_block 2 [1]) nofill_residents).
Definition nofill_compiled : Solver :=
  solver_of (compile (junior_block 2 [1]) nofill_residents).
Definition nofill_solution : assignment :=
  named_assignment (model nofill_compiled) nofill_values.


(** *** Three senior residents, four days: A on days 0 and 2, B on days
    1 and 3, C never *)

Definition four_day_values : list (string * Z) := [
  ("call_A_0_night", 1); ("call_A_2_night", 1);
  ("total_shifts_taken_A", 2); ("total_shifts_upper_bound_A", 1);
  ("weekend_shift_lower_bound_A", 1);
  ("call_B_1_night", 1); ("call_B_3_night", 1);
  ("total_shifts_taken_B", 2); ("total_shifts_upper_bound_B", 1);
  ("weekend_shift_lower_bound_B", 1);
  ("total_shifts_lower_bound_C", 1); ("weekend_shift_lower_bound_C", 1)
].

(** The float nearest to 4 × (1/3): 1.3333333333333333. *)
Definition four_thirds : pynum :=
  PFloat (S754_finite false 6004799503160661 (-52)).

Definition four_day_solver : Solver :=
  solver_of (configure (senior_block 4) residents_ABC).
Definition four_day_compiled : Solver :=
  solver_of (compile (senior_block 4) residents_ABC).
Definition four_day_solution : assignment :=
  named_assignment (model four_day_compiled) four_day_values.


(** *** Three senior residents, one week: A on days 0, 2 and 6, B on
    days 1 and 3, C on Friday and Saturday *)

Definition one_week_values : list (string * Z) := [
  ("call_A_0_night", 1); ("call_A_2_night", 1); ("call_A_6_night", 1);
  ("A_week_0_exceeds_max", 1);
  ("total_shifts_taken_A", 3); ("total_shifts_upper_bound_A", 1);
  ("weekend_shift_taken_A", 1); ("weekend_shift_upper_bound_A", 1);
  ("call_B_1_night", 1); ("call_B_3_night", 1);
  ("B_week_0_exceeds_max", 1);
  ("total_shifts_taken_B", 2); ("weekend_shift_lower_bound_B", 1);
  ("call_C_4_night", 1); ("call_C_5_night", 1);
  ("C_week_0_exceeds_max", 1);
  ("total_shifts_taken_C", 2);
  ("weekend_shift_taken_C", 1); ("weekend_shift_upper_bound_C", 1)
].

Definition one_week_solver : Solver :=
  solver_of (configure (senior_block 7) residents_ABC).
Definition one_week_compiled : Solver :=
  solver_of (compile (senior_block 7) residents_ABC).
Definition one_week_solution : assignment :=
  named_assignment (model one_week_compiled) one_week_values.


(** *** Two senior residents, thirteen days, B on vacation on both
    Fridays and Saturdays *)

Definition resident_B_away : Resident := {|
  name := "B";
  on_vacation_days := [4; 5; 11; 12];
  on_trauma := false;
  on_emergency := false;
  days_override := None;
  claimed_days := [];
|}.

Definition two_fridays_residents : list Resident :=
  [resident_defaults "A"; resident_B_away].

Definition two_fridays_values : list (string * Z) := [
  ("call_A_0_night", 1); ("call_A_2_night", 1); ("call_A_4_night", 1);
  ("call_A_5_night", 1); ("call_A_7_night", 1); ("call_A_9_night", 1);
  ("call_A_11_night", 1); ("call_A_12_night", 1);
  ("A_week_0_exceeds_max", 1);
  ("total_shifts_taken_A", 8); ("total_shifts_upper_bound_A", 1);
  ("weekend_shift_taken_A", 2);
  ("call_B_1_night", 1); ("call_B_3_night", 1); ("call_B_6_night", 1);
  ("call_B_8_night", 1); ("call_B_10_night", 1);
  ("B_week_0_exceeds_max", 1);
  ("total_shifts_taken_B", 5); ("weekend_shift_taken_B", 1)
].

Definition two_fridays_solver : Solver :=
  solver_of (configure (senior_block 13) two_fridays_residents).
Definition two_fridays_compiled : Solver :=
  solver_of (compile (senior_block 13) two_fridays_residents).
Definition two_fridays_solution : assignment :=
  named_assignment (model two_fridays_compiled) two_fridays_values.

(** *** One junior trauma resident, twelve days: the second Friday has
    no Sunday *)

Definition twelve_day_solver : Solver :=
  solver_of (configure (junior_block 12 []) [trauma_resident "A"]).

(** *** A junior trauma resident and a resident off the trauma rotation,
    one day *)

Definition mixed_residents : list Resident :=
  [trauma_resident "T"; resident_defaults "N"].
Definition mixed_solver : Solver :=
  solver_of (configure (junior_block 1 []) mixed_residents).
Definition mixed_compiled : Solver :=
  solver_of (compile (junior_block 1 []) mixed_residents).

(** *** A resident given the override 0 *)

Definition resident_override_zero : Resident := {|
  name := "C";
  on_vacation_days := [];
  on_trauma := false;
  on_emergency := false;
  days_override := Some 0;
  claimed_days := [];
|}.
Definition override_zero_solver : Solver :=
  solver_of (configure (senior_block 4)
    [resident_defaults "A"; resident_defaults "B"; resident_override_zero]).


(** *** The constructor called with a resident list *)

Definition args_with_residents : init_args := {|
  arg_start_date := "2024-05-06";
  arg_num_days := 28;
  arg_nofill := [];
  arg_max_shifts_per_week := 1;
  arg_extra_friday_penalty := 5;
  arg_residents_info := Some [resident_defaults "A"];
  arg_holidays := [];
  arg_shifts := ["day"; "night"];
  arg_classification := "junior";
|}.

(** *** The call of the bounded primitive for A's total of shifts, as
    it happens while the four-day block is compiled: the object before
    the call (A's table and the four rules that precede
    [set_shift_expectations] in the senior list), and after it *)



(** * Further notions *)

(** ** Reading several variables of the table *)

(** [[f(x) for x in l]] for a pure, fallible [f]. *)
Fixpoint res_collect {A B} (l : list A) (f : A → result B) : result (list B) :=
  match l with
  | [] => Ok []
  | x :: l' =>
      res_bind (f x) (λ y, res_bind (res_collect l' f) (λ ys, Ok (y :: ys)))
  end.

(** The variable of a resident's first shift of a day, in a table. *)
Definition first_shift_var (s : Solver) (r : Resident) (day : Z) : result var :=
  res_bind (py_first (shifts s)) (λ f,
    schedule_lookup (schedules s) (name r) day f).

(** The variables of a resident for every shift of a day, and for every
    shift of the seven days of a week. *)
Definition day_vars (s : Solver) (r : Resident) (day : Z) : result (list var) :=
  res_collect (shifts s) (schedule_lookup (schedules s) (name r) day).

Definition week_vars (s : Solver) (r : Resident) (week : Z)
    : result (list var) :=
  res_bind (res_collect (py_range2 (week * 7) (week * 7 + 7)) (day_vars s r))
    (λ per_day, Ok (concat per_day)).

(** ** Expectations *)

(** [expected_night_shifts * 2/7] *)
Definition expected_weekend_shifts (e : pynum) : result float :=
  res_bind (num_mul_int e 2) (λ twice, num_div_int twice 7).

(** The working days on which a trauma resident is available, summed
    over the trauma residents: the denominator of the trauma ratio. *)
Definition trauma_days_available (residents : list Resident) (wd : list Z) : Z :=
  foldr Z.add 0
    ((λ tr, count_days (λ day, negb (py_in day (on_vacation_days tr))) wd)
       <$> filter (λ tr, on_trauma tr = true) residents).

(** ** The registry *)


(** The denominator of the call ratio: the days each resident is
    available, a trauma resident counting [tsm] times. *)
Definition resident_days_available (tsm dtf : Z) (residents : list Resident)
    : Z :=
  foldr Z.add 0
    ((λ resident, (1 + Z.b2z (on_trauma resident) * (tsm - 1))
                  * (dtf - len (on_vacation_days resident))) <$> residents).

(** ** Least values of the variables *)

(** Every variable of the model is declared with a non-negative least
    value. *)
Definition nonneg_vars (s : Solver) : Prop :=
  Forall (λ d, 0 ≤ vd_lb d) (cp_vars (model s)).

(** [keeps_nonneg s s']: the step from [s] to [s'] declared no variable
    with a negative least value. *)
Definition keeps_nonneg (s s' : Solver) : Prop :=
  nonneg_vars s → nonneg_vars s'.

(** ** The start date *)

Definition set_start_date (x : option (Z * Z * Z)) (s : Solver) : Solver :=
  {| classification := classification s; num_days := num_days s;
     trauma_shift_multiplier := trauma_shift_multiplier s; shifts := shifts s;
     shifts_per_day := shifts_per_day s;
     max_shifts_per_week := max_shifts_per_week s;
     extra_friday_penalty_amount := extra_friday_penalty_amount s;
     half_day_call_penalty := half_day_call_penalty s; days := days s;
     schedules := schedules s; nofill := nofill s; num_nofill := num_nofill s;
     days_to_fill := days_to_fill s; start_date := x;
     working_days := working_days s;
     weekends_and_holidays := weekends_and_holidays s; model := model s;
     residents_info := residents_info s; call_ratio := call_ratio s;
     penalties := penalties s |}.

(** The constructor's arguments with another [start_date]. *)
Definition with_start_date (date : string) (a : init_args) : init_args := {|
  arg_start_date := date;
  arg_num_days := arg_num_days a;
  arg_nofill := arg_nofill a;
  arg_max_shifts_per_week := arg_max_shifts_per_week a;
  arg_extra_friday_penalty := arg_extra_friday_penalty a;
  arg_residents_info := arg_residents_info a;
  arg_holidays := arg_holidays a;
  arg_shifts := arg_shifts a;
  arg_classification := arg_classification a;
|}.

(** A method is blind to the start date when running it on an object
    with another [start_date] gives the same outcome, the attribute
    apart. *)
Definition date_blind {A} (c : M A) : Prop :=
  ∀ d s, c (set_start_date d s) =
         match c s with
         | inl e => inl e
         | inr (a, s') => inr (a, set_start_date d s')
         end.

(** ** More concrete configurations *)

(** *** Two senior residents, two days: A claims the first night *)

Definition resident_A_claims : Resident := {|
  name := "A";
  on_vacation_days := [];
  on_trauma := false;
  on_emergency := false;
  days_override := None;
  claimed_days := [(0, "night")];
|}.

Definition claims_residents : list Resident :=
  [resident_A_claims; resident_defaults "B"].
Definition claims_solver : Solver :=
  solver_of (configure (senior_block 2) claims_residents).
Definition claims_compiled : Solver :=
  solver_of (compile (senior_block 2) claims_residents).

(** *** The same, A being on vacation on the night claimed *)

Definition resident_A_conflict : Resident := {|
  name := "A";
  on_vacation_days := [0];
  on_trauma := false;
  on_emergency := false;
  days_override := None;
  claimed_days := [(0, "night")];
|}.

Definition conflict_residents : list Resident :=
  [resident_A_conflict; resident_defaults "B"].
Definition conflict_solver : Solver :=
  solver_of (configure (senior_block 2) conflict_residents).
Definition conflict_compiled : Solver :=
  solver_of (compile (senior_block 2) conflict_residents).

(** *** Three junior residents, one week: T and U on the trauma
    rotation, E on rotation from emergency.  U takes the nights of
    Monday and Thursday, E those of Tuesday and Saturday, T those of
    Wednesday, Friday and Sunday *)

Definition resident_E : Resident := {|
  name := "E";
  on_vacation_days := [];
  on_trauma := false;
  on_emergency := true;
  days_override := None;
  claimed_days := [];
|}.

Definition junior_week_residents : list Resident :=
  [trauma_resident "T"; trauma_resident "U"; resident_E].
Definition junior_week_solver : Solver :=
  solver_of (configure (junior_block 7 []) junior_week_residents).
Definition junior_week_compiled : Solver :=
  solver_of (compile (junior_block 7 []) junior_week_residents).
Definition junior_week_values : list (string * Z) := [
  ("call_T_1_day", 1); ("call_T_4_day", 1); ("call_T_6_day", 1);
  ("call_T_2_night", 1); ("call_T_4_night", 1); ("call_T_6_night", 1);
  ("full_day_T_1", 1); ("penalty_T_halfday_1", 2);
  ("full_day_T_2", 1); ("penalty_T_halfday_2", 2);
  ("T_week_0_exceeds_max", 1);
  ("total_shifts_taken_T", 3); ("total_shifts_upper_bound_T", 1);
  ("weekend_shift_taken_T", 1); ("weekend_shift_upper_bound_T", 1);
  ("trauma_shifts_taken_T", 2);
  ("call_U_0_day", 1); ("call_U_2_day", 1); ("call_U_3_day", 1);
  ("call_U_5_day", 1); ("call_U_0_night", 1); ("call_U_3_night", 1);
  ("full_day_U_2", 1); ("penalty_U_halfday_2", 2);
  ("full_day_U_5", 1); ("penalty_U_halfday_5", 2);
  ("U_week_0_exceeds_max", 1);
  ("total_shifts_taken_U", 2);
  ("weekend_shift_taken_U", 1); ("weekend_shift_upper_bound_U", 1);
  ("trauma_shifts_taken_U", 3); ("trauma_shifts_upper_bound_U", 1);
  ("call_E_1_night", 1); ("call_E_5_night", 1);
  ("full_day_E_1", 1); ("penalty_E_halfday_1", 2);
  ("full_day_E_5", 1); ("penalty_E_halfday_5", 2);
  ("E_week_0_exceeds_max", 1);
  ("total_shifts_taken_E", 2); ("total_shifts_upper_bound_E", 1);
  ("weekend_shift_lower_bound_E", 1)
].
Definition junior_week_solution : assignment :=
  named_assignment (model junior_week_compiled) junior_week_values.

(** *** Two entries under the name A, one day: B takes the night *)

Definition shared_name_residents : list Resident :=
  [resident_defaults "A"; resident_defaults "A"; resident_defaults "B"].
Definition shared_name_solver : Solver :=
  solver_of (configure (senior_block 1) shared_name_residents).
Definition shared_name_compiled : Solver :=
  solver_of (compile (senior_block 1) shared_name_residents).
Definition shared_name_values : list (string * Z) := [
  ("call_B_0_night", 1);
  ("total_shifts_taken_B", 1); ("total_shifts_upper_bound_B", 1);
  ("total_shifts_lower_bound_A", 1);
  ("weekend_shift_lower_bound_A", 1); ("weekend_shift_lower_bound_B", 1)
].
Definition shared_name_solution : assignment :=
  named_assignment (model shared_name_compiled) shared_name_values.

(** *** Two residents whose vacation lists hold the no-fill day 3 *)


(** *** A classification that is neither junior nor senior *)

Definition fellow_block : init_args := {|
  arg_start_date := "2024-05-06";
  arg_num_days := 7;
  arg_nofill := [];
  arg_max_shifts_per_week := 1;
  arg_extra_friday_penalty := 5;
  arg_residents_info := None;
  arg_holidays := [];
  arg_shifts := ["night"];
  arg_classification := "fellow";
|}.

Definition fellow_solver : Solver :=
  solver_of (configure fellow_block [resident_defaults "A"]).

(** *** Two holidays: the first Monday and the second Tuesday *)

Definition holiday_args : init_args := {|
  arg_start_date := "2024-05-06";
  arg_num_days := 28;
  arg_nofill := [];
  arg_max_shifts_per_week := 1;
  arg_extra_friday_penalty := 5;
  arg_residents_info := None;
  arg_holidays := [0; 8];
  arg_shifts := ["day"; "night"];
  arg_classification := "junior";
|}.

Definition holiday_solver : Solver := solver_of (init holiday_args).

(** *** A junior block of two days before any resident is registered *)


(** *** The no-fill rule run on the compiled two-day junior block *)

Definition nofill_ruled : Solver :=
  solver_of (exec (cant_book_nofill_days (trauma_resident "B"))
               nofill_compiled).

(** *** An override of five shifts over two days *)

Definition resident_A_override : Resident := {|
  name := "A";
  on_vacation_days := [];
  on_trauma := false;
  on_emergency := false;
  days_override := Some 5;
  claimed_days := [];
|}.

Definition override_residents : list Resident :=
  [resident_A_override; resident_defaults "B"].
Definition override_solver : Solver :=
  solver_of (configure (senior_block 2) override_residents).
Definition override_compiled : Solver :=
  solver_of (compile (senior_block 2) override_residents).

(** *** The Friday-to-Sunday implication run on the compiled week *)

Definition weekend_implied : Solver :=
  solver_of (exec (multiday_implication Weekday.FRIDAY Weekday.SUNDAY
                     (trauma_resident "T"))
               junior_week_compiled).

(** * Reasoning about methods *)

(** ** Inversion of a successful run *)

Lemma bind_ok {A B} (c : M A) (k : A → M B) s b s' :
  (c ≫= k) s = inr (b, s') ↔ ∃ a s1, c s = inr (a, s1) ∧ k a s1 = inr (b, s').
Proof.
  unfold mbind, M_bind. split.
  - destruct (c s) as [e|[a s1]]; [discriminate|]. intros H. by exists a, s1.
  - intros (a & s1 & -> & H). done.
Qed.

Lemma ret_ok {A} (x : A) s a s' :
  (mret x : M A) s = inr (a, s') ↔ a = x ∧ s' = s.
Proof.
  unfold mret, M_ret, Ok. split; [intros [= <- <-]|intros [-> ->]]; done.
Qed.

Lemma gets_ok {A} (f : Solver → A) s a s' :
  gets f s = inr (a, s') ↔ a = f s ∧ s' = s.
Proof. unfold gets, Ok. split; [intros [= <- <-]|intros [-> ->]]; done. Qed.

Lemma attr_ok {A} (f : Solver → option A) s a s' :
  attr f s = inr (a, s') ↔ f s = Some a ∧ s' = s.
Proof.
  unfold attr, Ok, Raise. destruct (f s).
  - split; [intros [= <- <-]|intros [[= ->] ->]]; done.
  - split; [intros [=]|intros [[=] _]].
Qed.

Lemma lift_ok {A} (r : result A) s a s' :
  lift r s = inr (a, s') ↔ r = Ok a ∧ s' = s.
Proof.
  unfold lift, Ok. destruct r.
  - split; [intros [=]|intros [[=] _]].
  - split; [intros [= <- <-]|intros [[= ->] ->]]; done.
Qed.

Lemma modify_ok f s u s' : modify f s = inr (u, s') ↔ s' = f s.
Proof. unfold modify, Ok. destruct u. split; [intros [= <-]|intros ->]; done. Qed.

Lemma raise_ok {A} e s (a : A) s' : raise e s = inr (a, s') ↔ False.
Proof. unfold raise, Raise. split; [intros [=]|intros []]. Qed.

Lemma of_option_ok {A} e (o : option A) a : of_option e o = Ok a ↔ o = Some a.
Proof.
  unfold of_option, Ok, Raise. destruct o.
  - split; [intros [= <-]|intros [= ->]]; done.
  - split; intros [=].
Qed.

Lemma res_bind_ok {A B} (r : result A) (k : A → result B) b :
  res_bind r k = Ok b ↔ ∃ a, r = Ok a ∧ k a = Ok b.
Proof.
  unfold res_bind, Ok. destruct r as [e|a].
  - split; [intros [=]|intros (a & [=] & _)].
  - split; [intros H; by exists a|intros (a' & [= <-] & H); done].
Qed.

(** Decomposes the hypothesis [H : c s = inr (a, s')] along the binds
    of [c], down to its state-reading and state-writing steps. *)
Ltac inv_run H :=
  lazymatch type of H with
  | (_ ≫= _) _ = inr _ =>
      let a := fresh "x" in
      let s := fresh "s" in
      let H1 := fresh "Hc" in
      let H2 := fresh "Hk" in
      apply bind_ok in H; destruct H as (a & s & H1 & H2);
      inv_run H1; inv_run H2
  | mret _ _ = inr _ => apply ret_ok in H; destruct H as [? ?]; subst
  | gets _ _ = inr _ => apply gets_ok in H; destruct H as [? ?]; subst
  | attr _ _ = inr _ =>
      let E := fresh "Hattr" in
      apply attr_ok in H; destruct H as [E ?]; subst
  | lift _ _ = inr _ =>
      let E := fresh "Hlift" in
      apply lift_ok in H; destruct H as [E ?]; subst
  | modify _ _ = inr _ => apply modify_ok in H; subst
  | raise _ _ = inr _ => apply raise_ok in H; destruct H
  | _ => idtac
  end.

(** ** Relations preserved by a method *)

Section Preserves.
Context (R : relation Solver) `{!PreOrder R}.

Lemma preserves_ret {A} (x : A) : preserves R (mret x).
Proof. intros s a s' H. inv_run H. done. Qed.

Lemma preserves_bind {A B} (c : M A) (k : A → M B) :
  preserves R c → (∀ a, preserves R (k a)) → preserves R (c ≫= k).
Proof.
  intros Hc Hk s b s' H. apply bind_ok in H as (a & s1 & H1 & H2).
  etrans; [by eapply Hc | by eapply Hk].
Qed.

Lemma preserves_raise {A} e : preserves R (raise e : M A).
Proof. intros s a s' H. inv_run H. Qed.

Lemma preserves_lift {A} (r : result A) : preserves R (lift r).
Proof. intros s a s' H. inv_run H. done. Qed.

Lemma preserves_gets {A} (f : Solver → A) : preserves R (gets f).
Proof. intros s a s' H. inv_run H. done. Qed.

Lemma preserves_attr {A} (f : Solver → option A) : preserves R (attr f).
Proof. intros s a s' H. inv_run H. done. Qed.

Lemma preserves_for_each {A} (l : list A) (body : A → M unit) :
  (∀ x, x ∈ l → preserves R (body x)) → preserves R (for_each l body).
Proof.
  induction l as [|x l IH]; intros Hb; simpl.
  - apply preserves_ret.
  - apply preserves_bind; [apply Hb; left|intros _].
    apply IH. intros y Hy. apply Hb. by right.
Qed.

Lemma preserves_collect {A B} (l : list A) (f : A → M B) :
  (∀ x, x ∈ l → preserves R (f x)) → preserves R (collect l f).
Proof.
  induction l as [|x l IH]; intros Hb; simpl.
  - apply preserves_ret.
  - apply preserves_bind; [apply Hb; left|intros y].
    apply preserves_bind; [|intros ys; apply preserves_ret].
    apply IH. intros z Hz. apply Hb. by right.
Qed.

Lemma preserves_dict_comp {B} (l : list string) (f : string → M B) acc :
  (∀ x, preserves R (f x)) → preserves R (dict_comp l f acc).
Proof.
  intros Hb. revert acc. induction l as [|x l IH]; intros acc; simpl.
  - apply preserves_ret.
  - apply preserves_bind; [apply Hb|intros y; apply IH].
Qed.

(** A successful loop ran its body on every element, between two
    states related to the ends of the loop. *)
Lemma for_each_elem {A} (l : list A) (body : A → M unit) x s s' :
  (∀ y, y ∈ l → preserves R (body y)) →
  for_each l body s = inr (tt, s') → x ∈ l →
  ∃ s1 s2, R s s1 ∧ body x s1 = inr (tt, s2) ∧ R s2 s'.
Proof.
  revert s. induction l as [|y l IH]; intros s Hb H Hx.
  - by apply elem_of_nil in Hx.
  - simpl in H. apply bind_ok in H as ([] & s1 & H1 & H2).
    assert (preserves R (for_each l body)) as Hl.
    { apply preserves_for_each. intros z Hz. apply Hb. by right. }
    apply elem_of_cons in Hx as [->|Hx].
    + exists s, s1. split_and!; [done|done|by eapply Hl].
    + destruct (IH s1) as (s2 & s3 & ? & ? & ?); [|done|done|].
      { intros z Hz. apply Hb. by right. }
      exists s2, s3. split_and!; [|done|done].
      etrans; [|done]. eapply Hb; [left|done].
Qed.
End Preserves.

Lemma for_each_app {A} (l1 l2 : list A) (body : A → M unit) s s' :
  for_each (l1 ++ l2) body s = inr (tt, s') ↔
  ∃ s1, for_each l1 body s = inr (tt, s1) ∧ for_each l2 body s1 = inr (tt, s').
Proof.
  revert s. induction l1 as [|x l1 IH]; intros s; simpl.
  - split.
    + intros H. exists s. by rewrite ret_ok.
    + intros (s1 & H1 & H2). apply ret_ok in H1 as [_ ->]. done.
  - rewrite bind_ok. split.
    + intros ([] & s1 & H1 & H2). apply IH in H2 as (s2 & H2 & H3).
      exists s2. split; [|done]. apply bind_ok. by exists tt, s1.
    + intros (s2 & H1 & H2). apply bind_ok in H1 as ([] & s1 & H1 & H3).
      exists tt, s1. split; [done|]. apply IH. by exists s2.
Qed.

Lemma preserves_weaken (R R' : relation Solver) {A} (c : M A) :
  (∀ s s', R s s' → R' s s') → preserves R c → preserves R' c.
Proof. intros HR Hc s a s' H. apply HR. by eapply Hc. Qed.

(** ** What building the model leaves unchanged *)

#[global] Instance extends_preorder : PreOrder extends.
Proof.
  split.
  - intros s. by split.
  - intros s1 s2 s3 [] []. split; try congruence; by etrans.
Qed.

#[global] Instance frame_preorder : PreOrder frame.
Proof.
  split.
  - intros s. by split.
  - intros s1 s2 s3 [? ?] [? ?]. split; [by etrans|congruence].
Qed.

#[global] Instance keeps_preorder nm : PreOrder (keeps nm).
Proof.
  split.
  - intros s. by split.
  - intros s1 s2 s3 [? ?] [? ?]. split; [by etrans|congruence].
Qed.

Lemma frame_extends s s' : frame s s' → extends s s'.
Proof. by intros [? _]. Qed.

Lemma frame_keeps nm s s' : frame s s' → keeps nm s s'.
Proof. intros [? E]. split; [done|by rewrite E]. Qed.

Lemma keeps_extends nm s s' : keeps nm s s' → extends s s'.
Proof. by intros [? _]. Qed.

Lemma extends_ct s s' c :
  extends s s' → c ∈ cp_cts (model s) → c ∈ cp_cts (model s').
Proof. intros [] Hc. by eapply elem_of_prefix. Qed.

Lemma extends_var s s' v d :
  extends s s' → cp_vars (model s) !! v = Some d →
  cp_vars (model s') !! v = Some d.
Proof. intros [] Hv. by eapply prefix_lookup_Some. Qed.

Lemma extends_penalty s s' v :
  extends s s' → v ∈ penalty_list s → v ∈ penalty_list s'.
Proof. intros [] Hv. by eapply elem_of_prefix. Qed.

(** *** The steps that write to the model *)

Lemma NewIntVar_ok lb ub label s v s' :
  NewIntVar lb ub label s = inr (v, s') ↔
  v = length (cp_vars (model s)) ∧
  s' = set_model (model_add_var (VarDecl label lb ub) (model s)) s.
Proof. unfold NewIntVar, Ok. split; [intros [= <- <-]|intros [-> ->]]; done. Qed.

Lemma frame_set_model_var d s :
  frame s (set_model (model_add_var d (model s)) s).
Proof. split; [split|]; simpl; try done. by apply prefix_app_r. Qed.

Lemma frame_set_model_ct c s :
  frame s (set_model (model_add_ct c (model s)) s).
Proof. split; [split|]; simpl; try done. by apply prefix_app_r. Qed.

Lemma frame_NewIntVar lb ub label : preserves frame (NewIntVar lb ub label).
Proof.
  intros s v s' H. apply NewIntVar_ok in H as [_ ->]. apply frame_set_model_var.
Qed.

Lemma frame_NewBoolVar label : preserves frame (NewBoolVar label).
Proof. apply frame_NewIntVar. Qed.

Lemma frame_Add body : preserves frame (Add body).
Proof. intros s [] s' H. unfold Add in H. inv_run H. apply frame_set_model_ct. Qed.

Lemma frame_AddIf body l : preserves frame (AddIf body l).
Proof.
  intros s [] s' H. unfold AddIf in H. inv_run H. apply frame_set_model_ct.
Qed.

Lemma frame_penalties_append v : preserves frame (penalties_append v).
Proof.
  intros s [] s' H. unfold penalties_append in H. inv_run H.
  split; [split|]; simpl; try done. rewrite Hattr. by apply prefix_app_r.
Qed.

(** Steps and loops of a rule method, taken apart one at a time. *)
Lemma frame_schedule_var nm day shift :
  preserves frame (schedule_var nm day shift).
Proof.
  apply preserves_bind; [apply _|apply preserves_gets; apply _|intros ?].
  apply preserves_lift; apply _.
Qed.

Lemma frame_first_shift : preserves frame first_shift.
Proof.
  apply preserves_bind; [apply _|apply preserves_gets; apply _|intros ?].
  apply preserves_lift; apply _.
Qed.

Lemma frame_last_shift : preserves frame last_shift.
Proof.
  apply preserves_bind; [apply _|apply preserves_gets; apply _|intros ?].
  apply preserves_lift; apply _.
Qed.

Ltac frame_step :=
  lazymatch goal with
  | |- preserves _ (mret _) => apply preserves_ret; apply _
  | |- preserves _ (raise _) => apply preserves_raise
  | |- preserves _ (lift _) => apply preserves_lift; apply _
  | |- preserves _ (gets _) => apply preserves_gets; apply _
  | |- preserves _ (attr _) => apply preserves_attr; apply _
  | |- preserves _ (NewIntVar _ _ _) => apply frame_NewIntVar
  | |- preserves _ (NewBoolVar _) => apply frame_NewBoolVar
  | |- preserves _ (Add _) => apply frame_Add
  | |- preserves _ (AddIf _ _) => apply frame_AddIf
  | |- preserves _ (penalties_append _) => apply frame_penalties_append
  | |- preserves _ (schedule_var _ _ _) => apply frame_schedule_var
  | |- preserves _ first_shift => apply frame_first_shift
  | |- preserves _ last_shift => apply frame_last_shift
  | |- preserves _ (_ ≫= _) => apply preserves_bind; [apply _| |intros ?]
  | |- preserves _ (for_each _ _) =>
      apply preserves_for_each; [apply _|intros ? _]
  | |- preserves _ (collect _ _) =>
      apply preserves_collect; [apply _|intros ? _]
  | |- preserves _ (dict_comp _ _ _) =>
      apply preserves_dict_comp; [apply _|intros ?]
  | |- preserves _ (if ?b then _ else _) => destruct b
  | |- preserves _ (match ?x with _ => _ end) => destruct x
  end.

Ltac frame_method := repeat frame_step.

(** Membership in an explicit list. *)
Ltac in_list :=
  repeat first [apply list_elem_of_here | apply list_elem_of_further].

(** From a successful loop [H] and an element [x] of its list (left as
    the first goal), the run of the body on [x]. *)
Tactic Notation "loop_elem" hyp(H) constr(x) "as" simple_intropattern(pat) :=
  lazymatch type of H with
  | for_each ?l ?body ?s = inr (tt, ?s') =>
      let Hp := fresh "Hp" in
      let Hx := fresh "Hx" in
      assert (∀ y, y ∈ l → preserves frame (body y)) as Hp
        by (intros ? _; cbv beta; frame_method);
      assert (x ∈ l) as Hx;
      [|destruct (for_each_elem frame l body x s s' Hp H Hx) as pat;
        clear Hp Hx]
  end.

Lemma frame_strictly_bounded resident calculation lo up descr :
  preserves frame (strictly_bounded resident calculation lo up descr).
Proof. unfold strictly_bounded. frame_method. Qed.

Lemma frame_balance_trauma_call resident :
  preserves frame (balance_trauma_call resident).
Proof.
  unfold balance_trauma_call. frame_method. apply frame_strictly_bounded.
Qed.

Lemma frame_emergency_wednesday_halfday resident :
  preserves frame (emergency_wednesday_halfday resident).
Proof. unfold emergency_wednesday_halfday. frame_method. Qed.

Lemma frame_trauma_day_call resident :
  preserves frame (trauma_day_call resident).
Proof. unfold trauma_day_call. frame_method. Qed.

Lemma frame_post_call_days ignore resident :
  preserves frame (post_call_days ignore resident).
Proof. unfold post_call_days. frame_method. Qed.

Lemma frame_prefer_full_day_call resident :
  preserves frame (prefer_full_day_call resident).
Proof. unfold prefer_full_day_call. frame_method. Qed.

Lemma frame_implication_rule first day_gap resident :
  preserves frame (implication_rule first day_gap resident).
Proof. unfold implication_rule. frame_method. Qed.

Lemma frame_penalize_multiple_fridays resident :
  preserves frame (penalize_multiple_fridays resident).
Proof. unfold penalize_multiple_fridays. frame_method. Qed.

Lemma frame_disperse_call resident :
  preserves frame (disperse_call resident).
Proof. unfold disperse_call. frame_method. Qed.

Lemma frame_expected_night_shifts resident :
  preserves frame (expected_night_shifts resident).
Proof. unfold expected_night_shifts. frame_method. Qed.

Lemma frame_set_shift_expectations resident :
  preserves frame (set_shift_expectations resident).
Proof.
  unfold set_shift_expectations.
  frame_method; first [apply frame_expected_night_shifts
                      |apply frame_strictly_bounded].
Qed.

Lemma frame_cant_book_vacation_days resident :
  preserves frame (cant_book_vacation_days resident).
Proof. unfold cant_book_vacation_days. frame_method. Qed.

Lemma frame_assign_claimed_days resident :
  preserves frame (assign_claimed_days resident).
Proof. unfold assign_claimed_days. frame_method. Qed.

Lemma frame_junior_build_functions func resident :
  func ∈ junior_build_functions → preserves frame (func resident).
Proof.
  unfold junior_build_functions. rewrite !elem_of_cons, elem_of_nil.
  intros [->|[->|[->|[->|[->|[->|[->|[->|[->|[->|[]]]]]]]]]]];
    eauto using frame_emergency_wednesday_halfday,
      frame_cant_book_vacation_days, frame_trauma_day_call,
      frame_post_call_days, frame_prefer_full_day_call,
      frame_penalize_multiple_fridays, frame_disperse_call,
      frame_set_shift_expectations, frame_implication_rule,
      frame_assign_claimed_days.
Qed.

Lemma frame_senior_build_functions func resident :
  func ∈ senior_build_functions → preserves frame (func resident).
Proof.
  unfold senior_build_functions. rewrite !elem_of_cons, elem_of_nil.
  intros [->|[->|[->|[->|[->|[->|[->|[]]]]]]]];
    eauto using frame_cant_book_vacation_days, frame_post_call_days,
      frame_penalize_multiple_fridays, frame_disperse_call,
      frame_set_shift_expectations, frame_implication_rule,
      frame_assign_claimed_days.
Qed.

(** ** The structure of a successful compilation *)

Lemma frame_Minimize vs : preserves frame (Minimize vs).
Proof. intros s [] s' H. unfold Minimize in H. inv_run H. by split; [split|]. Qed.

Lemma extends_set_schedules sch s : extends s (set_schedules sch s).
Proof. by split. Qed.

Lemma schedule_lookup_entry sch sch' nm day shift :
  sch !! nm = sch' !! nm →
  schedule_lookup sch nm day shift = schedule_lookup sch' nm day shift.
Proof. unfold schedule_lookup. by intros ->. Qed.

Lemma schedule_var_ok nm day shift s v s' :
  schedule_var nm day shift s = inr (v, s') ↔
  schedule_lookup (schedules s) nm day shift = Ok v ∧ s' = s.
Proof.
  unfold schedule_var. rewrite bind_ok. split.
  - intros (sch & s1 & H1 & H2). inv_run H1. inv_run H2. done.
  - intros [H ->]. exists (schedules s), s. by rewrite gets_ok, lift_ok.
Qed.

Lemma first_shift_ok s f s' :
  first_shift s = inr (f, s') ↔ py_first (shifts s) = Ok f ∧ s' = s.
Proof.
  unfold first_shift. rewrite bind_ok. split.
  - intros (sh & s1 & H1 & H2). inv_run H1. inv_run H2. done.
  - intros [H ->]. exists (shifts s), s. by rewrite gets_ok, lift_ok.
Qed.

Lemma last_shift_ok s l s' :
  last_shift s = inr (l, s') ↔ py_last (shifts s) = Ok l ∧ s' = s.
Proof.
  unfold last_shift. rewrite bind_ok. split.
  - intros (sh & s1 & H1 & H2). inv_run H1. inv_run H2. done.
  - intros [H ->]. exists (shifts s), s. by rewrite gets_ok, lift_ok.
Qed.

Lemma Add_ok body s u s' :
  Add body s = inr (u, s') ↔
  s' = set_model (model_add_ct (Ct body []) (model s)) s.
Proof. unfold Add. by rewrite modify_ok. Qed.

Lemma AddIf_ok body l s u s' :
  AddIf body l s = inr (u, s') ↔
  s' = set_model (model_add_ct (Ct body [l]) (model s)) s.
Proof. unfold AddIf. by rewrite modify_ok. Qed.

Lemma added_ct_elem c s :
  c ∈ cp_cts (model (set_model (model_add_ct c (model s)) s)).
Proof. simpl. apply elem_of_app. right. by left. Qed.

Lemma bool_var_lookup m v d :
  cp_vars m !! v = Some d → vd_lb d = 0 → vd_ub d = 1 → bool_var m v.
Proof. intros Hd Hl Hu. by exists d. Qed.

Lemma bool_var_extends s s' v :
  extends s s' → bool_var (model s) v → bool_var (model s') v.
Proof. intros Hext (d & ? & ?). exists d. split; [by eapply extends_var|done]. Qed.

Lemma bool_var_new label s v s' :
  NewBoolVar label s = inr (v, s') → bool_var (model s') v.
Proof.
  intros H. apply NewIntVar_ok in H as [-> ->].
  exists (VarDecl label 0 1). simpl. split; [|done].
  by rewrite lookup_app_r, Nat.sub_diag.
Qed.

Lemma dict_comp_bool_vars (l : list string) (label : string → string) :
  ∀ acc s row s',
    dict_comp l (λ shift, NewBoolVar (label shift)) acc s = inr (row, s') →
    frame s s' ∧
    ∀ k v, row !! k = Some v → acc !! k = Some v ∨ bool_var (model s') v.
Proof.
  induction l as [|k0 l IH]; intros acc s row s' H; simpl in H.
  - inv_run H. split; [done|]. auto.
  - apply bind_ok in H as (v0 & s1 & H1 & H2).
    apply IH in H2 as [Hfr Hrow].
    split; [etrans; [by eapply frame_NewBoolVar|done]|].
    intros k v Hk. destruct (Hrow k v Hk) as [Hacc|?]; [|by right].
    destruct (decide (k0 = k)) as [->|Hne].
    + rewrite lookup_insert_eq in Hacc. injection Hacc as <-. right.
      eapply bool_var_extends; [by apply frame_extends|].
      by eapply bool_var_new.
    + rewrite lookup_insert_ne in Hacc by done. by left.
Qed.

Lemma collect_rows_bool_vars (ds : list Z) (label : Z → string → string) :
  ∀ s rows s',
    collect ds (λ day,
      sh ← gets shifts;
      dict_comp sh (λ shift, NewBoolVar (label day shift)) ∅) s
      = inr (rows, s') →
    frame s s' ∧ bool_rows (model s') rows.
Proof.
  induction ds as [|d ds IH]; intros s rows s' H; simpl in H.
  - inv_run H. split; [done|]. intros row k v Hrow. by apply elem_of_nil in Hrow.
  - apply bind_ok in H as (row0 & s1 & H1 & H2).
    apply bind_ok in H2 as (rest & s2 & H2 & H3). inv_run H3.
    apply bind_ok in H1 as (sh & s0 & H0 & H1). inv_run H0.
    apply dict_comp_bool_vars in H1 as [Hfr1 Hrow0].
    apply IH in H2 as [Hfr2 Hrest].
    split; [by etrans|].
    intros row k v Hrow Hk. apply elem_of_cons in Hrow as [->|Hrow].
    + destruct (Hrow0 k v Hk) as [Hempty|Hb]; [by rewrite lookup_empty in Hempty|].
      eapply bool_var_extends; [by apply frame_extends|done].
    + by eapply Hrest.
Qed.

(** [add_resident_model] taken apart: the fresh rows of boolean
    variables, the table entry, the rule methods, the trauma balance. *)
Lemma add_resident_model_ok resident bf s s' :
  add_resident_model resident bf s = inr (tt, s') →
  ∃ fs rows s1 s2,
    bf = Some fs ∧ frame s s1 ∧ bool_rows (model s1) rows ∧
    for_each fs (λ func, func resident)
      (set_schedules (<[name resident := rows]> (schedules s1)) s1)
      = inr (tt, s2) ∧
    frame s2 s'.
Proof.
  intros H. unfold add_resident_model in H.
  apply bind_ok in H as (fs & s0 & H0 & H). inv_run H0.
  apply of_option_ok in Hlift.
  apply bind_ok in H as (ds & s0' & H0 & H). inv_run H0.
  apply bind_ok in H as (rows & s1 & Hrows & H).
  apply collect_rows_bool_vars in Hrows as [Hfr Hb].
  apply bind_ok in H as ([] & s1' & H1 & H). inv_run H1.
  apply bind_ok in H as ([] & s2 & Hfs & H).
  apply bind_ok in H as (cls & s2' & H2 & H). inv_run H2.
  exists fs, rows, s1, s2. split_and!; try done.
  destruct (on_trauma resident && bool_decide (classification s2 = "junior")).
  - by eapply frame_balance_trauma_call.
  - inv_run H. done.
Qed.

Lemma frame_build_functions cls fs func resident :
  select_build_functions cls = Some fs → func ∈ fs →
  preserves frame (func resident).
Proof.
  unfold select_build_functions. intros H Hf.
  repeat case_bool_decide; simplify_eq.
  - by apply frame_junior_build_functions.
  - by apply frame_senior_build_functions.
Qed.

Lemma add_resident_model_table cls resident s s' :
  add_resident_model resident (select_build_functions cls) s = inr (tt, s') →
  ∃ fs rows s1 s2,
    select_build_functions cls = Some fs ∧
    extends s s1 ∧
    schedules s1 = <[name resident := rows]> (schedules s) ∧
    for_each fs (λ func, func resident) s1 = inr (tt, s2) ∧
    frame s1 s2 ∧ frame s2 s' ∧ bool_rows (model s') rows.
Proof.
  intros H. apply add_resident_model_ok in H
    as (fs & rows & s1 & s2 & Hfs & [Hext Hsch] & Hb & Hloop & Hfr).
  assert (frame (set_schedules (<[name resident:=rows]> (schedules s1)) s1) s2)
    as Hfr2.
  { eapply preserves_for_each; [apply _| |done].
    intros func Hfunc. by eapply frame_build_functions. }
  exists fs, rows, (set_schedules (<[name resident:=rows]> (schedules s1)) s1), s2.
  split_and!; try done.
  - etrans; [done|]. apply extends_set_schedules.
  - simpl. by rewrite Hsch.
  - intros row k v Hrow Hk.
    eapply bool_var_extends; [|by eapply Hb].
    etrans; [apply extends_set_schedules|].
    etrans; by apply frame_extends.
Qed.

Lemma extends_add_resident_model cls resident :
  preserves extends (add_resident_model resident (select_build_functions cls)).
Proof.
  intros s [] s' H. apply add_resident_model_table in H
    as (fs & rows & s1 & s2 & _ & Hext & _ & _ & Hfr1 & Hfr2 & _).
  etrans; [done|]. etrans; by apply frame_extends.
Qed.

Lemma keeps_add_resident_model nm cls resident :
  name resident ≠ nm →
  preserves (keeps nm)
    (add_resident_model resident (select_build_functions cls)).
Proof.
  intros Hne s [] s' H. split; [by eapply extends_add_resident_model|].
  apply add_resident_model_table in H
    as (fs & rows & s1 & s2 & _ & _ & Hsch & _ & [_ E1] & [_ E2] & _).
  by rewrite E2, E1, Hsch, lookup_insert_ne.
Qed.

Lemma NoDup_fmap_elem_inj {A B} (f : A → B) (l : list A) x y :
  NoDup (f <$> l) → x ∈ l → y ∈ l → f x = f y → x = y.
Proof.
  induction l as [|z l IH]; intros Hnd Hx Hy Hf; [by apply elem_of_nil in Hx|].
  simpl in Hnd. apply NoDup_cons in Hnd as [Hz Hnd].
  apply elem_of_cons in Hx as [->|Hx]; apply elem_of_cons in Hy as [->|Hy].
  - done.
  - exfalso. apply Hz. rewrite Hf. apply list_elem_of_fmap. by exists y.
  - exfalso. apply Hz. rewrite <- Hf. apply list_elem_of_fmap. by exists x.
  - by apply IH.
Qed.

(** The last resident of a list that bears a given name. *)
Lemma last_named (l : list Resident) nm :
  nm ∈ name <$> l →
  ∃ l1 x l2, l = l1 ++ x :: l2 ∧ name x = nm ∧ nm ∉ name <$> l2.
Proof.
  induction l as [|y l IH]; intros Hr; [by apply elem_of_nil in Hr|].
  destruct (decide (nm ∈ name <$> l)) as [Hin|Hnin].
  - destruct (IH Hin) as (l1 & x & l2 & -> & Hx & Hl2).
    by exists (y :: l1), x, l2.
  - simpl in Hr. apply elem_of_cons in Hr as [->|Hr]; [|done].
    by exists [], y, l.
Qed.

(** [setup_model] taken apart: the loop over the residents, the
    coverage loop, the objective. *)
Lemma setup_model_ok s s' :
  setup_model s = inr (tt, s') →
  ∃ residents s1 s2,
    residents_info s = Some residents ∧
    for_each residents
      (λ resident, add_resident_model resident
                     (select_build_functions (classification s)))
      (set_penalties [] s) = inr (tt, s1) ∧
    for_each (days s1) (λ day,
      nf ← attr nofill;
      if py_in day nf then mret tt
      else
        sh ← gets shifts;
        for_each sh (λ shift,
          vs ← slot_vars day shift;
          Add (ExactlyOne (Pos <$> vs)))) s1 = inr (tt, s2) ∧
    frame s2 s'.
Proof.
  intros H. unfold setup_model in H.
  apply bind_ok in H as ([] & s0 & H0 & H). inv_run H0.
  apply bind_ok in H as (cls & s0 & H0 & H). inv_run H0.
  apply bind_ok in H as (residents & s0 & H0 & H). inv_run H0.
  apply bind_ok in H as ([] & s1 & H1 & H).
  apply bind_ok in H as (ds & s1' & H0 & H). inv_run H0.
  apply bind_ok in H as ([] & s2 & H2 & H).
  apply bind_ok in H as (ps & s2' & H0 & H). inv_run H0.
  exists residents, s1, s2. split_and!; try done.
  by eapply frame_Minimize.
Qed.

Lemma frame_slot_vars day shift : preserves frame (slot_vars day shift).
Proof. unfold slot_vars. frame_method. Qed.

Lemma frame_coverage_body day :
  preserves frame
    (nf ← attr nofill;
     if py_in day nf then mret tt
     else
       sh ← gets shifts;
       for_each sh (λ shift,
         vs ← slot_vars day shift;
         Add (ExactlyOne (Pos <$> vs)))).
Proof. frame_method. apply frame_slot_vars. Qed.

(** The compiled object extends the configured one, penalties reset. *)
Lemma setup_model_extends s s' :
  setup_model s = inr (tt, s') → extends (set_penalties [] s) s'.
Proof.
  intros H.
  apply setup_model_ok in H as (residents & s1 & s2 & _ & Hloop & Hcov & Hfin).
  etrans; [|by apply frame_extends].
  etrans.
  - eapply preserves_for_each; [apply _| |done].
    intros y _. apply extends_add_resident_model.
  - apply frame_extends. eapply preserves_for_each; [apply _| |done].
    intros day _. apply frame_coverage_body.
Qed.

(** Every resident's rules ran on the table entry that the compiled
    model keeps under the resident's name. *)
Lemma rule_applied s s' residents r :
  setup_model s = inr (tt, s') →
  residents_info s = Some residents → r ∈ residents →
  ∃ x fs rows,
    x ∈ residents ∧ name x = name r ∧
    (NoDup (name <$> residents) → x = r) ∧
    select_build_functions (classification s) = Some fs ∧
    schedules s' !! name r = Some rows ∧ bool_rows (model s') rows ∧
    ∀ func, func ∈ fs →
      ∃ s3 s4, func x s3 = inr (tt, s4) ∧
        extends (set_penalties [] s) s3 ∧ extends s4 s' ∧
        schedules s3 !! name r = Some rows.
Proof.
  intros H Hres Hr.
  apply setup_model_ok in H as (residents' & s1 & s2 & Hres' & Hloop & Hcov & Hfin).
  rewrite Hres in Hres'. injection Hres' as <-.
  assert (frame s1 s2) as Hfr12.
  { eapply preserves_for_each; [apply _| |done].
    intros day _. apply frame_coverage_body. }
  assert (frame s1 s') as Hfr1 by (by etrans).
  destruct (last_named residents (name r)) as (l1 & x & l2 & Hl & Hx & Hl2).
  { apply list_elem_of_fmap. by exists r. }
  assert (x ∈ residents) as Hxin.
  { rewrite Hl. apply elem_of_app. right. by left. }
  rewrite Hl in Hloop. apply for_each_app in Hloop as (sa & Ha & Hloop).
  simpl in Hloop. apply bind_ok in Hloop as ([] & sb & Hb & Hloop).
  assert (extends (set_penalties [] s) sa) as Hexta.
  { eapply preserves_for_each; [apply _| |done].
    intros y _. apply extends_add_resident_model. }
  assert (keeps (name r) sb s1) as [Hextb Hkeep].
  { eapply preserves_for_each; [apply _| |done].
    intros y Hy. apply keeps_add_resident_model. intros Hname.
    apply Hl2. rewrite <- Hname. apply list_elem_of_fmap. by exists y. }
  apply add_resident_model_table in Hb
    as (fs & rows & s3 & s4 & Hfs & Hext3 & Hsch & Hfsloop & Hfr34 & Hfr4b & Hrows).
  exists x, fs, rows. split_and!; try done.
  - intros Hnd. by eapply (NoDup_fmap_elem_inj name).
  - destruct Hfr1 as [_ ->]. rewrite Hkeep.
    destruct Hfr4b as [_ ->]. destruct Hfr34 as [_ ->].
    by rewrite Hsch, <- Hx, lookup_insert_eq.
  - intros row k v Hrow Hk. eapply bool_var_extends; [|by eapply Hrows].
    etrans; [done|]. by apply frame_extends.
  - intros func Hfunc.
    destruct (for_each_elem frame fs (λ f, f x) func s3 s4)
      as (s5 & s6 & Hfr5 & Hrun & Hfr6); [|done|done|].
    { intros f Hf. by eapply frame_build_functions. }
    exists s5, s6. split_and!; try done.
    + etrans; [done|]. etrans; [done|]. by apply frame_extends.
    + etrans; [by apply frame_extends|].
      etrans; [by apply frame_extends|].
      etrans; [done|]. by apply frame_extends.
    + destruct Hfr5 as [_ ->]. by rewrite Hsch, <- Hx, lookup_insert_eq.
Qed.

(** ** Solutions of a model *)

Lemma solution_ct m a c : solution m a → c ∈ cp_cts m → ct_holds a c.
Proof. intros [_ H] Hc. by eapply Forall_forall in H. Qed.

Lemma solution_body m a b :
  solution m a → Ct b [] ∈ cp_cts m → body_holds a b.
Proof. intros Hsol Hc. by apply (solution_ct _ _ _ Hsol Hc), Forall_nil. Qed.

Lemma solution_body_if m a b l :
  solution m a → Ct b [l] ∈ cp_cts m → lit_holds a l → body_holds a b.
Proof.
  intros Hsol Hc Hl. apply (solution_ct _ _ _ Hsol Hc).
  simpl. by apply Forall_singleton.
Qed.

Lemma solution_domain m a v d :
  solution m a → cp_vars m !! v = Some d → vd_lb d ≤ value a v ≤ vd_ub d.
Proof.
  intros [H _] Hv. destruct (Forall2_lookup_r _ _ _ _ _ H Hv) as (x & Hx & Hd).
  unfold value. by rewrite Hx.
Qed.

Lemma solution_bool m a v :
  solution m a → bool_var m v → value a v = 0 ∨ value a v = 1.
Proof.
  intros Hsol (d & Hd & Hlb & Hub).
  pose proof (solution_domain _ _ _ _ Hsol Hd). lia.
Qed.

Lemma count_true_pos a vs : count_true a (Pos <$> vs) = sum_values a vs.
Proof.
  unfold count_true, sum_values.
  induction vs as [|v vs IH]; simpl; [done|]. f_equal. apply IH.
Qed.

Lemma sum_values_zero a vs :
  (∀ v, v ∈ vs → 0 ≤ value a v) → sum_values a vs = 0 →
  ∀ v, v ∈ vs → value a v = 0.
Proof.
  induction vs as [|v vs IH]; intros Hnn Hsum w Hw; [by apply elem_of_nil in Hw|].
  simpl in Hsum.
  assert (0 ≤ sum_values a vs) as Hrest.
  { clear -Hnn. induction vs as [|u vs IH]; simpl; [done|].
    assert (0 ≤ value a u) by (apply Hnn; right; left).
    assert (0 ≤ sum_values a vs); [|lia].
    apply IH. intros z Hz. apply Hnn.
    apply elem_of_cons in Hz as [->|Hz]; [left|right; by right]. }
  assert (0 ≤ value a v) by (apply Hnn; left).
  apply elem_of_cons in Hw as [->|Hw]; [lia|].
  apply IH; [|lia|done]. intros z Hz. apply Hnn. by right.
Qed.

(** Among boolean values that sum to one, exactly one position is set. *)
Lemma sum_values_one a vs :
  (∀ v, v ∈ vs → value a v = 0 ∨ value a v = 1) → sum_values a vs = 1 →
  ∃ i, (∃ v, vs !! i = Some v ∧ value a v = 1) ∧
       ∀ j v, vs !! j = Some v → value a v = 1 → j = i.
Proof.
  induction vs as [|v vs IH]; intros Hb Hsum; simpl in Hsum; [lia|].
  destruct (Hb v) as [Hv|Hv]; [left| |].
  - destruct IH as (i & (w & Hw & Hw1) & Huniq); [|lia|].
    { intros z Hz. apply Hb. by right. }
    exists (S i). split; [by exists w|].
    intros [|j] u Hj Hu; simpl in Hj.
    + injection Hj as <-. lia.
    + f_equal. by eapply Huniq.
  - exists 0%nat. split; [by exists v|].
    intros [|j] u Hj Hu; [done|]. simpl in Hj.
    assert (value a u = 0); [|lia].
    eapply (sum_values_zero a vs); [| |by eapply list_elem_of_lookup_2].
    + intros z Hz. destruct (Hb z); [by right|lia|lia].
    + lia.
Qed.

(** ** Reading the table *)

Lemma py_index_elem {A} (l : list A) i x : py_index l i = Ok x → x ∈ l.
Proof.
  unfold py_index. case_decide; [|done]. intros Hx.
  apply of_option_ok in Hx. by eapply list_elem_of_lookup_2.
Qed.

Lemma schedule_lookup_bool m sch nm rows day shift v :
  sch !! nm = Some rows → bool_rows m rows →
  schedule_lookup sch nm day shift = Ok v → bool_var m v.
Proof.
  intros Hnm Hb H. unfold schedule_lookup in H. rewrite Hnm in H. simpl in H.
  apply res_bind_ok in H as (row & Hrow & H). apply of_option_ok in H.
  eapply Hb; [by eapply py_index_elem|done].
Qed.

(** A comprehension whose element only reads the object. *)
Lemma collect_reads {A B} (l : list A) (c : A → M B)
    (g : A → Solver → result B) :
  (∀ x s b s', c x s = inr (b, s') → g x s = Ok b ∧ s' = s) →
  ∀ s ys s', collect l c s = inr (ys, s') →
    Forall2 (λ x y, g x s = Ok y) l ys ∧ s' = s.
Proof.
  intros Hc. induction l as [|x l IH]; intros s ys s' H; simpl in H.
  - inv_run H. by split; [constructor|].
  - apply bind_ok in H as (y & s1 & H1 & H).
    apply bind_ok in H as (rest & s2 & H2 & H). inv_run H.
    apply Hc in H1 as [H1 ->]. apply IH in H2 as [H2 ->].
    by split; [constructor|].
Qed.

Lemma slot_vars_ok day shift s vs s' :
  slot_vars day shift s = inr (vs, s') →
  ∃ residents, residents_info s = Some residents ∧ s' = s ∧
    Forall2 (λ r v, schedule_lookup (schedules s) (name r) day shift = Ok v)
      residents vs.
Proof.
  unfold slot_vars. intros H. apply bind_ok in H as (residents & s0 & H0 & H).
  inv_run H0. exists residents. split; [done|].
  apply (collect_reads _ _
    (λ r s, schedule_lookup (schedules s) (name r) day shift)) in H as [H ->].
  - done.
  - intros r s1 v s2 Hr. by apply schedule_var_ok in Hr.
Qed.

(** * The claims *)

(** ** Coverage *)

(** The coverage loop emits, for a day outside the no-fill list and a
    shift, the exactly-one constraint over the residents' variables. *)
Lemma coverage_emitted s s' residents nf day shift :
  setup_model s = inr (tt, s') →
  residents_info s = Some residents → nofill s = Some nf →
  day ∈ days s → day ∉ nf → shift ∈ shifts s →
  ∃ vs,
    Forall2 (λ r v, schedule_lookup (schedules s') (name r) day shift = Ok v)
      residents vs ∧
    Ct (ExactlyOne (Pos <$> vs)) [] ∈ cp_cts (model s').
Proof.
  intros H Hres Hnf Hday Hfill Hshift.
  apply setup_model_ok in H as (residents' & s1 & s2 & Hres' & Hloop & Hcov & Hfin).
  assert (extends (set_penalties [] s) s1) as Hext1.
  { eapply preserves_for_each; [apply _| |done].
    intros y _. apply extends_add_resident_model. }
  destruct (for_each_elem frame _ _ day _ _
              (λ y _, frame_coverage_body y) Hcov)
    as (sx & sy & Hfrx & Hbody & Hfry).
  { by rewrite (ext_days _ _ Hext1). }
  apply bind_ok in Hbody as (nf' & sx' & Hn & Hbody). inv_run Hn.
  assert (nf' = nf) as ->.
  { destruct Hfrx as [Hx _]. rewrite (ext_nofill _ _ Hx) in Hattr.
    rewrite (ext_nofill _ _ Hext1) in Hattr. simpl in Hattr. congruence. }
  unfold py_in in Hbody. rewrite bool_decide_eq_false_2 in Hbody by done.
  apply bind_ok in Hbody as (sh & sx' & Hs & Hbody). inv_run Hs.
  destruct (for_each_elem frame (shifts sx)
              (λ shift, vs ← slot_vars day shift; Add (ExactlyOne (Pos <$> vs)))
              shift sx sy) as (sz & sw & Hfrz & Hrun & Hfrw); [|done| |].
  { intros y _. frame_method. apply frame_slot_vars. }
  { destruct Hfrx as [Hx _]. rewrite (ext_shifts _ _ Hx).
    by rewrite (ext_shifts _ _ Hext1). }
  apply bind_ok in Hrun as (vs & sz' & Hvs & Hadd).
  apply slot_vars_ok in Hvs as (residents'' & Hres'' & -> & Hvs).
  apply Add_ok in Hadd. subst sw.
  assert (frame sz s') as [Hextz Hschz].
  { etrans; [|done]. etrans; [|done].
    etrans; [|done]. apply frame_set_model_ct. }
  assert (residents'' = residents) as ->.
  { destruct Hfrz as [Hz _]. destruct Hfrx as [Hx _].
    rewrite (ext_residents_info _ _ Hz), (ext_residents_info _ _ Hx) in Hres''.
    rewrite (ext_residents_info _ _ Hext1) in Hres''. simpl in Hres''.
    congruence. }
  exists vs. split.
  - by rewrite Hschz.
  - eapply extends_ct; [|apply added_ct_elem].
    etrans; [by apply frame_extends|].
    etrans; [by apply frame_extends|]. by apply frame_extends.
Qed.

(** C1. For every day of the horizon that is not a no-fill day and every
    shift label, the compiled model contains an exactly-one constraint
    over the assignment variables of all configured residents for that
    day and shift, and so in every solution exactly one resident of the
    list works that shift on that day. *)
Theorem coverage_exactly_one s s' residents nf day shift :
  setup_model s = inr (tt, s') →
  residents_info s = Some residents → nofill s = Some nf →
  day ∈ days s → day ∉ nf → shift ∈ shifts s →
  ∃ vs,
    Forall2 (λ r v, schedule_lookup (schedules s') (name r) day shift = Ok v)
      residents vs ∧
    Ct (ExactlyOne (Pos <$> vs)) [] ∈ cp_cts (model s') ∧
    ∀ a, solution (model s') a →
      ∃ i, (∃ r, residents !! i = Some r ∧ works s' a r day shift) ∧
           ∀ j r, residents !! j = Some r → works s' a r day shift → j = i.
Proof.
  intros H Hres Hnf Hday Hfill Hshift.
  destruct (coverage_emitted s s' residents nf day shift)
    as (vs & Hvs & Hct); try done.
  exists vs. split_and!; try done.
  intros a Hsol.
  pose proof (solution_body _ _ _ Hsol Hct) as Hone. simpl in Hone.
  rewrite count_true_pos in Hone.
  destruct (sum_values_one a vs) as (i & (v & Hv & Hv1) & Huniq); [|done|].
  { intros v Hv. eapply solution_bool; [done|].
    apply list_elem_of_lookup in Hv as [i Hi].
    destruct (Forall2_lookup_r _ _ _ _ _ Hvs Hi) as (r & Hr & Hlook).
    destruct (rule_applied s s' residents r)
      as (_ & _ & rows & _ & _ & _ & _ & Hrows & Hb & _); try done.
    { by eapply list_elem_of_lookup_2. }
    by eapply schedule_lookup_bool. }
  exists i. split.
  - destruct (Forall2_lookup_r _ _ _ _ _ Hvs Hv) as (r & Hr & Hlook).
    exists r. split; [done|]. by exists v.
  - intros j r Hr (w & Hw & Hw1).
    destruct (Forall2_lookup_l _ _ _ _ _ Hvs Hr) as (w' & Hw' & Hlook).
    rewrite Hlook in Hw. injection Hw as ->. by eapply Huniq.
Qed.

(** ** Day call is reserved to the trauma rotation (junior rule set) *)

Lemma trauma_day_call_emits x s3 s4 day :
  trauma_day_call x s3 = inr (tt, s4) →
  on_trauma x = false → day ∈ working_days s3 →
  ∃ f v, py_first (shifts s3) = Ok f ∧
    schedule_lookup (schedules s3) (name x) day f = Ok v ∧
    Ct (lin_rel v Req 0) [] ∈ cp_cts (model s4).
Proof.
  intros H Htr Hday. unfold trauma_day_call in H. rewrite Htr in H. simpl in H.
  apply bind_ok in H as (wd & s0 & H0 & H). inv_run H0.
  loop_elem H day as (sx & sy & [Hx Hsx] & Hrun & Hfry); [done|].
  apply bind_ok in Hrun as (f & s0 & H0 & Hrun).
  apply first_shift_ok in H0 as [Hf ->].
  apply bind_ok in Hrun as (v & s0 & H0 & Hrun).
  apply schedule_var_ok in H0 as [Hv ->].
  apply Add_ok in Hrun. subst sy.
  exists f, v. rewrite <- (ext_shifts _ _ Hx), <- Hsx. split_and!; try done.
  eapply extends_ct; [by apply frame_extends|apply added_ct_elem].
Qed.

Lemma select_junior cls :
  cls = "junior" → select_build_functions cls = Some junior_build_functions.
Proof. intros ->. done. Qed.

Lemma lin_rel_eq_holds a v k :
  body_holds a (lin_rel v Req k) ↔ value a v = k.
Proof.
  unfold lin_rel, lin_var, lin_int. simpl.
  unfold lin_value, sum_values. simpl. lia.
Qed.

(** C3, as the code has it.  Under the junior rule set and with distinct
    resident names, for every resident who is not on the trauma rotation
    and every working day, the compiled model contains the constraint
    that sets the resident's variable for the first shift of that day to
    0; no solution has such a resident working the first shift of a
    working day. *)
Theorem day_call_reserved_junior s s' residents r day :
  setup_model s = inr (tt, s') →
  classification s = "junior" →
  residents_info s = Some residents → NoDup (name <$> residents) →
  r ∈ residents → on_trauma r = false → day ∈ working_days s →
  ∃ f v, py_first (shifts s) = Ok f ∧
    schedule_lookup (schedules s') (name r) day f = Ok v ∧
    Ct (lin_rel v Req 0) [] ∈ cp_cts (model s') ∧
    ∀ a, solution (model s') a → value a v = 0 ∧ ¬ works s' a r day f.
Proof.
  intros H Hcls Hres Hnd Hr Htr Hday.
  destruct (rule_applied s s' residents r)
    as (x & fs & rows & _ & _ & Hx & Hfs & Hrows & _ & Hrule); try done.
  specialize (Hx Hnd). subst x.
  rewrite (select_junior _ Hcls) in Hfs. injection Hfs as <-.
  destruct (Hrule trauma_day_call) as (s3 & s4 & Hrun & Hext3 & Hext4 & Hsch).
  { unfold junior_build_functions. set_solver. }
  apply trauma_day_call_emits with (day := day) in Hrun
    as (f & v & Hf & Hv & Hct); [|done|].
  2:{ by rewrite (ext_working_days _ _ Hext3). }
  rewrite (ext_shifts _ _ Hext3) in Hf. simpl in Hf.
  assert (schedule_lookup (schedules s') (name r) day f = Ok v) as Hv'.
  { rewrite <- Hv. apply schedule_lookup_entry. by rewrite Hrows, Hsch. }
  assert (Ct (lin_rel v Req 0) [] ∈ cp_cts (model s')) as Hct'
    by (by eapply extends_ct).
  exists f, v. split_and!; try done.
  intros a Hsol.
  assert (value a v = 0) as Hzero.
  { apply lin_rel_eq_holds. by eapply solution_body. }
  split; [done|]. intros (w & Hw & Hw1).
  rewrite Hv' in Hw. injection Hw as <-. lia.
Qed.

(** ** Post-call days *)

Lemma post_call_days_emits ignore x s3 s4 D shift :
  post_call_days ignore x s3 = inr (tt, s4) →
  0 ≤ D → D + 1 < num_days s3 → Some (D `mod` 7) ≠ ignore →
  shift ∈ shifts s3 →
  ∃ l va vb, py_last (shifts s3) = Ok l ∧
    schedule_lookup (schedules s3) (name x) D l = Ok va ∧
    schedule_lookup (schedules s3) (name x) (D + 1) shift = Ok vb ∧
    Ct (AtMostOne [Pos va; Pos vb]) [] ∈ cp_cts (model s4).
Proof.
  intros H HD0 HD1 Hign Hshift. unfold post_call_days in H.
  apply bind_ok in H as (n & s0 & H0 & H). inv_run H0.
  loop_elem H D as (sx & sy & [Hx Hsx] & Hrun & Hfry).
  { unfold py_range. apply elem_of_seqZ. lia. }
  rewrite bool_decide_eq_true_2 in Hrun by done.
  apply bind_ok in Hrun as (sh & s0 & H0 & Hrun). inv_run H0.
  loop_elem Hrun shift as (sz & sw & [Hz Hsz] & Hrun' & Hfrw).
  { by rewrite (ext_shifts _ _ Hx). }
  apply bind_ok in Hrun' as (l & s0 & H0 & Hrun').
  apply last_shift_ok in H0 as [Hl ->].
  apply bind_ok in Hrun' as (va & s0 & H0 & Hrun').
  apply schedule_var_ok in H0 as [Hva ->].
  apply bind_ok in Hrun' as (vb & s0 & H0 & Hrun').
  apply schedule_var_ok in H0 as [Hvb ->].
  apply Add_ok in Hrun'. subst sw.
  exists l, va, vb.
  rewrite <- (ext_shifts _ _ Hx), <- (ext_shifts _ _ Hz), <- Hsx, <- Hsz.
  split_and!; try done.
  eapply extends_ct; [|apply added_ct_elem].
  etrans; by apply frame_extends.
Qed.

Lemma post_call_days_selected cls fs :
  select_build_functions cls = Some fs →
  post_call_days (ignored_weekday cls) ∈ fs.
Proof.
  unfold select_build_functions, ignored_weekday. intros H.
  repeat case_bool_decide; simplify_eq.
  - unfold junior_build_functions. set_solver.
  - unfold senior_build_functions. set_solver.
Qed.

(** C4. For every resident and every day D whose successor lies in the
    horizon and whose weekday is not the ignored one (none for juniors,
    Friday for seniors), the compiled model contains, for every shift,
    the at-most-one constraint over the last shift of D and that shift of
    D+1; no solution has the resident working both. *)
Theorem post_call_at_most_one s s' residents r D shift :
  setup_model s = inr (tt, s') →
  residents_info s = Some residents → r ∈ residents →
  0 ≤ D → D + 1 < num_days s →
  Some (D `mod` 7) ≠ ignored_weekday (classification s) →
  shift ∈ shifts s →
  ∃ l va vb, py_last (shifts s) = Ok l ∧
    schedule_lookup (schedules s') (name r) D l = Ok va ∧
    schedule_lookup (schedules s') (name r) (D + 1) shift = Ok vb ∧
    Ct (AtMostOne [Pos va; Pos vb]) [] ∈ cp_cts (model s') ∧
    ∀ a, solution (model s') a →
      ¬ (works s' a r D l ∧ works s' a r (D + 1) shift).
Proof.
  intros H Hres Hr HD0 HD1 Hign Hshift.
  destruct (rule_applied s s' residents r)
    as (x & fs & rows & _ & Hname & _ & Hfs & Hrows & _ & Hrule); try done.
  destruct (Hrule _ (post_call_days_selected _ _ Hfs))
    as (s3 & s4 & Hrun & Hext3 & Hext4 & Hsch).
  apply post_call_days_emits with (D := D) (shift := shift) in Hrun
    as (l & va & vb & Hl & Hva & Hvb & Hct); try done.
  2:{ by rewrite (ext_num_days _ _ Hext3). }
  2:{ by rewrite (ext_shifts _ _ Hext3). }
  rewrite (ext_shifts _ _ Hext3) in Hl. simpl in Hl. rewrite Hname in Hva, Hvb.
  assert (∀ d sh, schedule_lookup (schedules s') (name r) d sh
                  = schedule_lookup (schedules s3) (name r) d sh) as Hsame.
  { intros d sh. apply schedule_lookup_entry. by rewrite Hrows, Hsch. }
  assert (Ct (AtMostOne [Pos va; Pos vb]) [] ∈ cp_cts (model s')) as Hct'
    by (by eapply extends_ct).
  exists l, va, vb. rewrite !Hsame. split_and!; try done.
  intros a Hsol [(wa & Hwa & Ha1) (wb & Hwb & Hb1)].
  rewrite Hsame in Hwa, Hwb. rewrite Hva in Hwa. rewrite Hvb in Hwb.
  injection Hwa as <-. injection Hwb as <-.
  pose proof (solution_body _ _ _ Hsol Hct') as Hamo. simpl in Hamo. lia.
Qed.

(** ** Friday implications *)

Lemma implication_rule_emits first gap x s3 s4 day shift :
  implication_rule first gap x s3 = inr (tt, s4) →
  day ∈ days s3 → day `mod` 7 = first → shift ∈ shifts s3 →
  ∃ l va vb, py_last (shifts s3) = Ok l ∧
    schedule_lookup (schedules s3) (name x) day l = Ok va ∧
    schedule_lookup (schedules s3) (name x) (day + gap) shift = Ok vb ∧
    Ct (Implication (Pos va) (Pos vb)) [] ∈ cp_cts (model s4).
Proof.
  intros H Hday Hfirst Hshift. unfold implication_rule in H.
  apply bind_ok in H as (ds & s0 & H0 & H). inv_run H0.
  loop_elem H day as (sx & sy & [Hx Hsx] & Hrun & Hfry); [done|].
  rewrite decide_True in Hrun by done.
  apply bind_ok in Hrun as (sh & s0 & H0 & Hrun). inv_run H0.
  loop_elem Hrun shift as (sz & sw & [Hz Hsz] & Hrun' & Hfrw).
  { by rewrite (ext_shifts _ _ Hx). }
  apply bind_ok in Hrun' as (l & s0 & H0 & Hrun').
  apply last_shift_ok in H0 as [Hl ->].
  apply bind_ok in Hrun' as (va & s0 & H0 & Hrun').
  apply schedule_var_ok in H0 as [Hva ->].
  apply bind_ok in Hrun' as (vb & s0 & H0 & Hrun').
  apply schedule_var_ok in H0 as [Hvb ->].
  apply Add_ok in Hrun'. subst sw.
  exists l, va, vb.
  rewrite <- (ext_shifts _ _ Hx), <- (ext_shifts _ _ Hz), <- Hsx, <- Hsz.
  split_and!; try done.
  eapply extends_ct; [|apply added_ct_elem].
  etrans; by apply frame_extends.
Qed.

Lemma friday_rule_selected cls fs :
  select_build_functions cls = Some fs →
  implication_rule Weekday.FRIDAY (friday_gap cls) ∈ fs.
Proof.
  unfold select_build_functions, friday_gap. intros H.
  repeat case_bool_decide; simplify_eq.
  - unfold junior_build_functions, friday_implies_sunday. in_list.
  - unfold senior_build_functions, friday_implies_saturday. in_list.
Qed.

(** What the Friday rules give when the model does compile: for every
    resident, every Friday of the horizon and every shift, the last
    shift of the Friday implies that shift of the later day. *)
Lemma friday_implication_compiled s s' residents r day shift :
  setup_model s = inr (tt, s') →
  residents_info s = Some residents → r ∈ residents →
  day ∈ days s → day `mod` 7 = Weekday.FRIDAY → shift ∈ shifts s →
  ∃ l va vb, py_last (shifts s) = Ok l ∧
    schedule_lookup (schedules s') (name r) day l = Ok va ∧
    schedule_lookup (schedules s') (name r)
      (day + friday_gap (classification s)) shift = Ok vb ∧
    Ct (Implication (Pos va) (Pos vb)) [] ∈ cp_cts (model s') ∧
    ∀ a, solution (model s') a →
      works s' a r day l →
      works s' a r (day + friday_gap (classification s)) shift.
Proof.
  intros H Hres Hr Hday Hfri Hshift.
  destruct (rule_applied s s' residents r)
    as (x & fs & rows & _ & Hname & _ & Hfs & Hrows & _ & Hrule); try done.
  destruct (Hrule _ (friday_rule_selected _ _ Hfs))
    as (s3 & s4 & Hrun & Hext3 & Hext4 & Hsch).
  apply implication_rule_emits with (day := day) (shift := shift) in Hrun
    as (l & va & vb & Hl & Hva & Hvb & Hct); try done.
  2:{ by rewrite (ext_days _ _ Hext3). }
  2:{ by rewrite (ext_shifts _ _ Hext3). }
  rewrite (ext_shifts _ _ Hext3) in Hl. simpl in Hl. rewrite Hname in Hva, Hvb.
  assert (∀ d sh, schedule_lookup (schedules s') (name r) d sh
                  = schedule_lookup (schedules s3) (name r) d sh) as Hsame.
  { intros d sh. apply schedule_lookup_entry. by rewrite Hrows, Hsch. }
  assert (Ct (Implication (Pos va) (Pos vb)) [] ∈ cp_cts (model s')) as Hct'
    by (by eapply extends_ct).
  exists l, va, vb. rewrite !Hsame. split_and!; try done.
  intros a Hsol (wa & Hwa & Ha1).
  rewrite Hsame in Hwa. rewrite Hva in Hwa. injection Hwa as <-.
  exists vb. rewrite Hsame. split; [done|].
  by apply (solution_body _ _ _ Hsol Hct').
Qed.

(** ** The bounded-with-penalty primitive *)

Lemma penalties_append_ok v s u s' :
  penalties_append v s = inr (u, s') ↔
  is_Some (penalties s) ∧ s' = set_penalties (penalty_list s ++ [v]) s.
Proof.
  unfold penalties_append. rewrite bind_ok. split.
  - intros (ps & s0 & H0 & H). apply attr_ok in H0 as [Hps ->].
    apply modify_ok in H. rewrite Hps. by split.
  - intros [[ps Hps] ->]. exists ps, s. split.
    + by apply attr_ok.
    + destruct u. apply modify_ok. by rewrite Hps.
Qed.

(** [inv_run], extended to the steps that write to the model. *)
Ltac inv_build H :=
  lazymatch type of H with
  | (_ ≫= _) _ = inr _ =>
      let a := fresh "x" in
      let s := fresh "s" in
      let H1 := fresh "Hc" in
      let H2 := fresh "Hk" in
      apply bind_ok in H; destruct H as (a & s & H1 & H2);
      inv_build H1; inv_build H2
  | NewIntVar _ _ _ _ = inr _ =>
      apply NewIntVar_ok in H; destruct H as [? ?]; subst
  | NewBoolVar _ _ = inr _ =>
      apply NewIntVar_ok in H; destruct H as [? ?]; subst
  | Add _ _ = inr _ => apply Add_ok in H; subst
  | AddIf _ _ _ = inr _ => apply AddIf_ok in H; subst
  | penalties_append _ _ = inr _ =>
      let E := fresh "Hpen" in
      apply penalties_append_ok in H; destruct H as [E ?]; subst
  | _ => inv_run H
  end.

Lemma strictly_bounded_unfold resident calculation lower_bound upper_bound
    bounded_descriptor :
  strictly_bounded resident calculation lower_bound upper_bound
    bounded_descriptor =
  (ds ← gets days;
   shifts_taken ←
     NewIntVar 0 (len ds) (bounded_descriptor +:+ "_taken_" +:+ name resident);
   lower_bound_reached ←
     NewBoolVar (bounded_descriptor +:+ "_lower_bound_" +:+ name resident);
   upper_bound_reached ←
     NewBoolVar (bounded_descriptor +:+ "_upper_bound_" +:+ name resident);
   Add (Linear (lin_var shifts_taken) Req calculation) ;;
   Add (lin_rel shifts_taken Rge lower_bound) ;;
   Add (lin_rel shifts_taken Rle upper_bound) ;;
   AddIf (lin_rel shifts_taken Req lower_bound) (Pos lower_bound_reached) ;;
   AddIf (lin_rel shifts_taken Req upper_bound) (Pos upper_bound_reached) ;;
   AddIf (lin_rel shifts_taken Rne lower_bound) (Neg lower_bound_reached) ;;
   AddIf (lin_rel shifts_taken Rne upper_bound) (Neg upper_bound_reached) ;;
   penalties_append lower_bound_reached ;;
   penalties_append upper_bound_reached).
Proof. reflexivity. Qed.

(** What one call of [strictly_bounded] appends to the model and to the
    penalty list: three variables, seven constraints, two penalties. *)
Lemma strictly_bounded_ok resident calculation lo up descr s s' :
  strictly_bounded resident calculation lo up descr s = inr (tt, s') →
  let taken := length (cp_vars (model s)) in
  let lower_flag := S taken in
  let upper_flag := S (S taken) in
  frame s s' ∧
  cp_vars (model s') = cp_vars (model s) ++ [
    VarDecl (descr +:+ "_taken_" +:+ name resident) 0 (len (days s));
    VarDecl (descr +:+ "_lower_bound_" +:+ name resident) 0 1;
    VarDecl (descr +:+ "_upper_bound_" +:+ name resident) 0 1] ∧
  cp_cts (model s') = cp_cts (model s) ++ [
    Ct (Linear (lin_var taken) Req calculation) [];
    Ct (lin_rel taken Rge lo) [];
    Ct (lin_rel taken Rle up) [];
    Ct (lin_rel taken Req lo) [Pos lower_flag];
    Ct (lin_rel taken Req up) [Pos upper_flag];
    Ct (lin_rel taken Rne lo) [Neg lower_flag];
    Ct (lin_rel taken Rne up) [Neg upper_flag]] ∧
  is_Some (penalties s) ∧
  penalties s' = Some (penalty_list s ++ [lower_flag; upper_flag]).
Proof.
  intros H. split; [by eapply frame_strictly_bounded|].
  rewrite strictly_bounded_unfold in H. inv_build H. clear Hpen0. simpl in Hpen. simpl.
  rewrite !length_app. simpl.
  rewrite <- !(assoc_L (++)). simpl.
  by rewrite !Nat.add_1_r.
Qed.


(** The soundness of the primitive, in any model that keeps what the
    call appended. *)
Lemma strictly_bounded_sound resident E L U descr s s' s'' :
  strictly_bounded resident E L U descr s = inr (tt, s') →
  extends s' s'' →
  ∃ lower_flag upper_flag rest,
    penalty_list s' = penalty_list s ++ [lower_flag; upper_flag] ∧
    penalty_list s'' = penalty_list s ++ lower_flag :: upper_flag :: rest ∧
    ∀ a, solution (model s'') a →
      L ≤ lin_value a E ≤ U ∧
      0 ≤ lin_value a E ≤ len (days s) ∧
      (value a lower_flag = 0 ∨ value a lower_flag = 1) ∧
      (value a upper_flag = 0 ∨ value a upper_flag = 1) ∧
      (value a lower_flag = 1 ↔ lin_value a E = L) ∧
      (value a upper_flag = 1 ↔ lin_value a E = U).
Proof.
  intros H Hext.
  apply strictly_bounded_ok in H as (Hfr & Hvars & Hcts & _ & Hpen).
  set (taken := length (cp_vars (model s))) in *.
  destruct (ext_penalties _ _ Hext) as [rest Hrest].
  rewrite Hpen in Hrest. simpl in Hrest.
  exists (S taken), (S (S taken)), rest. split; [by rewrite Hpen|].
  split. { by rewrite Hrest, <- (assoc_L (++)). }
  intros a Hsol.
  assert (∀ c, c ∈ [
      Ct (Linear (lin_var taken) Req E) [];
      Ct (lin_rel taken Rge L) [];
      Ct (lin_rel taken Rle U) [];
      Ct (lin_rel taken Req L) [Pos (S taken)];
      Ct (lin_rel taken Req U) [Pos (S (S taken))];
      Ct (lin_rel taken Rne L) [Neg (S taken)];
      Ct (lin_rel taken Rne U) [Neg (S (S taken))]] →
      ct_holds a c) as Hall.
  { intros c Hc. eapply solution_ct; [done|].
    eapply elem_of_prefix; [|apply (ext_cts _ _ Hext)].
    rewrite Hcts. apply elem_of_app. by right. }
  assert (∀ i d, [
      VarDecl (descr +:+ "_taken_" +:+ name resident) 0 (len (days s));
      VarDecl (descr +:+ "_lower_bound_" +:+ name resident) 0 1;
      VarDecl (descr +:+ "_upper_bound_" +:+ name resident) 0 1] !! i
        = Some d → vd_lb d ≤ value a (taken + i)%nat ≤ vd_ub d) as Hdom.
  { intros i d Hi. eapply solution_domain; [done|].
    eapply prefix_lookup_Some; [|apply (ext_vars _ _ Hext)].
    rewrite Hvars. by rewrite lookup_app_r, Nat.add_comm, Nat.add_sub by lia. }
  pose proof (Hdom 0%nat _ eq_refl) as Ht.
  pose proof (Hdom 1%nat _ eq_refl) as Hl.
  pose proof (Hdom 2%nat _ eq_refl) as Hu.
  rewrite Nat.add_0_r in Ht. rewrite Nat.add_1_r in Hl.
  replace (taken + 2)%nat with (S (S taken)) in Hu by lia.
  simpl in Ht, Hl, Hu.
  assert (value a taken = lin_value a E) as Heq.
  { assert (ct_holds a (Ct (Linear (lin_var taken) Req E) [])) as Hc
      by (apply Hall; left).
    specialize (Hc (Forall_nil_2 _)). simpl in Hc.
    unfold lin_var, lin_value, sum_values in Hc. simpl in Hc.
    unfold lin_value, sum_values. lia. }
  assert (∀ op k ls, Ct (lin_rel taken op k) ls ∈ [
      Ct (Linear (lin_var taken) Req E) [];
      Ct (lin_rel taken Rge L) [];
      Ct (lin_rel taken Rle U) [];
      Ct (lin_rel taken Req L) [Pos (S taken)];
      Ct (lin_rel taken Req U) [Pos (S (S taken))];
      Ct (lin_rel taken Rne L) [Neg (S taken)];
      Ct (lin_rel taken Rne U) [Neg (S (S taken))]] →
      Forall (lit_holds a) ls → rel_holds op (lin_value a E) k) as Hrel.
  { intros op k ls Hin Hls. specialize (Hall _ Hin Hls). simpl in Hall.
    unfold lin_value, sum_values in Hall. simpl in Hall.
    rewrite <- Heq. by replace (value a taken + 0 + 0) with (value a taken)
      in Hall by lia. }
  pose proof (Hrel Rge L [] ltac:(in_list) (Forall_nil_2 _)) as HL.
  pose proof (Hrel Rle U [] ltac:(in_list) (Forall_nil_2 _)) as HU.
  pose proof (Hrel Req L [Pos (S taken)] ltac:(in_list)) as HLt.
  pose proof (Hrel Req U [Pos (S (S taken))] ltac:(in_list)) as HUt.
  pose proof (Hrel Rne L [Neg (S taken)] ltac:(in_list)) as HLf.
  pose proof (Hrel Rne U [Neg (S (S taken))] ltac:(in_list)) as HUf.
  rewrite Forall_singleton in HLt, HUt, HLf, HUf.
  unfold lit_holds in *. simpl in *.
  split_and!; lia.
Qed.

(** The objective that [setup_model] leaves is the sum of the penalty
    list. *)
Lemma setup_model_objective s s' :
  setup_model s = inr (tt, s') →
  cp_objective (model s') = Some (penalty_list s').
Proof.
  intros H. unfold setup_model in H.
  apply bind_ok in H as ([] & s0 & H0 & H). inv_run H0.
  apply bind_ok in H as (cls & s0 & H0 & H). inv_run H0.
  apply bind_ok in H as (residents & s0 & H0 & H). inv_run H0.
  apply bind_ok in H as ([] & s1 & H1 & H).
  apply bind_ok in H as (ds & s1' & H0 & H). inv_run H0.
  apply bind_ok in H as ([] & s2 & H2 & H).
  apply bind_ok in H as (ps & s2' & H0 & H).
  apply attr_ok in H0 as [Hps ->].
  unfold Minimize in H. inv_run H. simpl. by rewrite Hps.
Qed.


(** ** Shift expectations *)

Lemma expected_night_shifts_ok r s e s' :
  expected_night_shifts r s = inr (e, s') →
  s' = s ∧
  (∀ z, days_override r = Some z → z ≠ 0 → e = PInt z) ∧
  (days_override r = None →
   ∃ ratio a m,
     call_ratio s = Some ratio ∧
     float_of_int (len (days s) - len (on_vacation_days r)) = Ok a ∧
     float_of_int (if on_trauma r then trauma_shift_multiplier s else 1)
       = Ok m ∧
     e = PFloat (fmul (fmul a ratio) m)).
Proof.
  unfold expected_night_shifts. intros H.
  assert (∀ c : M pynum,
    c = (ds ← gets days;
         ratio ← attr call_ratio;
         a ← lift (float_of_int (len ds - len (on_vacation_days r)));
         k ← (if on_trauma r then gets trauma_shift_multiplier else mret 1);
         m ← lift (float_of_int k);
         mret (PFloat (fmul (fmul a ratio) m))) →
    c s = inr (e, s') →
    s' = s ∧
    ∃ ratio a m,
      call_ratio s = Some ratio ∧
      float_of_int (len (days s) - len (on_vacation_days r)) = Ok a ∧
      float_of_int (if on_trauma r then trauma_shift_multiplier s else 1)
        = Ok m ∧
      e = PFloat (fmul (fmul a ratio) m)) as Hcomputed.
  { intros c -> Hc.
    apply bind_ok in Hc as (ds & s0 & H0 & Hc). inv_run H0.
    apply bind_ok in Hc as (ratio & s0 & H0 & Hc). inv_run H0.
    apply bind_ok in Hc as (a & s0 & H0 & Hc). inv_run H0.
    apply bind_ok in Hc as (k & s0 & Hk & Hc).
    assert (k = (if on_trauma r then trauma_shift_multiplier s else 1)
            ∧ s0 = s) as [-> ->].
    { destruct (on_trauma r); inv_run Hk; done. }
    apply bind_ok in Hc as (m & s0 & H0 & Hc). inv_run H0. inv_run Hc.
    split; [done|]. by exists ratio, a, m. }
  destruct (days_override r) as [[|p|p]|] eqn:Hov.
  - destruct (Hcomputed _ eq_refl H) as [-> _].
    split; [done|]. split; [intros z [= <-] Hz; lia|done].
  - inv_run H. split; [done|]. split; [by intros z [= <-] _|done].
  - inv_run H. split; [done|]. split; [by intros z [= <-] _|done].
  - destruct (Hcomputed _ eq_refl H) as [-> Hex].
    split; [done|]. split; [done|]. by intros _.
Qed.

Lemma set_shift_expectations_total x s3 s4 :
  set_shift_expectations x s3 = inr (tt, s4) →
  ∃ e lo up vs sa,
    expected_night_shifts x s3 = inr (e, s3) ∧
    lower_of e = Ok lo ∧ upper_of e = Ok up ∧
    Forall2 (λ day v, last_shift_var s3 x day = Ok v) (days s3) vs ∧
    strictly_bounded x (lin_sum vs) lo up "total_shifts" s3 = inr (tt, sa) ∧
    extends sa s4.
Proof.
  intros H. unfold set_shift_expectations in H.
  apply bind_ok in H as (e & s0 & He & H).
  pose proof (expected_night_shifts_ok _ _ _ _ He) as [-> _].
  apply bind_ok in H as (lo' & s0 & H0 & H). inv_run H0.
  apply bind_ok in H as (lo & s0 & H0 & H). inv_run H0.
  apply bind_ok in H as (up' & s0 & H0 & H). inv_run H0.
  apply bind_ok in H as (up & s0 & H0 & H). inv_run H0.
  apply bind_ok in H as (ds & s0 & H0 & H). inv_run H0.
  apply bind_ok in H as (vs & s0 & Hvs & H).
  apply (collect_reads _ _ (λ day s, last_shift_var s x day)) in Hvs as [Hvs ->].
  2:{ intros day s1 v s2 Hrun. apply bind_ok in Hrun as (l & s5 & Hl & Hv).
      apply last_shift_ok in Hl as [Hl ->].
      apply schedule_var_ok in Hv as [Hv ->].
      split; [|done]. unfold last_shift_var. rewrite Hl. done. }
  apply bind_ok in H as ([] & sa & Hsb & H).
  exists e, lo, up, vs, sa. split_and!; try done.
  - unfold lower_of. apply res_bind_ok. by exists lo'.
  - unfold upper_of. apply res_bind_ok. by exists up'.
  - apply frame_extends.
    lazymatch type of H with
    | ?c _ = _ => assert (preserves frame c) as Hp
    end.
    { frame_method. apply frame_strictly_bounded. }
    by eapply Hp.
Qed.

Lemma set_shift_expectations_selected cls fs :
  select_build_functions cls = Some fs → set_shift_expectations ∈ fs.
Proof.
  unfold select_build_functions. intros H.
  repeat case_bool_decide; simplify_eq.
  - unfold junior_build_functions. in_list.
  - unfold senior_build_functions. in_list.
Qed.

Lemma last_shift_var_entry s s' r r' day :
  shifts s = shifts s' → name r = name r' →
  schedules s !! name r = schedules s' !! name r →
  last_shift_var s r day = last_shift_var s' r' day.
Proof.
  intros Hsh Hname Hsch. unfold last_shift_var. rewrite Hsh, <- Hname.
  destruct (py_last (shifts s')); simpl; [done|].
  by apply schedule_lookup_entry.
Qed.

(** C8, as the code has it.  With distinct resident names, the expected
    number of last shifts [e] of a resident is the manual override when
    one other than 0 is supplied, and
    (horizon days − vacation days) × call ratio × (trauma multiplier if
    on trauma, else 1), in floating point, when none is supplied; in
    every solution the resident's number of last shifts over the
    horizon lies between [int(e − 1)] and [int(e + 1)], the conversion
    truncating toward zero. *)
Theorem expected_last_shifts_window s s' residents r :
  setup_model s = inr (tt, s') →
  residents_info s = Some residents → NoDup (name <$> residents) →
  r ∈ residents →
  ∃ e lo up vs,
    (∀ z, days_override r = Some z → z ≠ 0 → e = PInt z) ∧
    (days_override r = None →
     ∃ ratio a m,
       call_ratio s = Some ratio ∧
       float_of_int (len (days s) - len (on_vacation_days r)) = Ok a ∧
       float_of_int (if on_trauma r then trauma_shift_multiplier s else 1)
         = Ok m ∧
       e = PFloat (fmul (fmul a ratio) m)) ∧
    lower_of e = Ok lo ∧ upper_of e = Ok up ∧
    Forall2 (λ day v, last_shift_var s' r day = Ok v) (days s) vs ∧
    ∀ a, solution (model s') a → lo ≤ sum_values a vs ≤ up.
Proof.
  intros H Hres Hnd Hr.
  destruct (rule_applied s s' residents r)
    as (x & fs & rows & _ & _ & Hx & Hfs & Hrows & _ & Hrule); try done.
  specialize (Hx Hnd). subst x.
  destruct (Hrule _ (set_shift_expectations_selected _ _ Hfs))
    as (s3 & s4 & Hrun & Hext3 & Hext4 & Hsch).
  apply set_shift_expectations_total in Hrun
    as (e & lo & up & vs & sa & He & Hlo & Hup & Hvs & Hsb & Hexta).
  apply expected_night_shifts_ok in He as (_ & Hov & Hcomp).
  rewrite (ext_days _ _ Hext3) in Hvs, Hcomp.
  rewrite (ext_call_ratio _ _ Hext3) in Hcomp.
  rewrite (ext_trauma_shift_multiplier _ _ Hext3) in Hcomp. simpl in *.
  exists e, lo, up, vs. split_and!; try done.
  - eapply Forall2_impl; [done|]. intros day v Hv. simpl in Hv.
    rewrite <- Hv. apply last_shift_var_entry; [|done|by rewrite Hrows, Hsch].
    rewrite (ext_shifts _ _ Hext3). simpl.
    apply (ext_shifts _ _ (setup_model_extends _ _ H)).
  - intros a Hsol.
    destruct (strictly_bounded_sound _ _ _ _ _ _ _ s' Hsb)
      as (lf & uf & rest & _ & _ & Hsound); [by etrans|].
    destruct (Hsound a Hsol) as (Hwin & _).
    unfold lin_value, lin_sum in Hwin. simpl in Hwin. lia.
Qed.

(** ** Penalties that nothing forces *)

Lemma value_zeroed X a v :
  value (zeroed X a) v = if bool_decide (v ∈ X) then 0 else value a v.
Proof.
  unfold value, zeroed. rewrite list_lookup_imap.
  destruct (a !! v) as [x|]; simpl; [done|]. by case_bool_decide.
Qed.

Lemma value_zeroed_out X a v : v ∉ X → value (zeroed X a) v = value a v.
Proof. intros Hv. by rewrite value_zeroed, bool_decide_eq_false_2. Qed.

Lemma sum_values_zeroed_out X a vs :
  Forall (λ v, v ∉ X) vs → sum_values (zeroed X a) vs = sum_values a vs.
Proof.
  unfold sum_values. induction 1 as [|v vs Hv _ IH]; simpl; [done|].
  by rewrite IH, value_zeroed_out.
Qed.

Lemma lit_value_zeroed_out X a l :
  lit_var l ∉ X → lit_value (zeroed X a) l = lit_value a l.
Proof. intros Hl. destruct l; simpl in *; by rewrite value_zeroed_out. Qed.

Lemma count_true_zeroed_out X a ls :
  Forall (λ v, v ∉ X) (lit_var <$> ls) →
  count_true (zeroed X a) ls = count_true a ls.
Proof.
  unfold count_true. induction ls as [|l ls IH]; simpl; [done|].
  intros Hls. apply Forall_cons in Hls as [Hl Hls].
  by rewrite IH, lit_value_zeroed_out.
Qed.

Lemma lits_hold_zeroed_out X a ls :
  Forall (λ v, v ∉ X) (lit_var <$> ls) →
  Forall (lit_holds (zeroed X a)) ls ↔ Forall (lit_holds a) ls.
Proof.
  induction ls as [|l ls IH]; simpl; [done|].
  intros Hls. apply Forall_cons in Hls as [Hl Hls].
  rewrite !Forall_cons, IH by done. unfold lit_holds.
  by rewrite lit_value_zeroed_out.
Qed.

Lemma ct_holds_untouched X a c :
  untouched X c = true → ct_holds a c → ct_holds (zeroed X a) c.
Proof.
  unfold untouched. intros Hu Hc.
  assert (Forall (λ v, v ∉ X)
            (body_vars (ct_body_of c) ++ (lit_var <$> ct_enforce c))) as Hall.
  { apply Forall_forall. intros v Hv.
    rewrite forallb_forall in Hu. specialize (Hu v).
    rewrite <- list_elem_of_In in Hu. specialize (Hu Hv).
    apply negb_true_iff in Hu. by apply bool_decide_eq_false in Hu. }
  apply Forall_app in Hall as [Hbody Henf].
  unfold ct_holds. rewrite lits_hold_zeroed_out by done.
  intros Hen. specialize (Hc Hen). clear Hen Henf Hu.
  destruct c as [[l op r|ls|ls|ls|ls|x y] enf]; simpl in *.
  - apply Forall_app in Hbody as [Hl Hr]. unfold lin_value.
    by rewrite !sum_values_zeroed_out.
  - by rewrite count_true_zeroed_out.
  - by rewrite count_true_zeroed_out.
  - by apply lits_hold_zeroed_out.
  - by rewrite count_true_zeroed_out.
  - apply Forall_cons in Hbody as [Hx Hy].
    apply Forall_cons in Hy as [Hy _]. unfold lit_holds in *.
    by rewrite !lit_value_zeroed_out.
Qed.

Lemma ct_holds_switched_off X a c :
  switched_off X c = true → ct_holds (zeroed X a) c.
Proof.
  unfold switched_off. intros Hs Hen. exfalso.
  apply existsb_exists in Hs as (l & Hl & Hx).
  apply list_elem_of_In in Hl.
  rewrite Forall_forall in Hen. specialize (Hen l Hl).
  destruct l as [v|v]; [|done]. apply bool_decide_eq_true in Hx.
  unfold lit_holds in Hen. simpl in Hen.
  rewrite value_zeroed, bool_decide_eq_true_2 in Hen by done. done.
Qed.

(** Zeroing a zeroable set of variables turns a solution into a
    solution. *)
Lemma zeroed_solution m X a :
  zeroable m X = true → solution m a → solution m (zeroed X a).
Proof.
  unfold zeroable. intros Hz [Hdom Hcts].
  apply andb_true_iff in Hz as [Hc Hv]. split.
  - apply Forall2_same_length_lookup. split.
    { unfold zeroed. rewrite length_imap. by eapply Forall2_length. }
    intros i x d Hx Hd. unfold zeroed in Hx.
    rewrite list_lookup_imap in Hx.
    destruct (a !! i) as [y|] eqn:Hy; [|done]. simpl in Hx.
    injection Hx as <-. case_bool_decide as Hi.
    + rewrite forallb_forall in Hv. apply list_elem_of_In in Hi.
      specialize (Hv i Hi). rewrite Hd in Hv.
      apply bool_decide_eq_true in Hv. unfold in_domain. lia.
    + by eapply Forall2_lookup_lr.
  - apply Forall_forall. intros c Hin.
    rewrite forallb_forall in Hc. pose proof Hin as Hin'.
    apply list_elem_of_In in Hin'. specialize (Hc c Hin').
    apply orb_true_iff in Hc as [Hu|Hs].
    + apply ct_holds_untouched; [done|]. by eapply Forall_forall in Hcts.
    + by apply ct_holds_switched_off.
Qed.

(** Zeroing never raises a sum of non-negative values, and lowers it
    when a zeroed variable of the sum was positive. *)
Lemma sum_values_zeroed_le X a vs :
  (∀ v, v ∈ X → 0 ≤ value a v) →
  sum_values (zeroed X a) vs ≤ sum_values a vs.
Proof.
  intros Hnn. unfold sum_values. induction vs as [|v vs IH]; simpl; [done|].
  rewrite value_zeroed. case_bool_decide as Hv; [|lia].
  specialize (Hnn v Hv). lia.
Qed.

Lemma sum_values_zeroed_lt X a vs v :
  (∀ w, w ∈ X → 0 ≤ value a w) → v ∈ X → v ∈ vs → 0 < value a v →
  sum_values (zeroed X a) vs < sum_values a vs.
Proof.
  intros Hnn HvX Hv Hpos. induction vs as [|w vs IH]; [by apply elem_of_nil in Hv|].
  pose proof (sum_values_zeroed_le X a vs Hnn) as Hle.
  unfold sum_values in *. simpl. rewrite value_zeroed.
  apply elem_of_cons in Hv as [<-|Hv].
  - rewrite bool_decide_eq_true_2 by done. lia.
  - specialize (IH Hv). case_bool_decide as Hw; [|lia].
    specialize (Hnn w Hw). lia.
Qed.

(** In an optimal solution, a variable of the objective that belongs to
    a zeroable set is 0. *)
Lemma optimal_zero m X a v :
  zeroable m X = true →
  v ∈ X → v ∈ default [] (cp_objective m) →
  optimal m a → value a v = 0.
Proof.
  intros Hz HvX Hobj [Hsol Hopt].
  assert (∀ w, w ∈ X → 0 ≤ value a w) as Hnn.
  { intros w Hw. pose proof Hz as Hz'. unfold zeroable in Hz'.
    apply andb_true_iff in Hz' as [_ Hv].
    rewrite forallb_forall in Hv. apply list_elem_of_In in Hw.
    specialize (Hv w Hw). destruct (cp_vars m !! w) as [d|] eqn:Hd; [|done].
    apply bool_decide_eq_true in Hv.
    pose proof (solution_domain _ _ _ _ Hsol Hd). lia. }
  destruct (decide (value a v = 0)) as [|Hne]; [done|]. exfalso.
  specialize (Hopt _ (zeroed_solution m X a Hz Hsol)).
  pose proof (sum_values_zeroed_lt X a (default [] (cp_objective m)) v
                Hnn HvX Hobj) as Hlt.
  specialize (Hnn v HvX). unfold objective_value in Hopt. lia.
Qed.

Lemma objective_nonneg m a :
  objective_bounded m = true → solution m a → 0 ≤ objective_value m a.
Proof.
  unfold objective_bounded, objective_value. intros Hb Hsol.
  induction (default [] (cp_objective m)) as [|v vs IH]; [done|].
  simpl in Hb. apply andb_true_iff in Hb as [Hv Hvs].
  specialize (IH Hvs). unfold sum_values in *. simpl.
  destruct (cp_vars m !! v) as [d|] eqn:Hd; [|done].
  apply bool_decide_eq_true in Hv.
  pose proof (solution_domain _ _ _ _ Hsol Hd). lia.
Qed.

(** A model with a solution and a bounded objective has an optimal
    solution. *)
Lemma optimal_exists m a :
  objective_bounded m = true → solution m a → ∃ b, optimal m b.
Proof.
  intros Hb.
  remember (Z.to_nat (objective_value m a)) as n eqn:Hn.
  revert a Hn. induction n as [n IH] using lt_wf_ind. intros a Hn Hsol.
  destruct (classic (∃ b, solution m b
                          ∧ objective_value m b < objective_value m a))
    as [(b & Hsolb & Hlt)|Hno].
  - pose proof (objective_nonneg m b Hb Hsolb).
    apply (IH (Z.to_nat (objective_value m b))) with b; [lia|done|done].
  - exists a. split; [done|]. intros b Hsolb.
    destruct (Z.le_gt_cases (objective_value m a) (objective_value m b));
      [done|].
    exfalso. apply Hno. exists b. split; [done|lia].
Qed.

Lemma objective_vars_nonneg m a v :
  objective_bounded m = true → solution m a →
  v ∈ default [] (cp_objective m) → 0 ≤ value a v.
Proof.
  unfold objective_bounded. intros Hb Hsol Hv.
  rewrite forallb_forall in Hb. apply list_elem_of_In in Hv.
  specialize (Hb v Hv). destruct (cp_vars m !! v) as [d|] eqn:Hd; [|done].
  apply bool_decide_eq_true in Hb.
  pose proof (solution_domain _ _ _ _ Hsol Hd). lia.
Qed.

(** The objective is at least the sum of any sublist of its variables. *)
Lemma objective_lower_bound m a F :
  objective_bounded m = true → solution m a →
  F `sublist_of` default [] (cp_objective m) →
  sum_values a F ≤ objective_value m a.
Proof.
  intros Hb Hsol Hsub. unfold objective_value.
  pose proof (λ v, objective_vars_nonneg m a v Hb Hsol) as Hnn.
  induction Hsub as [|v F O Hsub IH|v F O Hsub IH]; [done| |].
  - assert (sum_values a F ≤ sum_values a O) as Hle.
    { apply IH. intros w Hw. apply Hnn. by right. }
    unfold sum_values in *. simpl. lia.
  - assert (sum_values a F ≤ sum_values a O) as Hle.
    { apply IH. intros w Hw. apply Hnn. by right. }
    assert (0 ≤ value a v) by (apply Hnn; left).
    unfold sum_values in *. simpl. lia.
Qed.

(** The arithmetic content of some constraints of a solved model. *)
Lemma solution_exactly_one2 m a x y :
  solution m a → Ct (ExactlyOne [Pos x; Pos y]) [] ∈ cp_cts m →
  value a x + value a y = 1.
Proof.
  intros Hsol Hc. apply (solution_body _ _ _ Hsol) in Hc.
  unfold body_holds, count_true in Hc. simpl in Hc. lia.
Qed.

Lemma solution_exactly_one3 m a x y z :
  solution m a → Ct (ExactlyOne [Pos x; Pos y; Pos z]) [] ∈ cp_cts m →
  value a x + value a y + value a z = 1.
Proof.
  intros Hsol Hc. apply (solution_body _ _ _ Hsol) in Hc.
  unfold body_holds, count_true in Hc. simpl in Hc. lia.
Qed.

Lemma solution_total2 m a t x y :
  solution m a →
  Ct (Linear (lin_var t) Req (lin_sum [x; y])) [] ∈ cp_cts m →
  value a t = value a x + value a y.
Proof.
  intros Hsol Hc. apply (solution_body _ _ _ Hsol) in Hc.
  unfold body_holds, rel_holds, lin_value, sum_values in Hc. simpl in Hc. lia.
Qed.

Lemma solution_total0 m a t :
  solution m a → Ct (Linear (lin_var t) Req (lin_sum [])) [] ∈ cp_cts m →
  value a t = 0.
Proof.
  intros Hsol Hc. apply (solution_body _ _ _ Hsol) in Hc.
  unfold body_holds, rel_holds, lin_value, sum_values in Hc. simpl in Hc. lia.
Qed.

Lemma solution_flag_set m a t k f :
  solution m a → bool_var m f → Ct (lin_rel t Rne k) [Neg f] ∈ cp_cts m →
  value a t = k → value a f = 1.
Proof.
  intros Hsol Hb Hc Ht. destruct (solution_bool _ _ _ Hsol Hb) as [Hf|Hf]; [|done].
  exfalso.
  assert (lit_holds a (Neg f)) as Hl by (unfold lit_holds; simpl; lia).
  pose proof (solution_body_if _ _ _ _ Hsol Hc Hl) as Hbody.
  unfold lin_rel, body_holds, rel_holds, lin_value, sum_values in Hbody.
  simpl in Hbody. lia.
Qed.

Lemma solution_flag_unset m a t k f :
  solution m a → Ct (lin_rel t Rne k) [Neg f] ∈ cp_cts m →
  value a f = 0 → value a t ≠ k.
Proof.
  intros Hsol Hc Hf.
  assert (lit_holds a (Neg f)) as Hl by (unfold lit_holds; simpl; lia).
  pose proof (solution_body_if _ _ _ _ Hsol Hc Hl) as Hb.
  unfold lin_rel, body_holds, rel_holds, lin_value, sum_values in Hb.
  simpl in Hb. lia.
Qed.

(** ** Construction *)

Lemma bind_raise {A B} (c : M A) (k : A → M B) s e :
  c s = inl e → (c ≫= k) s = inl e.
Proof. unfold mbind, M_bind. by intros ->. Qed.

Lemma add_resident_info_before_nofill r s :
  nofill s = None → add_resident_info r s = Raise AttributeError.
Proof.
  intros Hnf. unfold add_resident_info, mbind, M_bind, gets, attr, Ok.
  destruct (residents_info s); simpl; by rewrite Hnf.
Qed.

Lemma calculate_call_ratio_before_days_to_fill r rs s :
  residents_info s = Some (r :: rs) → days_to_fill s = None →
  calculate_call_ratio s = Raise AttributeError.
Proof.
  intros Hres Hd. unfold calculate_call_ratio, mbind, M_bind, attr.
  rewrite Hres. simpl. unfold mbind, M_bind, gets, attr, Ok. simpl.
  by rewrite Hd.
Qed.

(** C10. Constructing a solver with a non-empty [residents_info] list
    raises: the constructor calls [add_resident_info] on the first
    entry while [self.nofill] and [self.days_to_fill] are still
    unassigned, and that call raises on reading [self.nofill]. *)
Theorem init_with_residents_raises a r rs :
  arg_residents_info a = Some (r :: rs) →
  nofill (init_first a) = None ∧ days_to_fill (init_first a) = None ∧
  add_resident_info r (init_first a) = Raise AttributeError ∧
  init a = Raise AttributeError.
Proof.
  intros Hres. split_and!; try done.
  unfold init, init_body. rewrite Hres.
  rewrite (bind_raise _ _ _ AttributeError); [done|].
  simpl. apply bind_raise. by apply add_resident_info_before_nofill.
Qed.

(** A constructed solver has no resident registered: residents come
    from calls of [add_resident_info] made afterwards. *)
Lemma init_registers_nobody a s : init a = Ok s → residents_info s = None.
Proof.
  unfold init. destruct (init_body a (init_first a)) as [e|[[] s']] eqn:H;
    [done|]. intros [= <-].
  unfold init_body in H.
  apply bind_ok in H as ([] & s0 & H0 & H).
  assert (s0 = init_first a) as ->.
  { destruct (arg_residents_info a) as [[|r rs]|] eqn:Hres.
    - by inv_run H0.
    - simpl in H0. apply bind_ok in H0 as ([] & s1 & H1 & _).
      by rewrite add_resident_info_before_nofill in H1.
    - by inv_run H0. }
  clear H0.
  apply bind_ok in H as (d & s0 & Hd & H). inv_run Hd.
  apply bind_ok in H as ([] & s0 & Hm & H). inv_run Hm.
  apply bind_ok in H as ([] & s1 & H1 & H). inv_run H.
  simpl.
  assert (preserves (λ s s', residents_info s' = residents_info s)
            (for_each (arg_holidays a) add_holiday)) as Hp.
  { apply preserves_for_each.
    - split; [done|]. intros x y z ? ?. congruence.
    - intros day _ sa [] sb Hrun. unfold add_holiday in Hrun. by inv_run Hrun. }
  by rewrite (Hp _ _ _ H1).
Qed.

(** Closes a goal on concrete data by evaluation. *)
Ltac evaluate :=
  lazymatch goal with
  | |- solution _ _ => apply (bool_decide_unpack _); vm_compute; exact I
  | |- works _ _ _ _ _ => eexists; split; vm_compute; reflexivity
  | |- _ ∈ _ => vm_compute; in_list
  | |- Forall2 _ _ _ => apply (bool_decide_unpack _); vm_compute; exact I
  | |- _ `sublist_of` _ =>
      vm_compute;
      repeat first [apply sublist_nil | apply sublist_skip | apply sublist_cons]
  | |- _ =>
      first [ vm_compute; reflexivity
            | apply (bool_decide_unpack _); vm_compute; exact I ]
  end.

(** C3 as stated fails under the senior rule set: the senior rule list
    has no [trauma_day_call].  With one senior resident A, not on the
    trauma rotation, and a horizon of one (working) day, the compiled
    model has a solution, and in every solution A works the first shift
    of day 0. *)
Lemma day_call_senior_counterexample :
  configure (senior_block 1) [resident_defaults "A"] = Ok one_day_solver ∧
  setup_model one_day_solver = inr (tt, one_day_compiled) ∧
  classification one_day_solver = "senior" ∧
  residents_info one_day_solver = Some [resident_defaults "A"] ∧
  on_trauma (resident_defaults "A") = false ∧
  0 ∈ working_days one_day_solver ∧
  py_first (shifts one_day_solver) = Ok "night" ∧
  solution (model one_day_compiled) one_day_solution ∧
  ∀ a, solution (model one_day_compiled) a →
    works one_day_compiled a (resident_defaults "A") 0 "night".
Proof.
  split_and!; [evaluate..|].
  intros a Hsol.
  pose proof (solution_body _ _ (ExactlyOne [Pos 0]) Hsol ltac:(evaluate))
    as Hcov.
  unfold body_holds, count_true in Hcov. simpl in Hcov.
  exists 0%nat. split; [evaluate|lia].
Qed.

(** C2 on the code: no rule list contains [cant_book_nofill_days], and
    the compiled model leaves the variables of a no-fill day free.  With
    two junior trauma residents, two days and day 1 a no-fill day, the
    compiled model has a solution in which B works both shifts of the
    no-fill day; and since leaving the no-fill day empty sets more
    bound-reached flags, every optimal solution has a resident working
    on the no-fill day. *)
Theorem nofill_day_assigned :
  configure (junior_block 2 [1]) nofill_residents = Ok nofill_solver ∧
  setup_model nofill_solver = inr (tt, nofill_compiled) ∧
  nofill nofill_solver = Some [1] ∧
  residents_info nofill_solver = Some nofill_residents ∧
  solution (model nofill_compiled) nofill_solution ∧
  works nofill_compiled nofill_solution (trauma_resident "B") 1 "day" ∧
  works nofill_compiled nofill_solution (trauma_resident "B") 1 "night" ∧
  (∃ a, optimal (model nofill_compiled) a) ∧
  (∀ a, optimal (model nofill_compiled) a →
     works nofill_compiled a (trauma_resident "A") 1 "day" ∨
     works nofill_compiled a (trauma_resident "A") 1 "night" ∨
     works nofill_compiled a (trauma_resident "B") 1 "day" ∨
     works nofill_compiled a (trauma_resident "B") 1 "night").
Proof.
  split_and!; [evaluate..| |].
  - apply (optimal_exists _ nofill_solution); evaluate.
  - intros a [Hsol Hopt].
    assert (solution (model nofill_compiled) nofill_solution) as Hmine
      by evaluate.
    specialize (Hopt _ Hmine).
    assert (objective_value (model nofill_compiled) nofill_solution = 2)
      as Hobj by evaluate.
    assert (objective_bounded (model nofill_compiled) = true) as Hbounded
      by evaluate.
    assert ([9; 12; 15; 26; 29; 32]%nat
              `sublist_of` default [] (cp_objective (model nofill_compiled)))
      as Hsub by evaluate.
    pose proof (objective_lower_bound _ _ _ Hbounded Hsol Hsub) as Hlow.
    unfold sum_values in Hlow. cbn [foldr] in Hlow. clear Hbounded Hsub.
    rewrite Hobj in Hopt. clear Hobj Hmine.
    remember (objective_value (model nofill_compiled) a) as o eqn:Ho.
    clear Ho.
    assert (∀ v, v ∈ [0; 1; 2; 3; 9; 12; 15; 17; 18; 19; 20; 26; 29; 32]%nat →
              bool_var (model nofill_compiled) v) as Hbool.
    { intros v Hv. rewrite !elem_of_cons, elem_of_nil in Hv.
      repeat (destruct Hv as [->|Hv];
              [eapply bool_var_lookup;
                [vm_compute; reflexivity|reflexivity|reflexivity]|]).
      destruct Hv. }
    pose proof (λ v Hv, solution_bool _ a v Hsol (Hbool v Hv)) as Hval.
    (* a bound that is reached sets its flag *)
    assert (value a 8 = 0 → value a 9 = 1) as HfA
      by (apply (solution_flag_set _ _ _ _ _ Hsol);
          [apply Hbool; in_list|evaluate]).
    assert (value a 25 = 0 → value a 26 = 1) as HfB
      by (apply (solution_flag_set _ _ _ _ _ Hsol);
          [apply Hbool; in_list|evaluate]).
    assert (value a 11 = 0 → value a 12 = 1) as HgA
      by (apply (solution_flag_set _ _ _ _ _ Hsol);
          [apply Hbool; in_list|evaluate]).
    assert (value a 28 = 0 → value a 29 = 1) as HgB
      by (apply (solution_flag_set _ _ _ _ _ Hsol);
          [apply Hbool; in_list|evaluate]).
    assert (value a 14 = 0 → value a 15 = 1) as HhA
      by (apply (solution_flag_set _ _ _ _ _ Hsol);
          [apply Hbool; in_list|evaluate]).
    assert (value a 31 = 0 → value a 32 = 1) as HhB
      by (apply (solution_flag_set _ _ _ _ _ Hsol);
          [apply Hbool; in_list|evaluate]).
    (* the totals and the coverage of day 0 *)
    assert (value a 0 + value a 17 = 1) as Hday0
      by (apply (solution_exactly_one2 _ _ _ _ Hsol); evaluate).
    assert (value a 1 + value a 18 = 1) as Hnight0
      by (apply (solution_exactly_one2 _ _ _ _ Hsol); evaluate).
    assert (value a 8 = value a 1 + value a 3) as HtA
      by (apply (solution_total2 _ _ _ _ _ Hsol); evaluate).
    assert (value a 25 = value a 18 + value a 20) as HtB
      by (apply (solution_total2 _ _ _ _ _ Hsol); evaluate).
    assert (value a 14 = value a 0 + value a 2) as HdA
      by (apply (solution_total2 _ _ _ _ _ Hsol); evaluate).
    assert (value a 31 = value a 17 + value a 19) as HdB
      by (apply (solution_total2 _ _ _ _ _ Hsol); evaluate).
    assert (value a 11 = 0) as HwA
      by (apply (solution_total0 _ _ _ Hsol); evaluate).
    assert (value a 28 = 0) as HwB
      by (apply (solution_total0 _ _ _ Hsol); evaluate).
    specialize (HgA HwA). specialize (HgB HwB).
    assert (0 ≤ value a 9 ∧ 0 ≤ value a 15 ∧ 0 ≤ value a 26 ∧ 0 ≤ value a 32)
      as (Hn9 & Hn15 & Hn26 & Hn32).
    { split_and!.
      - destruct (Hval 9%nat ltac:(in_list)); lia.
      - destruct (Hval 15%nat ltac:(in_list)); lia.
      - destruct (Hval 26%nat ltac:(in_list)); lia.
      - destruct (Hval 32%nat ltac:(in_list)); lia. }
    pose proof (Hval 0%nat ltac:(in_list)) as H0.
    pose proof (Hval 1%nat ltac:(in_list)) as H1.
    pose proof (Hval 2%nat ltac:(in_list)) as H2.
    pose proof (Hval 3%nat ltac:(in_list)) as H3.
    pose proof (Hval 19%nat ltac:(in_list)) as H19.
    pose proof (Hval 20%nat ltac:(in_list)) as H20.
    clear Hval Hbool Hsol.
    assert (value a 2 = 1 ∨ value a 3 = 1 ∨ value a 19 = 1 ∨ value a 20 = 1)
      as Hwork.
    { destruct H2 as [H2|H2]; [|by left].
      destruct H3 as [H3|H3]; [|by right; left].
      destruct H19 as [H19|H19]; [|by right; right; left].
      destruct H20 as [H20|H20]; [|by right; right; right].
      exfalso. rewrite H2 in HdA. rewrite H3 in HtA.
      rewrite H19 in HdB. rewrite H20 in HtB.
      destruct H0 as [H0|H0], H1 as [H1|H1]; lia. }
    clear -Hwork.
    destruct Hwork as [Hw|[Hw|[Hw|Hw]]];
      [left|right; left|right; right; left|right; right; right];
      eexists; (split; [evaluate|exact Hw]).
Qed.

(** C5 on the code: the Friday rules index the later day without
    checking that it lies in the horizon.  Over twelve days the junior
    rule set has a first Friday (day 4) whose Sunday (day 6) exists and
    a second Friday (day 11) whose Sunday (day 13) does not: compiling
    raises [IndexError] and no model is produced, while over fourteen
    days the same roster compiles. *)
Theorem friday_without_later_day_raises :
  configure (junior_block 12 []) [trauma_resident "A"] = Ok twelve_day_solver ∧
  4 ∈ days twelve_day_solver ∧ 6 ∈ days twelve_day_solver ∧
  11 ∈ days twelve_day_solver ∧ (13 ∉ days twelve_day_solver) ∧
  setup_model twelve_day_solver = Raise IndexError ∧
  (∃ s14, compile (junior_block 14 []) [trauma_resident "A"] = Ok s14) ∧
  compile (senior_block 12) [trauma_resident "A"] = Raise IndexError.
Proof.
  split_and!; [evaluate..| |evaluate].
  eexists. vm_compute. reflexivity.
Qed.

(** C6 on the code: the conflict flag is only constrained to imply both
    Fridays, never the converse, so working both Fridays forces no
    penalty.  Over thirteen days with B away on both Fridays and
    Saturdays, A works the last shift of both Fridays (days 4 and 11) in
    every solution; the model has a solution, hence an optimal one, and
    in every optimal solution the Friday penalty of A is 0, the
    configured penalty being 5. *)
Theorem repeated_fridays_unpenalised :
  configure (senior_block 13) two_fridays_residents = Ok two_fridays_solver ∧
  setup_model two_fridays_solver = inr (tt, two_fridays_compiled) ∧
  extra_friday_penalty_amount two_fridays_solver = 5 ∧
  var_named (model two_fridays_compiled) 13 "A_Fridays_4_11" ∧
  var_named (model two_fridays_compiled) 14 "penalty_A_Fridays_4_11" ∧
  14%nat ∈ default [] (cp_objective (model two_fridays_compiled)) ∧
  solution (model two_fridays_compiled) two_fridays_solution ∧
  value two_fridays_solution 14 = 0 ∧
  (∀ a, solution (model two_fridays_compiled) a →
     works two_fridays_compiled a (resident_defaults "A") 4 "night" ∧
     works two_fridays_compiled a (resident_defaults "A") 11 "night") ∧
  (∃ a, optimal (model two_fridays_compiled) a) ∧
  (∀ a, optimal (model two_fridays_compiled) a → value a 14 = 0).
Proof.
  split_and!; [evaluate..| | |].
  - intros a Hsol.
    assert (Ct (lin_rel 32 Req 0) [] ∈ cp_cts (model two_fridays_compiled))
      as Hb4 by evaluate.
    assert (Ct (lin_rel 39 Req 0) [] ∈ cp_cts (model two_fridays_compiled))
      as Hb11 by evaluate.
    assert (Ct (ExactlyOne [Pos 4; Pos 32]) []
              ∈ cp_cts (model two_fridays_compiled)) as Hc4 by evaluate.
    assert (Ct (ExactlyOne [Pos 11; Pos 39]) []
              ∈ cp_cts (model two_fridays_compiled)) as Hc11 by evaluate.
    apply (solution_body _ _ _ Hsol), lin_rel_eq_holds in Hb4, Hb11.
    apply (solution_exactly_one2 _ _ _ _ Hsol) in Hc4, Hc11.
    split; [exists 4%nat|exists 11%nat]; (split; [evaluate|lia]).
  - apply (optimal_exists _ two_fridays_solution); evaluate.
  - intros a. apply (optimal_zero _ [13; 14]%nat); evaluate.
Qed.

(** C7 on the code: the flags [weekly_exceeds_i] are only constrained to
    imply an overage, never the converse, so an overage forces no
    penalty.  With three residents, one week and a cap of one shift a
    week, every solution has a resident with more than one shift in the
    week; the model has a solution, hence an optimal one, and in every
    optimal solution the weekly penalty of each resident is 0. *)
Theorem weekly_overage_unpenalised :
  configure (senior_block 7) residents_ABC = Ok one_week_solver ∧
  setup_model one_week_solver = inr (tt, one_week_compiled) ∧
  max_shifts_per_week one_week_solver = 1 ∧
  var_named (model one_week_compiled) 8 "Week_0_penalty_A" ∧
  var_named (model one_week_compiled) 28 "Week_0_penalty_B" ∧
  var_named (model one_week_compiled) 48 "Week_0_penalty_C" ∧
  8%nat ∈ default [] (cp_objective (model one_week_compiled)) ∧
  28%nat ∈ default [] (cp_objective (model one_week_compiled)) ∧
  48%nat ∈ default [] (cp_objective (model one_week_compiled)) ∧
  solution (model one_week_compiled) one_week_solution ∧
  works one_week_compiled one_week_solution (resident_defaults "A") 0 "night" ∧
  works one_week_compiled one_week_solution (resident_defaults "A") 2 "night" ∧
  works one_week_compiled one_week_solution (resident_defaults "A") 6 "night" ∧
  value one_week_solution 8 = 0 ∧
  (∀ a, solution (model one_week_compiled) a →
     1 < sum_values a [0; 1; 2; 3; 4; 5; 6]%nat ∨
     1 < sum_values a [20; 21; 22; 23; 24; 25; 26]%nat ∨
     1 < sum_values a [40; 41; 42; 43; 44; 45; 46]%nat) ∧
  (∃ a, optimal (model one_week_compiled) a) ∧
  (∀ a, optimal (model one_week_compiled) a →
     value a 8 = 0 ∧ value a 28 = 0 ∧ value a 48 = 0).
Proof.
  split_and!; [evaluate..| | |].
  - intros a Hsol.
    assert (value a 0 + value a 20 + value a 40 = 1)
      by (apply (solution_exactly_one3 _ _ _ _ _ Hsol); evaluate).
    assert (value a 1 + value a 21 + value a 41 = 1)
      by (apply (solution_exactly_one3 _ _ _ _ _ Hsol); evaluate).
    assert (value a 2 + value a 22 + value a 42 = 1)
      by (apply (solution_exactly_one3 _ _ _ _ _ Hsol); evaluate).
    assert (value a 3 + value a 23 + value a 43 = 1)
      by (apply (solution_exactly_one3 _ _ _ _ _ Hsol); evaluate).
    assert (value a 4 + value a 24 + value a 44 = 1)
      by (apply (solution_exactly_one3 _ _ _ _ _ Hsol); evaluate).
    assert (value a 5 + value a 25 + value a 45 = 1)
      by (apply (solution_exactly_one3 _ _ _ _ _ Hsol); evaluate).
    assert (value a 6 + value a 26 + value a 46 = 1)
      by (apply (solution_exactly_one3 _ _ _ _ _ Hsol); evaluate).
    clear Hsol. unfold sum_values. cbn [foldr]. lia.
  - apply (optimal_exists _ one_week_solution); evaluate.
  - intros a Hopt. split_and!.
    + revert Hopt. apply (optimal_zero _ [8; 9; 10; 11; 12; 13]%nat); evaluate.
    + revert Hopt.
      apply (optimal_zero _ [28; 29; 30; 31; 32; 33]%nat); evaluate.
    + revert Hopt.
      apply (optimal_zero _ [48; 49; 50; 51; 52; 53]%nat); evaluate.
Qed.

(** C8 as stated fails: the bounds are the truncated [int(e - 1)] and
    [int(e + 1)].  With three senior residents and four days the
    expectation of C is about 1.33 and the bounds are 0 and 2; in a
    solution C works no last shift at all, which is more than one below
    the expectation. *)
Lemma expectation_window_counterexample :
  configure (senior_block 4) residents_ABC = Ok four_day_solver ∧
  setup_model four_day_solver = inr (tt, four_day_compiled) ∧
  expected_night_shifts (resident_defaults "C") four_day_solver
    = inr (four_thirds, four_day_solver) ∧
  lower_of four_thirds = Ok 0 ∧ upper_of four_thirds = Ok 2 ∧
  Forall2
    (λ day v,
       last_shift_var four_day_compiled (resident_defaults "C") day = Ok v)
    (days four_day_solver) [20; 21; 22; 23]%nat ∧
  solution (model four_day_compiled) four_day_solution ∧
  sum_values four_day_solution [20; 21; 22; 23]%nat = 0 ∧
  within_one four_thirds 0 = false.
Proof.
  split_and!; evaluate.
Qed.

(** The override 0 is not taken as an override: [if
    resident['days_override']] is false for 0, and the computed value is
    used. *)
Lemma override_zero_ignored :
  configure (senior_block 4)
    [resident_defaults "A"; resident_defaults "B"; resident_override_zero]
    = Ok override_zero_solver ∧
  days_override resident_override_zero = Some 0 ∧
  expected_night_shifts resident_override_zero override_zero_solver
    = inr (four_thirds, override_zero_solver).
Proof. split_and!; evaluate. Qed.

(** * Instances of the theorems on the concrete configurations *)

Lemma coverage_exactly_one_witness :
  ∃ vs,
    Forall2
      (λ r v, schedule_lookup (schedules one_day_compiled) (name r) 0 "night"
              = Ok v)
      [resident_defaults "A"] vs ∧
    Ct (ExactlyOne (Pos <$> vs)) [] ∈ cp_cts (model one_day_compiled) ∧
    ∀ a, solution (model one_day_compiled) a →
      ∃ i, (∃ r, [resident_defaults "A"] !! i = Some r
                 ∧ works one_day_compiled a r 0 "night") ∧
           ∀ j r, [resident_defaults "A"] !! j = Some r →
                  works one_day_compiled a r 0 "night" → j = i.
Proof.
  apply (coverage_exactly_one one_day_solver one_day_compiled
           [resident_defaults "A"] [] 0 "night");
    [evaluate|evaluate|evaluate|evaluate|apply not_elem_of_nil|evaluate].
Defined.

Lemma day_call_reserved_junior_witness :
  ∃ f v, py_first (shifts mixed_solver) = Ok f ∧
    schedule_lookup (schedules mixed_compiled) "N" 0 f = Ok v ∧
    Ct (lin_rel v Req 0) [] ∈ cp_cts (model mixed_compiled) ∧
    ∀ a, solution (model mixed_compiled) a →
      value a v = 0 ∧ ¬ works mixed_compiled a (resident_defaults "N") 0 f.
Proof.
  apply (day_call_reserved_junior mixed_solver mixed_compiled mixed_residents
           (resident_defaults "N") 0); evaluate.
Defined.

Lemma post_call_at_most_one_witness :
  ∃ l va vb, py_last (shifts four_day_solver) = Ok l ∧
    schedule_lookup (schedules four_day_compiled) "A" 0 l = Ok va ∧
    schedule_lookup (schedules four_day_compiled) "A" (0 + 1) "night" = Ok vb ∧
    Ct (AtMostOne [Pos va; Pos vb]) [] ∈ cp_cts (model four_day_compiled) ∧
    ∀ a, solution (model four_day_compiled) a →
      ¬ (works four_day_compiled a (resident_defaults "A") 0 l ∧
         works four_day_compiled a (resident_defaults "A") (0 + 1) "night").
Proof.
  apply (post_call_at_most_one four_day_solver four_day_compiled residents_ABC
           (resident_defaults "A") 0 "night"); evaluate.
Defined.

Lemma expected_last_shifts_window_witness :
  ∃ e lo up vs,
    (∀ z, days_override (resident_defaults "C") = Some z → z ≠ 0 → e = PInt z) ∧
    (days_override (resident_defaults "C") = None →
     ∃ ratio a m,
       call_ratio four_day_solver = Some ratio ∧
       float_of_int (len (days four_day_solver)
                     - len (on_vacation_days (resident_defaults "C"))) = Ok a ∧
       float_of_int (if on_trauma (resident_defaults "C")
                     then trauma_shift_multiplier four_day_solver else 1)
         = Ok m ∧
       e = PFloat (fmul (fmul a ratio) m)) ∧
    lower_of e = Ok lo ∧ upper_of e = Ok up ∧
    Forall2
      (λ day v,
         last_shift_var four_day_compiled (resident_defaults "C") day = Ok v)
      (days four_day_solver) vs ∧
    ∀ a, solution (model four_day_compiled) a → lo ≤ sum_values a vs ≤ up.
Proof.
  apply (expected_last_shifts_window four_day_solver four_day_compiled
           residents_ABC (resident_defaults "C")); evaluate.
Defined.


Lemma init_with_residents_raises_witness :
  nofill (init_first args_with_residents) = None ∧
  days_to_fill (init_first args_with_residents) = None ∧
  add_resident_info (resident_defaults "A") (init_first args_with_residents)
    = Raise AttributeError ∧
  init args_with_residents = Raise AttributeError.
Proof.
  apply (init_with_residents_raises args_with_residents
           (resident_defaults "A") []). reflexivity.
Defined.

(** * Further properties of the builder *)

(** ** Rules that pin a variable *)

Lemma works_value s' a r day shift v :
  schedule_lookup (schedules s') (name r) day shift = Ok v →
  works s' a r day shift ↔ value a v = 1.
Proof.
  intros Hv. unfold works. split.
  - intros (w & Hw & Hw1). rewrite Hv in Hw. by injection Hw as <-.
  - intros H1. by exists v.
Qed.

(** A rule of the selected list that pins a variable of the resident's
    table to a constant pins it in the compiled model. *)
Lemma rule_forces s s' residents r (rule : Resident → M unit) day shift k :
  setup_model s = inr (tt, s') →
  residents_info s = Some residents → NoDup (name <$> residents) →
  r ∈ residents →
  (∀ fs, select_build_functions (classification s) = Some fs → rule ∈ fs) →
  (∀ s3 s4, rule r s3 = inr (tt, s4) → extends (set_penalties [] s) s3 →
     ∃ v, schedule_lookup (schedules s3) (name r) day shift = Ok v ∧
          Ct (lin_rel v Req k) [] ∈ cp_cts (model s4)) →
  ∃ v, schedule_lookup (schedules s') (name r) day shift = Ok v ∧
    Ct (lin_rel v Req k) [] ∈ cp_cts (model s') ∧
    ∀ a, solution (model s') a → value a v = k.
Proof.
  intros H Hres Hnd Hr Hsel Hemit.
  destruct (rule_applied s s' residents r)
    as (x & fs & rows & _ & _ & Hx & Hfs & Hrows & _ & Hrule); try done.
  specialize (Hx Hnd). subst x.
  destruct (Hrule rule (Hsel _ Hfs)) as (s3 & s4 & Hrun & Hext3 & Hext4 & Hsch).
  destruct (Hemit _ _ Hrun Hext3) as (v & Hv & Hct).
  assert (Ct (lin_rel v Req k) [] ∈ cp_cts (model s')) as Hct'
    by (by eapply extends_ct).
  exists v. split_and!; try done.
  - rewrite <- Hv. apply schedule_lookup_entry. by rewrite Hrows, Hsch.
  - intros a Hsol. apply lin_rel_eq_holds. by eapply solution_body.
Qed.

Lemma cant_book_vacation_days_emits x s3 s4 day shift :
  cant_book_vacation_days x s3 = inr (tt, s4) →
  day ∈ days s3 → day ∈ on_vacation_days x → shift ∈ shifts s3 →
  ∃ v, schedule_lookup (schedules s3) (name x) day shift = Ok v ∧
    Ct (lin_rel v Req 0) [] ∈ cp_cts (model s4).
Proof.
  intros H Hday Hvac Hshift. unfold cant_book_vacation_days in H.
  apply bind_ok in H as (ds & s0 & H0 & H). inv_run H0.
  loop_elem H day as (sx & sy & [Hx Hsx] & Hrun & Hfry); [done|].
  unfold py_in in Hrun. rewrite bool_decide_eq_true_2 in Hrun by done.
  apply bind_ok in Hrun as (sh & s0 & H0 & Hrun). inv_run H0.
  loop_elem Hrun shift as (sz & sw & [Hz Hsz] & Hrun' & Hfrw).
  { by rewrite (ext_shifts _ _ Hx). }
  apply bind_ok in Hrun' as (v & s0 & H0 & Hrun').
  apply schedule_var_ok in H0 as [Hv ->].
  apply Add_ok in Hrun'. subst sw.
  exists v. rewrite <- Hsx, <- Hsz. split; [done|].
  eapply extends_ct; [|apply added_ct_elem].
  etrans; by apply frame_extends.
Qed.

Lemma cant_book_vacation_days_selected cls fs :
  select_build_functions cls = Some fs → cant_book_vacation_days ∈ fs.
Proof.
  unfold select_build_functions. intros H.
  repeat case_bool_decide; simplify_eq.
  - unfold junior_build_functions. in_list.
  - unfold senior_build_functions. in_list.
Qed.

Lemma assign_claimed_days_selected cls fs :
  select_build_functions cls = Some fs → assign_claimed_days ∈ fs.
Proof.
  unfold select_build_functions. intros H.
  repeat case_bool_decide; simplify_eq.
  - unfold junior_build_functions. in_list.
  - unfold senior_build_functions. in_list.
Qed.

(** X1.  For every resident (names distinct), every day of the horizon that
    is in the resident's registered vacation list and every shift, the
    compiled model (junior or senior) sets the resident's variable to 0:
    no solution has the resident working on a vacation day. *)
Theorem vacation_never_worked s s' residents r day shift :
  setup_model s = inr (tt, s') →
  residents_info s = Some residents → NoDup (name <$> residents) →
  r ∈ residents →
  day ∈ days s → day ∈ on_vacation_days r → shift ∈ shifts s →
  ∃ v, schedule_lookup (schedules s') (name r) day shift = Ok v ∧
    Ct (lin_rel v Req 0) [] ∈ cp_cts (model s') ∧
    ∀ a, solution (model s') a → value a v = 0 ∧ ¬ works s' a r day shift.
Proof.
  intros H Hres Hnd Hr Hday Hvac Hshift.
  destruct (rule_forces s s' residents r cant_book_vacation_days day shift 0)
    as (v & Hv & Hct & Hzero); try done.
  { apply cant_book_vacation_days_selected. }
  { intros s3 s4 Hrun Hext.
    apply cant_book_vacation_days_emits with (day := day) (shift := shift) in Hrun;
      [done| |done|].
    - by rewrite (ext_days _ _ Hext).
    - by rewrite (ext_shifts _ _ Hext). }
  exists v. split_and!; try done. intros a Hsol.
  specialize (Hzero a Hsol). split; [done|].
  rewrite (works_value _ _ _ _ _ _ Hv). lia.
Qed.

Lemma assign_claimed_days_emits x s3 s4 day shift :
  assign_claimed_days x s3 = inr (tt, s4) →
  (day, shift) ∈ claimed_days x →
  ∃ v, schedule_lookup (schedules s3) (name x) day shift = Ok v ∧
    Ct (lin_rel v Req 1) [] ∈ cp_cts (model s4).
Proof.
  intros H Hcl. unfold assign_claimed_days in H.
  loop_elem H (day, shift) as (sx & sy & [Hx Hsx] & Hrun & Hfry); [done|].
  apply bind_ok in Hrun as (v & s0 & H0 & Hrun).
  apply schedule_var_ok in H0 as [Hv ->].
  apply Add_ok in Hrun. subst sy.
  exists v. rewrite <- Hsx. split; [done|].
  eapply extends_ct; [|apply added_ct_elem]. by apply frame_extends.
Qed.

(** X2.  For every resident (names distinct) and every (day, shift) of the
    resident's [claimed_days], a model that compiles holds the
    resident's variable for that day and shift and sets it to 1: in
    every solution the resident works the claimed shift. *)
Theorem claimed_day_worked s s' residents r day shift :
  setup_model s = inr (tt, s') →
  residents_info s = Some residents → NoDup (name <$> residents) →
  r ∈ residents → (day, shift) ∈ claimed_days r →
  ∃ v, schedule_lookup (schedules s') (name r) day shift = Ok v ∧
    Ct (lin_rel v Req 1) [] ∈ cp_cts (model s') ∧
    ∀ a, solution (model s') a → works s' a r day shift.
Proof.
  intros H Hres Hnd Hr Hcl.
  destruct (rule_forces s s' residents r assign_claimed_days day shift 1)
    as (v & Hv & Hct & Hone); try done.
  { apply assign_claimed_days_selected. }
  { intros s3 s4 Hrun Hext. by eapply assign_claimed_days_emits. }
  exists v. split_and!; try done. intros a Hsol.
  rewrite (works_value _ _ _ _ _ _ Hv). by apply Hone.
Qed.

(** X3.  A claimed shift on a day of the resident's own vacation list makes
    the compiled model unsatisfiable: the vacation rule sets the
    variable to 0 and the claim sets it to 1. *)
Theorem claimed_vacation_day_unsatisfiable s s' residents r day shift :
  setup_model s = inr (tt, s') →
  residents_info s = Some residents → NoDup (name <$> residents) →
  r ∈ residents →
  day ∈ days s → day ∈ on_vacation_days r → shift ∈ shifts s →
  (day, shift) ∈ claimed_days r →
  ∀ a, ¬ solution (model s') a.
Proof.
  intros H Hres Hnd Hr Hday Hvac Hshift Hcl a Hsol.
  destruct (rule_forces s s' residents r cant_book_vacation_days day shift 0)
    as (v & Hv & _ & Hzero); try done.
  { apply cant_book_vacation_days_selected. }
  { intros s3 s4 Hrun Hext.
    apply cant_book_vacation_days_emits with (day := day) (shift := shift) in Hrun;
      [done| |done|].
    - by rewrite (ext_days _ _ Hext).
    - by rewrite (ext_shifts _ _ Hext). }
  destruct (rule_forces s s' residents r assign_claimed_days day shift 1)
    as (w & Hw & _ & Hone); try done.
  { apply assign_claimed_days_selected. }
  { intros s3 s4 Hrun Hext. by eapply assign_claimed_days_emits. }
  rewrite Hv in Hw. injection Hw as <-.
  specialize (Hzero a Hsol). specialize (Hone a Hsol). lia.
Qed.

Lemma emergency_wednesday_halfday_emits x s3 s4 day shift :
  emergency_wednesday_halfday x s3 = inr (tt, s4) →
  on_emergency x = true →
  day ∈ working_days s3 → day `mod` 7 = Weekday.WEDNESDAY →
  shift ∈ shifts s3 →
  ∃ v, schedule_lookup (schedules s3) (name x) day shift = Ok v ∧
    Ct (lin_rel v Req 0) [] ∈ cp_cts (model s4).
Proof.
  intros H Hem Hday Hwed Hshift. unfold emergency_wednesday_halfday in H.
  rewrite Hem in H.
  apply bind_ok in H as (wd & s0 & H0 & H). inv_run H0.
  loop_elem H day as (sx & sy & [Hx Hsx] & Hrun & Hfry).
  { apply list_elem_of_filter. by split. }
  apply bind_ok in Hrun as (sh & s0 & H0 & Hrun). inv_run H0.
  loop_elem Hrun shift as (sz & sw & [Hz Hsz] & Hrun' & Hfrw).
  { by rewrite (ext_shifts _ _ Hx). }
  apply bind_ok in Hrun' as (v & s0 & H0 & Hrun').
  apply schedule_var_ok in H0 as [Hv ->].
  apply Add_ok in Hrun'. subst sw.
  exists v. rewrite <- Hsx, <- Hsz. split; [done|].
  eapply extends_ct; [|apply added_ct_elem].
  etrans; by apply frame_extends.
Qed.

(** X4.  Under the junior rule set, a resident on rotation from emergency
    (names distinct) is never on call on a working Wednesday: for every
    working day whose index is 2 modulo 7 and every shift, the
    resident's variable is set to 0. *)
Theorem emergency_wednesday_free s s' residents r day shift :
  setup_model s = inr (tt, s') →
  classification s = "junior" →
  residents_info s = Some residents → NoDup (name <$> residents) →
  r ∈ residents → on_emergency r = true →
  day ∈ working_days s → day `mod` 7 = Weekday.WEDNESDAY →
  shift ∈ shifts s →
  ∃ v, schedule_lookup (schedules s') (name r) day shift = Ok v ∧
    Ct (lin_rel v Req 0) [] ∈ cp_cts (model s') ∧
    ∀ a, solution (model s') a → value a v = 0 ∧ ¬ works s' a r day shift.
Proof.
  intros H Hcls Hres Hnd Hr Hem Hday Hwed Hshift.
  destruct (rule_forces s s' residents r emergency_wednesday_halfday day shift 0)
    as (v & Hv & Hct & Hzero); try done.
  { intros fs Hfs. rewrite (select_junior _ Hcls) in Hfs. injection Hfs as <-.
    unfold junior_build_functions. in_list. }
  { intros s3 s4 Hrun Hext.
    apply emergency_wednesday_halfday_emits with (day := day) (shift := shift)
      in Hrun; [done|done| |done|].
    - by rewrite (ext_working_days _ _ Hext).
    - by rewrite (ext_shifts _ _ Hext). }
  exists v. split_and!; try done. intros a Hsol.
  specialize (Hzero a Hsol). split; [done|].
  rewrite (works_value _ _ _ _ _ _ Hv). lia.
Qed.

(** ** Rules that ran on the resident's own table *)

Lemma rule_ran s s' residents r (rule : Resident → M unit) :
  setup_model s = inr (tt, s') →
  residents_info s = Some residents → NoDup (name <$> residents) →
  r ∈ residents →
  (∀ fs, select_build_functions (classification s) = Some fs → rule ∈ fs) →
  ∃ rows s3 s4,
    rule r s3 = inr (tt, s4) ∧
    extends (set_penalties [] s) s3 ∧ extends s4 s' ∧
    schedules s3 !! name r = Some rows ∧
    schedules s' !! name r = Some rows ∧ bool_rows (model s') rows.
Proof.
  intros H Hres Hnd Hr Hsel.
  destruct (rule_applied s s' residents r)
    as (x & fs & rows & _ & _ & Hx & Hfs & Hrows & Hb & Hrule); try done.
  specialize (Hx Hnd). subst x.
  destruct (Hrule rule (Hsel _ Hfs)) as (s3 & s4 & Hrun & Hext3 & Hext4 & Hsch).
  by exists rows, s3, s4.
Qed.

Lemma first_shift_var_entry s s' r day :
  shifts s = shifts s' →
  schedules s !! name r = schedules s' !! name r →
  first_shift_var s r day = first_shift_var s' r day.
Proof.
  intros Hsh Hsch. unfold first_shift_var. rewrite Hsh.
  destruct (py_first (shifts s')); simpl; [done|].
  by apply schedule_lookup_entry.
Qed.

Lemma list_lookup_snoc {A} (l : list A) x : (l ++ [x]) !! length l = Some x.
Proof. by apply list_lookup_middle. Qed.

Lemma list_lookup_snoc2 {A} (l : list A) x y :
  ((l ++ [x]) ++ [y]) !! length l = Some x.
Proof. rewrite <- (assoc_L (++)). by apply list_lookup_middle. Qed.

Lemma var_named_decl m v label lb ub :
  cp_vars m !! v = Some (VarDecl label lb ub) → var_named m v label.
Proof. unfold var_named. by intros ->. Qed.

(** ** Half days *)

Lemma prefer_full_day_call_emits x s3 s4 day :
  prefer_full_day_call x s3 = inr (tt, s4) → day ∈ days s3 →
  ∃ f l va vb flag pen,
    py_first (shifts s3) = Ok f ∧ py_last (shifts s3) = Ok l ∧
    schedule_lookup (schedules s3) (name x) day f = Ok va ∧
    schedule_lookup (schedules s3) (name x) day l = Ok vb ∧
    cp_vars (model s4) !! flag
      = Some (VarDecl ("full_day_" +:+ name x +:+ "_" +:+ pretty day) 0 1) ∧
    cp_vars (model s4) !! pen
      = Some (VarDecl ("penalty_" +:+ name x +:+ "_halfday_" +:+ pretty day)
                0 16) ∧
    Ct (BoolXOr [Pos va; Pos vb; Neg flag]) [] ∈ cp_cts (model s4) ∧
    Ct (lin_rel pen Rge (half_day_call_penalty s3)) [Pos flag]
      ∈ cp_cts (model s4) ∧
    pen ∈ penalty_list s4.
Proof.
  intros H Hday. unfold prefer_full_day_call in H.
  apply bind_ok in H as (ds & s0 & H0 & H). inv_run H0.
  loop_elem H day as (sx & sy & [Hx Hsx] & Hrun & [Hy _]); [done|].
  apply bind_ok in Hrun as (flag & s1 & H1 & Hrun).
  apply NewIntVar_ok in H1 as [-> ->].
  apply bind_ok in Hrun as (pen & s2 & H2 & Hrun).
  apply NewIntVar_ok in H2 as [-> ->].
  apply bind_ok in Hrun as (f & s0 & H0 & Hrun).
  apply first_shift_ok in H0 as [Hf ->].
  apply bind_ok in Hrun as (va & s0 & H0 & Hrun).
  apply schedule_var_ok in H0 as [Hva ->].
  apply bind_ok in Hrun as (l & s0 & H0 & Hrun).
  apply last_shift_ok in H0 as [Hl ->].
  apply bind_ok in Hrun as (vb & s0 & H0 & Hrun).
  apply schedule_var_ok in H0 as [Hvb ->].
  apply bind_ok in Hrun as ([] & s5 & H5 & Hrun). apply Add_ok in H5. subst s5.
  apply bind_ok in Hrun as (hp & s0 & H0 & Hrun). inv_run H0.
  apply bind_ok in Hrun as ([] & s6 & H6 & Hrun). apply AddIf_ok in H6. subst s6.
  apply penalties_append_ok in Hrun as [_ Hsy]. subst sy.
  simpl in Hf, Hva, Hl, Hvb.
  rewrite (ext_shifts _ _ Hx) in Hf, Hl. rewrite Hsx in Hva, Hvb.
  eexists f, l, va, vb, _, _. split_and!; try done.
  - eapply extends_var; [done|]. simpl. apply list_lookup_snoc2.
  - eapply extends_var; [done|]. simpl. apply list_lookup_snoc.
  - eapply extends_ct; [done|]. simpl.
    apply elem_of_app. left. apply elem_of_app. right. by left.
  - eapply extends_ct; [done|]. simpl.
    rewrite <- (ext_half_day_call_penalty _ _ Hx).
    apply elem_of_app. right. by left.
  - eapply extends_penalty; [done|]. simpl. apply elem_of_app. right. by left.
Qed.

(** X5.  Under the junior rule set, for every resident (names distinct)
    and every day, the flag [full_day_<name>_<day>] is set in a solution
    exactly when the resident works one of the first and last shifts of
    the day and not the other, and then the penalty variable
    [penalty_<name>_halfday_<day>], which is part of the objective, is at
    least [half_day_call_penalty]. *)
Theorem half_day_call_penalised s s' residents r day :
  setup_model s = inr (tt, s') →
  classification s = "junior" →
  residents_info s = Some residents → NoDup (name <$> residents) →
  r ∈ residents → day ∈ days s →
  ∃ va vb flag pen,
    first_shift_var s' r day = Ok va ∧ last_shift_var s' r day = Ok vb ∧
    var_named (model s') flag
      ("full_day_" +:+ name r +:+ "_" +:+ pretty day) ∧
    var_named (model s') pen
      ("penalty_" +:+ name r +:+ "_halfday_" +:+ pretty day) ∧
    pen ∈ default [] (cp_objective (model s')) ∧
    ∀ a, solution (model s') a →
      (value a flag = 1 ↔ value a va ≠ value a vb) ∧
      (value a va ≠ value a vb → half_day_call_penalty s ≤ value a pen).
Proof.
  intros H Hcls Hres Hnd Hr Hday.
  destruct (rule_ran s s' residents r prefer_full_day_call)
    as (rows & s3 & s4 & Hrun & Hext3 & Hext4 & Hsch & Hrows & Hb); try done.
  { intros fs Hfs. rewrite (select_junior _ Hcls) in Hfs. injection Hfs as <-.
    unfold junior_build_functions. in_list. }
  apply prefer_full_day_call_emits with (day := day) in Hrun
    as (f & l & va & vb & flag & pen & Hf & Hl & Hva & Hvb & Hflag & Hpen
        & Hxor & Hge & Hin).
  2:{ by rewrite (ext_days _ _ Hext3). }
  assert (shifts s' = shifts s3) as Hsh.
  { by rewrite (ext_shifts _ _ (setup_model_extends _ _ H)),
       (ext_shifts _ _ Hext3). }
  assert (∀ d sh, schedule_lookup (schedules s') (name r) d sh
                  = schedule_lookup (schedules s3) (name r) d sh) as Hsame.
  { intros d sh. apply schedule_lookup_entry. by rewrite Hrows, Hsch. }
  rewrite (ext_half_day_call_penalty _ _ Hext3) in Hge. simpl in Hge.
  exists va, vb, flag, pen. split_and!.
  - unfold first_shift_var. rewrite Hsh, Hf. simpl. by rewrite Hsame.
  - unfold last_shift_var. rewrite Hsh, Hl. simpl. by rewrite Hsame.
  - eapply var_named_decl, extends_var; done.
  - eapply var_named_decl, extends_var; done.
  - rewrite (setup_model_objective _ _ H). simpl. by eapply extends_penalty.
  - intros a Hsol.
    assert (bool_var (model s') va) as Hba.
    { eapply schedule_lookup_bool; [done|done|]. by rewrite Hsame. }
    assert (bool_var (model s') vb) as Hbb.
    { eapply schedule_lookup_bool; [done|done|]. by rewrite Hsame. }
    assert (bool_var (model s') flag) as Hbf.
    { eapply bool_var_lookup; [by eapply extends_var|done|done]. }
    destruct (solution_bool _ _ _ Hsol Hba) as [Ha|Ha];
      destruct (solution_bool _ _ _ Hsol Hbb) as [Hb'|Hb'];
      destruct (solution_bool _ _ _ Hsol Hbf) as [Hfl|Hfl];
      pose proof (solution_body _ _ _ Hsol (extends_ct _ _ _ Hext4 Hxor)) as Hx;
      pose proof (solution_body_if _ _ _ _ Hsol (extends_ct _ _ _ Hext4 Hge))
        as Hp;
      unfold body_holds, count_true, lit_holds, lit_value in Hx, Hp;
      simpl in Hx; rewrite Ha, Hb', Hfl in Hx; simpl in Hx;
      try discriminate Hx;
      rewrite Ha, Hb', Hfl; (split; [split; [done|]; intros ?; lia|]);
      intros Hne; try lia;
      specialize (Hp Hfl);
      unfold lin_rel, rel_holds, lin_value, sum_values in Hp; simpl in Hp; lia.
Qed.

(** ** The weekly count *)

Lemma res_collect_reads {A B} (l : list A) (c : A → M B)
    (g : A → Solver → result B) :
  (∀ x s b s', c x s = inr (b, s') → g x s = Ok b ∧ s' = s) →
  ∀ s ys s', collect l c s = inr (ys, s') →
    res_collect l (λ x, g x s) = Ok ys ∧ s' = s.
Proof.
  intros Hc. induction l as [|x l IH]; intros s ys s' H; simpl in H.
  - inv_run H. done.
  - apply bind_ok in H as (y & s1 & H1 & H).
    apply bind_ok in H as (rest & s2 & H2 & H). inv_run H.
    apply Hc in H1 as [H1 ->]. apply IH in H2 as [H2 ->].
    split; [|done]. simpl. rewrite H1. simpl. by rewrite H2.
Qed.

Lemma res_collect_ext {A B} (l : list A) (f g : A → result B) :
  (∀ x, f x = g x) → res_collect l f = res_collect l g.
Proof.
  intros Hfg. induction l as [|x l IH]; simpl; [done|]. by rewrite Hfg, IH.
Qed.

Lemma day_vars_entry s s' r day :
  shifts s = shifts s' →
  schedules s !! name r = schedules s' !! name r →
  day_vars s r day = day_vars s' r day.
Proof.
  intros Hsh Hsch. unfold day_vars. rewrite Hsh.
  apply res_collect_ext. intros sh. by apply schedule_lookup_entry.
Qed.

Lemma week_vars_entry s s' r week :
  shifts s = shifts s' →
  schedules s !! name r = schedules s' !! name r →
  week_vars s r week = week_vars s' r week.
Proof.
  intros Hsh Hsch. unfold week_vars. f_equal.
  apply res_collect_ext. intros day. by apply day_vars_entry.
Qed.

Lemma NewIntVar_emits lb ub label s v s' :
  NewIntVar lb ub label s = inr (v, s') →
  frame s s' ∧ cp_vars (model s') !! v = Some (VarDecl label lb ub).
Proof.
  intros H. split; [by eapply frame_NewIntVar|].
  apply NewIntVar_ok in H as [-> ->]. simpl. apply list_lookup_snoc.
Qed.

Lemma Add_emits body s u s' :
  Add body s = inr (u, s') → frame s s' ∧ Ct body [] ∈ cp_cts (model s').
Proof.
  intros H. split; [destruct u; by eapply frame_Add|].
  apply Add_ok in H as ->. apply added_ct_elem.
Qed.

Lemma AddIf_emits body l s u s' :
  AddIf body l s = inr (u, s') →
  frame s s' ∧ Ct body [l] ∈ cp_cts (model s').
Proof.
  intros H. split; [destruct u; by eapply frame_AddIf|].
  apply AddIf_ok in H as ->. apply added_ct_elem.
Qed.

Lemma disperse_call_emits x s3 s4 week :
  disperse_call x s3 = inr (tt, s4) →
  0 ≤ week < num_days s3 `div` Weekday.len →
  ∃ vs flag,
    week_vars s3 x week = Ok vs ∧
    cp_vars (model s4) !! flag
      = Some (VarDecl (name x +:+ "_week_" +:+ pretty week +:+ "_exceeds_max")
                0 1) ∧
    Ct (Linear (lin_sum vs) Rle (lin_int (max_shifts_per_week s3))) [Neg flag]
      ∈ cp_cts (model s4) ∧
    Ct (Linear (lin_sum vs) Rgt (lin_int (max_shifts_per_week s3))) [Pos flag]
      ∈ cp_cts (model s4).
Proof.
  intros H Hweek. unfold disperse_call in H.
  apply bind_ok in H as (n & s0 & H0 & H). inv_run H0.
  loop_elem H week as (sx & sy & [Hx Hsx] & Hrun & [Hy _]).
  { unfold py_range. apply elem_of_seqZ. lia. }
  apply bind_ok in Hrun as (per_day & s1 & H1 & Hrun).
  apply (res_collect_reads _ _ (λ day s, day_vars s x day)) in H1 as [Hpd ->].
  2:{ intros day s1' row s2' Hrow.
      apply bind_ok in Hrow as (sh & s0 & H0 & Hrow). inv_run H0.
      apply (res_collect_reads _ _
        (λ am_pm s, schedule_lookup (schedules s) (name x) day am_pm))
        in Hrow as [Hrow ->].
      - done.
      - intros am_pm sa v sb Hv. by apply schedule_var_ok in Hv. }
  apply bind_ok in Hrun as (flag & s1 & H1 & Hrun).
  apply NewIntVar_emits in H1 as [[Hf1 _] Hflag].
  apply bind_ok in Hrun as (cap & s0 & H0 & Hrun). inv_run H0.
  apply bind_ok in Hrun as ([] & s5 & H5 & Hrun).
  apply AddIf_emits in H5 as [[Hf5 _] Hle].
  apply bind_ok in Hrun as (cap' & s0 & H0 & Hrun). inv_run H0.
  apply bind_ok in Hrun as ([] & s6 & H6 & Hrun).
  apply AddIf_emits in H6 as [[Hf6 _] Hgt].
  assert (extends s6 sy) as Hf7.
  { apply frame_extends.
    lazymatch type of Hrun with
    | ?c _ = _ => assert (preserves frame c) as Hp by frame_method
    end.
    by eapply Hp. }
  rewrite (ext_max_shifts_per_week _ _ Hf5) in Hgt.
  rewrite (ext_max_shifts_per_week _ _ Hf1) in Hle, Hgt.
  rewrite (ext_max_shifts_per_week _ _ Hx) in Hle, Hgt.
  exists (concat per_day), flag. split_and!.
  - unfold week_vars.
    rewrite (res_collect_ext _ _ (λ day, day_vars sx x day)).
    + by rewrite Hpd.
    + intros day. apply day_vars_entry; [by rewrite (ext_shifts _ _ Hx)|].
      by rewrite Hsx.
  - eapply extends_var; [done|]. eapply extends_var; [done|].
    eapply extends_var; [done|]. by eapply extends_var.
  - eapply extends_ct; [done|]. eapply extends_ct; [done|].
    by eapply extends_ct.
  - eapply extends_ct; [done|]. by eapply extends_ct.
Qed.

Lemma disperse_call_selected cls fs :
  select_build_functions cls = Some fs → disperse_call ∈ fs.
Proof.
  unfold select_build_functions. intros H.
  repeat case_bool_decide; simplify_eq.
  - unfold junior_build_functions. in_list.
  - unfold senior_build_functions. in_list.
Qed.

(** X6.  For every resident (names distinct) and every complete week of
    the horizon, the flag [<name>_week_<w>_exceeds_max] is set in a
    solution exactly when the resident's shifts of that week number more
    than [max_shifts_per_week]. *)
Theorem weekly_excess_flagged s s' residents r week :
  setup_model s = inr (tt, s') →
  residents_info s = Some residents → NoDup (name <$> residents) →
  r ∈ residents →
  0 ≤ week < num_days s `div` 7 →
  ∃ vs flag,
    week_vars s' r week = Ok vs ∧
    var_named (model s') flag
      (name r +:+ "_week_" +:+ pretty week +:+ "_exceeds_max") ∧
    ∀ a, solution (model s') a →
      (value a flag = 1 ↔ max_shifts_per_week s < sum_values a vs).
Proof.
  intros H Hres Hnd Hr Hweek.
  destruct (rule_ran s s' residents r disperse_call)
    as (rows & s3 & s4 & Hrun & Hext3 & Hext4 & Hsch & Hrows & Hb); try done.
  { apply disperse_call_selected. }
  apply disperse_call_emits with (week := week) in Hrun
    as (vs & flag & Hvs & Hflag & Hle & Hgt).
  2:{ by rewrite (ext_num_days _ _ Hext3). }
  rewrite (ext_max_shifts_per_week _ _ Hext3) in Hle, Hgt. simpl in Hle, Hgt.
  exists vs, flag. split_and!.
  - rewrite <- Hvs. apply week_vars_entry; [|by rewrite Hrows, Hsch].
    by rewrite (ext_shifts _ _ (setup_model_extends _ _ H)),
      (ext_shifts _ _ Hext3).
  - eapply var_named_decl, extends_var; done.
  - intros a Hsol.
    assert (bool_var (model s') flag) as Hbf.
    { eapply bool_var_lookup; [by eapply extends_var|done|done]. }
    pose proof (solution_body_if _ _ _ _ Hsol (extends_ct _ _ _ Hext4 Hle))
      as Hl.
    pose proof (solution_body_if _ _ _ _ Hsol (extends_ct _ _ _ Hext4 Hgt))
      as Hg.
    unfold lit_holds, lit_value, body_holds, rel_holds, lin_value, lin_sum,
      lin_int in Hl, Hg. simpl in Hl, Hg.
    destruct (solution_bool _ _ _ Hsol Hbf) as [Hf|Hf]; rewrite Hf in *.
    + split; [done|]. intros Hlt. specialize (Hl eq_refl). lia.
    + split; [|done]. intros _. specialize (Hg eq_refl). lia.
Qed.

(** ** The weekend window *)




(** ** The trauma balance *)

Lemma add_resident_model_balance cls resident s s' :
  add_resident_model resident (select_build_functions cls) s = inr (tt, s') →
  on_trauma resident = true → classification s = "junior" →
  ∃ rows s2,
    extends s s2 ∧ schedules s2 = <[name resident := rows]> (schedules s) ∧
    balance_trauma_call resident s2 = inr (tt, s').
Proof.
  intros H Htr Hcls. unfold add_resident_model in H.
  apply bind_ok in H as (fs & s0 & H0 & H). inv_run H0.
  apply of_option_ok in Hlift.
  apply bind_ok in H as (ds & s0' & H0 & H). inv_run H0.
  apply bind_ok in H as (rows & s1 & Hrows & H).
  apply collect_rows_bool_vars in Hrows as [[Hext1 Hsch1] _].
  apply bind_ok in H as ([] & s1' & H1 & H). inv_run H1.
  apply bind_ok in H as ([] & s2 & Hfs & H).
  apply bind_ok in H as (c & s2' & H2 & H). inv_run H2.
  assert (frame (set_schedules (<[name resident:=rows]> (schedules s1)) s1) s2)
    as [Hext2 Hsch2].
  { eapply preserves_for_each; [apply _| |done].
    intros func Hfunc. by eapply frame_build_functions. }
  assert (extends s s2) as Hext.
  { etrans; [done|]. etrans; [apply extends_set_schedules|done]. }
  rewrite Htr, (ext_classification _ _ Hext), Hcls in H. simpl in H.
  exists rows, s2. split_and!; try done.
  rewrite Hsch2. simpl. by rewrite Hsch1.
Qed.

Lemma balance_ran s s' residents r :
  setup_model s = inr (tt, s') → classification s = "junior" →
  residents_info s = Some residents → r ∈ residents → on_trauma r = true →
  ∃ rows s3 s4 l1 l2,
    residents = l1 ++ r :: l2 ∧
    balance_trauma_call r s3 = inr (tt, s4) ∧
    extends (set_penalties [] s) s3 ∧ extends s4 s' ∧
    schedules s3 !! name r = Some rows ∧
    (name r ∉ name <$> l2 → schedules s' !! name r = Some rows).
Proof.
  intros H Hcls Hres Hr Htr.
  apply setup_model_ok in H
    as (residents' & s1 & s2 & Hres' & Hloop & Hcov & Hfin).
  rewrite Hres in Hres'. injection Hres' as <-.
  assert (frame s1 s2) as Hfr12.
  { eapply preserves_for_each; [apply _| |done].
    intros day _. apply frame_coverage_body. }
  assert (frame s1 s') as Hfr1 by (by etrans).
  apply list_elem_of_split in Hr as (l1 & l2 & Hl).
  rewrite Hl in Hloop. apply for_each_app in Hloop as (sa & Ha & Hloop).
  simpl in Hloop. apply bind_ok in Hloop as ([] & sb & Hb & Hloop).
  assert (extends (set_penalties [] s) sa) as Hexta.
  { eapply preserves_for_each; [apply _| |done].
    intros y _. apply extends_add_resident_model. }
  assert (extends sb s1) as Hextb.
  { eapply preserves_for_each; [apply _| |done].
    intros y _. apply extends_add_resident_model. }
  apply add_resident_model_balance in Hb as (rows & s3 & Hext3 & Hsch & Hrun);
    [|done|by rewrite (ext_classification _ _ Hexta)].
  exists rows, s3, sb, l1, l2. split_and!; try done.
  - by etrans.
  - etrans; [done|]. by apply frame_extends.
  - by rewrite Hsch, lookup_insert_eq.
  - intros Hl2.
    assert (keeps (name r) sb s1) as [_ Hkeep].
    { eapply preserves_for_each; [apply _| |done].
      intros y Hy. apply keeps_add_resident_model. intros Hname.
      apply Hl2. rewrite <- Hname. apply list_elem_of_fmap. by exists y. }
    destruct Hfr1 as [_ ->]. rewrite Hkeep.
    destruct (frame_balance_trauma_call _ _ _ _ Hrun) as [_ ->].
    by rewrite Hsch, lookup_insert_eq.
Qed.

Lemma balance_trauma_call_ok x s3 s4 :
  balance_trauma_call x s3 = inr (tt, s4) →
  ∃ residents ratio f lo up vs,
    residents_info s3 = Some residents ∧
    int_truediv (len (working_days s3))
      (trauma_days_available residents (working_days s3)) = Ok ratio ∧
    (∃ day, day ∈ working_days s3 ∧ day ∉ on_vacation_days x) ∧
    float_of_int
      (len (working_days s3)
       - count_days (λ day, py_in day (on_vacation_days x)) (days s3)) = Ok f ∧
    lower_of (PFloat (fmul f ratio)) = Ok lo ∧
    upper_of (PFloat (fmul f ratio)) = Ok up ∧
    Forall2 (λ day v, first_shift_var s3 x day = Ok v) (working_days s3) vs ∧
    strictly_bounded x (lin_sum vs) lo up "trauma_shifts" s3 = inr (tt, s4).
Proof.
  intros H. unfold balance_trauma_call in H.
  apply bind_ok in H as (wd & s0 & H0 & H). inv_run H0.
  apply bind_ok in H as (residents & s0 & H0 & H). inv_run H0.
  apply bind_ok in H as (ratio & s0 & H0 & H). inv_run H0.
  apply bind_ok in H as (ds & s0 & H0 & H). inv_run H0.
  apply bind_ok in H as (e & s0 & He & H).
  destruct (existsb _ (working_days s3)) eqn:Hex; [|by inv_run He].
  apply bind_ok in He as (f & s1 & H1 & He). inv_run H1. inv_run He.
  apply bind_ok in H as (up' & s0 & H0 & H). inv_run H0.
  apply bind_ok in H as (up & s0 & H0 & H). inv_run H0.
  apply bind_ok in H as (lo' & s0 & H0 & H). inv_run H0.
  apply bind_ok in H as (lo & s0 & H0 & H). inv_run H0.
  apply bind_ok in H as (vs & s0 & Hvs & H).
  apply (collect_reads _ _ (λ day s, first_shift_var s x day)) in Hvs
    as [Hvs ->].
  2:{ intros day s1 v s2 Hrun. apply bind_ok in Hrun as (f' & s5 & Hf & Hv).
      apply first_shift_ok in Hf as [Hf ->].
      apply schedule_var_ok in Hv as [Hv ->].
      split; [|done]. unfold first_shift_var. rewrite Hf. done. }
  exists residents, ratio, f, lo, up, vs. split_and!; try done.
  - apply existsb_exists in Hex as (day & Hday & Hnot).
    exists day. split; [by apply list_elem_of_In|].
    unfold py_in in Hnot. apply negb_true_iff in Hnot.
    by apply bool_decide_eq_false in Hnot.
  - unfold lower_of. apply res_bind_ok. by exists lo'.
  - unfold upper_of. apply res_bind_ok. by exists up'.
Qed.

(** X8.  Under the junior rule set, for every trauma resident (names
    distinct), with [ratio] the number of working days divided by the
    working days on which trauma residents are available, and
    [e = (working days - the resident's vacation days in the horizon)
    * ratio] in floating point, the number of first shifts that the
    resident works on working days lies, in every solution, between
    [int(e - 1)] and [int(e + 1)]. *)
Theorem trauma_day_shifts_window s s' residents r :
  setup_model s = inr (tt, s') → classification s = "junior" →
  residents_info s = Some residents → NoDup (name <$> residents) →
  r ∈ residents → on_trauma r = true →
  ∃ ratio f lo up vs,
    int_truediv (len (working_days s))
      (trauma_days_available residents (working_days s)) = Ok ratio ∧
    float_of_int
      (len (working_days s)
       - count_days (λ day, py_in day (on_vacation_days r)) (days s)) = Ok f ∧
    lower_of (PFloat (fmul f ratio)) = Ok lo ∧
    upper_of (PFloat (fmul f ratio)) = Ok up ∧
    Forall2 (λ day v, first_shift_var s' r day = Ok v) (working_days s) vs ∧
    ∀ a, solution (model s') a → lo ≤ sum_values a vs ≤ up.
Proof.
  intros H Hcls Hres Hnd Hr Htr.
  destruct (balance_ran s s' residents r)
    as (rows & s3 & s4 & l1 & l2 & Hl & Hrun & Hext3 & Hext4 & Hsch & Hrows);
    try done.
  assert (schedules s' !! name r = Some rows) as Hrows'.
  { apply Hrows. rewrite Hl, fmap_app in Hnd. simpl in Hnd.
    apply NoDup_app in Hnd as (_ & _ & Hnd). by apply NoDup_cons in Hnd as [? _]. }
  apply balance_trauma_call_ok in Hrun
    as (residents' & ratio & f & lo & up & vs & Hres' & Hratio & _ & Hf & Hlo
        & Hup & Hvs & Hsb).
  rewrite (ext_residents_info _ _ Hext3) in Hres'. simpl in Hres'.
  rewrite Hres in Hres'. injection Hres' as <-.
  rewrite (ext_working_days _ _ Hext3) in Hratio, Hf, Hvs.
  rewrite (ext_days _ _ Hext3) in Hf. simpl in *.
  exists ratio, f, lo, up, vs. split_and!; try done.
  - eapply Forall2_impl; [done|]. intros day v Hv. simpl in Hv.
    rewrite <- Hv. apply first_shift_var_entry.
    + by rewrite (ext_shifts _ _ (setup_model_extends _ _ H)),
        (ext_shifts _ _ Hext3).
    + by rewrite Hrows', Hsch.
  - intros a Hsol.
    destruct (strictly_bounded_sound _ _ _ _ _ _ _ s' Hsb)
      as (lf & uf & rest & _ & _ & Hsound); [done|].
    destruct (Hsound a Hsol) as (Hwin & _).
    unfold lin_value, lin_sum in Hwin. simpl in Hwin. lia.
Qed.

(** X9.  A junior model compiles only if every registered trauma resident
    is off vacation on at least one working day (otherwise
    [expected_day_shifts] is never bound), and the trauma residents have
    an available working day between them (otherwise the trauma ratio
    divides by zero). *)
Theorem compiled_trauma_junior_available s s' residents r :
  setup_model s = inr (tt, s') → classification s = "junior" →
  residents_info s = Some residents →
  r ∈ residents → on_trauma r = true →
  trauma_days_available residents (working_days s) ≠ 0 ∧
  ∃ day, day ∈ working_days s ∧ day ∉ on_vacation_days r.
Proof.
  intros H Hcls Hres Hr Htr.
  destruct (balance_ran s s' residents r)
    as (rows & s3 & s4 & l1 & l2 & Hl & Hrun & Hext3 & Hext4 & Hsch & Hrows);
    try done.
  apply balance_trauma_call_ok in Hrun
    as (residents' & ratio & f & lo & up & vs & Hres' & Hratio & Hday & _).
  rewrite (ext_residents_info _ _ Hext3) in Hres'. simpl in Hres'.
  rewrite Hres in Hres'. injection Hres' as <-.
  rewrite (ext_working_days _ _ Hext3) in Hratio, Hday. simpl in *.
  split; [|done]. intros Hz. rewrite Hz in Hratio.
  unfold int_truediv in Hratio. by destruct (len (working_days s)).
Qed.

(** ** Lists *)

Lemma list_remove_first_Some x l l' :
  list_remove_first x l = Some l' → l ≡ₚ x :: l'.
Proof.
  revert l'. induction l as [|y l IH]; intros l' H; simpl in H; [done|].
  case_decide as Hxy.
  - injection H as <-. by subst.
  - destruct (list_remove_first x l) as [l0|] eqn:Hl; [|done].
    injection H as <-. rewrite (IH l0 eq_refl). apply Permutation_swap.
Qed.

Lemma list_remove_first_None x l :
  list_remove_first x l = None ↔ x ∉ l.
Proof.
  induction l as [|y l IH]; simpl.
  - split; [intros _; apply not_elem_of_nil|done].
  - case_decide as Hxy.
    + split; [done|]. intros Hn. exfalso. apply Hn. subst. left.
    + rewrite not_elem_of_cons. destruct (list_remove_first x l).
      * split; [done|]. intros [_ Hn]. by apply IH in Hn.
      * split; [|done]. intros _. split; [done|]. by apply IH.
Qed.

Lemma py_sort_Permutation l : py_sort l ≡ₚ l.
Proof. apply merge_sort_Permutation. Qed.

Lemma py_sort_Sorted l : Sorted Z.le (py_sort l).
Proof. apply (Sorted_merge_sort Z.le). Qed.

(** ** Holidays *)

Lemma add_holiday_run day s :
  add_holiday day s =
    match list_remove_first day (working_days s) with
    | Some w' =>
        inr (tt, set_day_lists (py_sort w')
                   (py_sort (weekends_and_holidays s ++ [day])) s)
    | None => Raise ValueError
    end.
Proof.
  unfold add_holiday, mbind, M_bind, gets, lift, modify, of_option, Ok, Raise.
  by destruct (list_remove_first day (working_days s)).
Qed.

(** X10.  [add_holiday] raises [ValueError] for a day that is not in
    [working_days]; for a day that is, it takes one occurrence of the
    day out of [working_days], puts the day into
    [weekends_and_holidays], leaves both lists sorted, and changes
    nothing else of the model, the days or the registry. *)
Theorem add_holiday_moves_day day s :
  (day ∉ working_days s → add_holiday day s = Raise ValueError) ∧
  (day ∈ working_days s →
   ∃ s', add_holiday day s = inr (tt, s') ∧
     working_days s ≡ₚ day :: working_days s' ∧
     weekends_and_holidays s' ≡ₚ day :: weekends_and_holidays s ∧
     Sorted Z.le (working_days s') ∧
     Sorted Z.le (weekends_and_holidays s') ∧
     days s' = days s ∧ model s' = model s ∧
     residents_info s' = residents_info s).
Proof.
  rewrite add_holiday_run. split.
  - intros Hn. apply list_remove_first_None in Hn. by rewrite Hn.
  - intros Hin.
    destruct (list_remove_first day (working_days s)) as [w'|] eqn:Hrem.
    2:{ apply list_remove_first_None in Hrem. done. }
    eexists. split; [done|]. simpl. split_and!; try done.
    + rewrite py_sort_Permutation. by apply list_remove_first_Some.
    + rewrite py_sort_Permutation. by rewrite Permutation_app_comm.
    + apply py_sort_Sorted.
    + apply py_sort_Sorted.
Qed.

Lemma add_holiday_inv day s s' :
  add_holiday day s = inr (tt, s') →
  working_days s ≡ₚ day :: working_days s' ∧
  weekends_and_holidays s' ≡ₚ weekends_and_holidays s ++ [day] ∧
  s' = set_day_lists (working_days s') (weekends_and_holidays s') s.
Proof.
  rewrite add_holiday_run.
  destruct (list_remove_first day (working_days s)) as [w'|] eqn:Hrem; [|done].
  intros [= <-]. simpl. split_and!; try done.
  - rewrite py_sort_Permutation. by apply list_remove_first_Some.
  - by rewrite py_sort_Permutation.
Qed.

Lemma set_day_lists_twice w h w' h' s :
  set_day_lists w' h' (set_day_lists w h s) = set_day_lists w' h' s.
Proof. done. Qed.

Lemma add_holidays_inv hs : ∀ s s',
  for_each hs add_holiday s = inr (tt, s') →
  working_days s ≡ₚ hs ++ working_days s' ∧
  weekends_and_holidays s' ≡ₚ weekends_and_holidays s ++ hs ∧
  s' = set_day_lists (working_days s') (weekends_and_holidays s') s.
Proof.
  induction hs as [|h hs IH]; intros s s' H; simpl in H.
  - inv_run H. split_and!; [done|by rewrite app_nil_r|by destruct s].
  - apply bind_ok in H as ([] & s1 & H1 & H).
    apply add_holiday_inv in H1 as (Hw1 & Hh1 & Hs1).
    apply IH in H as (Hw & Hh & Hs). split_and!.
    + rewrite Hw1, Hw. simpl. done.
    + rewrite Hh, Hh1. by rewrite <- (assoc_L (++)).
    + rewrite Hs, Hs1. done.
Qed.

Lemma add_holidays_run hs : ∀ s,
  NoDup hs → (∀ h, h ∈ hs → h ∈ working_days s) →
  ∃ s', for_each hs add_holiday s = inr (tt, s').
Proof.
  induction hs as [|h hs IH]; intros s Hnd Hin; simpl.
  - by exists s.
  - apply NoDup_cons in Hnd as [Hh Hnd].
    assert (∃ s1, add_holiday h s = inr (tt, s1)
                  ∧ working_days s ≡ₚ h :: working_days s1)
      as (s1 & Hrun & Hperm).
    { rewrite add_holiday_run.
      destruct (list_remove_first h (working_days s)) as [w'|] eqn:Hrem.
      - eexists. split; [done|]. simpl. rewrite py_sort_Permutation.
        by apply list_remove_first_Some.
      - apply list_remove_first_None in Hrem. exfalso. apply Hrem, Hin. left. }
    destruct (IH s1 Hnd) as (s' & Hs').
    { intros k Hk. assert (k ∈ working_days s) as Hks by (apply Hin; by right).
      rewrite Hperm in Hks. apply elem_of_cons in Hks as [->|]; done. }
    exists s'. unfold mbind, M_bind. by rewrite Hrun.
Qed.

(** ** Weekday lists *)

(** Linear arithmetic on the weekday [d mod 7]. *)
Ltac weekday_lia d :=
  pose proof (Z.mod_pos_bound d 7 ltac:(lia));
  pose proof (Z.div_mod d 7 ltac:(lia));
  generalize dependent (d `mod` 7); generalize dependent (d `div` 7);
  intros; lia.

Lemma elem_of_build_weekday_list n w d :
  0 ≤ w < 7 →
  d ∈ build_weekday_list n w ↔ w ≤ d < n ∧ d `mod` 7 = w.
Proof.
  intros Hw. unfold build_weekday_list, py_range3, Weekday.len.
  rewrite list_elem_of_fmap. split.
  - intros (k & -> & Hk). apply elem_of_seqZ in Hk.
    assert (k + 1 ≤ (n - w + 7 - 1) `div` 7) as Hk' by lia.
    assert (7 * (k + 1) ≤ n - w + 7 - 1) as Hle.
    { etrans; [apply Z.mul_le_mono_nonneg_l; [lia|exact Hk']|].
      apply Z.mul_div_le. lia. }
    split; [lia|].
    rewrite (Z.mul_comm 7 k), Z.mod_add by lia.
    apply Z.mod_small. lia.
  - intros [Hd Hmod]. exists (d `div` 7).
    pose proof (Z.div_mod d 7 ltac:(lia)) as Hdm. rewrite Hmod in Hdm.
    split; [lia|]. apply elem_of_seqZ.
    split; [apply Z.div_pos; lia|].
    apply Z.div_lt_upper_bound; [lia|].
    assert (7 * (d `div` 7) + 7 ≤ 7 * ((n - w + 7 - 1) `div` 7)); [|lia].
    assert (d `div` 7 + 1 ≤ (n - w + 7 - 1) `div` 7); [|lia].
    apply Z.div_le_lower_bound; lia.
Qed.

Lemma NoDup_build_weekday_list n w : NoDup (build_weekday_list n w).
Proof.
  unfold build_weekday_list, py_range3, Weekday.len.
  apply NoDup_fmap_2; [|apply NoDup_seqZ].
  intros x y Hxy. lia.
Qed.

Lemma elem_of_weekdays n d :
  d ∈ concat [build_weekday_list n Weekday.MONDAY;
              build_weekday_list n Weekday.TUESDAY;
              build_weekday_list n Weekday.WEDNESDAY;
              build_weekday_list n Weekday.THURSDAY;
              build_weekday_list n Weekday.FRIDAY]
  ↔ 0 ≤ d < n ∧ d `mod` 7 < 5.
Proof.
  cbn [concat]. rewrite app_nil_r, !elem_of_app.
  rewrite !elem_of_build_weekday_list by (unfold Weekday.MONDAY,
    Weekday.TUESDAY, Weekday.WEDNESDAY, Weekday.THURSDAY, Weekday.FRIDAY; lia).
  unfold Weekday.MONDAY, Weekday.TUESDAY, Weekday.WEDNESDAY,
    Weekday.THURSDAY, Weekday.FRIDAY.
  weekday_lia d.
Qed.

Lemma elem_of_weekends n d :
  d ∈ concat [build_weekday_list n Weekday.SATURDAY;
              build_weekday_list n Weekday.SUNDAY]
  ↔ 0 ≤ d < n ∧ 5 ≤ d `mod` 7.
Proof.
  cbn [concat]. rewrite app_nil_r, !elem_of_app.
  rewrite !elem_of_build_weekday_list by (unfold Weekday.SATURDAY,
    Weekday.SUNDAY; lia).
  unfold Weekday.SATURDAY, Weekday.SUNDAY.
  weekday_lia d.
Qed.

Lemma NoDup_app_mod (l1 l2 : list Z) :
  NoDup l1 → NoDup l2 → (∀ x, x ∈ l1 → x ∈ l2 → False) → NoDup (l1 ++ l2).
Proof. intros ? ? Hd. apply NoDup_app. split_and!; [done| |done]. intros x ? ?. by eapply Hd. Qed.

Lemma NoDup_weekdays n :
  NoDup (concat [build_weekday_list n Weekday.MONDAY;
                 build_weekday_list n Weekday.TUESDAY;
                 build_weekday_list n Weekday.WEDNESDAY;
                 build_weekday_list n Weekday.THURSDAY;
                 build_weekday_list n Weekday.FRIDAY]).
Proof.
  cbn [concat]. rewrite app_nil_r.
  repeat (apply NoDup_app_mod; [apply NoDup_build_weekday_list| |]);
    try apply NoDup_build_weekday_list;
    intros x Hx Hy; rewrite ?elem_of_app in Hy;
    rewrite elem_of_build_weekday_list in Hx
      by (unfold Weekday.MONDAY, Weekday.TUESDAY, Weekday.WEDNESDAY,
            Weekday.THURSDAY, Weekday.FRIDAY; lia);
    repeat (rewrite elem_of_build_weekday_list in Hy
      by (unfold Weekday.MONDAY, Weekday.TUESDAY, Weekday.WEDNESDAY,
            Weekday.THURSDAY, Weekday.FRIDAY; lia));
    unfold Weekday.MONDAY, Weekday.TUESDAY, Weekday.WEDNESDAY,
      Weekday.THURSDAY, Weekday.FRIDAY in *; weekday_lia x.
Qed.

Lemma NoDup_weekends n :
  NoDup (concat [build_weekday_list n Weekday.SATURDAY;
                 build_weekday_list n Weekday.SUNDAY]).
Proof.
  cbn [concat]. rewrite app_nil_r.
  apply NoDup_app_mod; try apply NoDup_build_weekday_list.
  intros x Hx Hy.
  rewrite !elem_of_build_weekday_list in Hx, Hy
    by (unfold Weekday.SATURDAY, Weekday.SUNDAY; lia).
  unfold Weekday.SATURDAY, Weekday.SUNDAY in *. weekday_lia x.
Qed.

(** ** The constructor *)

(** [__init__] taken apart, for a call that registers nobody. *)
Lemma init_ok a s :
  init a = Ok s →
  ∃ d s1,
    (arg_residents_info a = None ∨ arg_residents_info a = Some []) ∧
    fromisoformat (arg_start_date a) = Ok d ∧
    for_each (arg_holidays a) add_holiday (init_second a d (init_first a))
      = inr (tt, s1) ∧
    s = set_model empty_model s1.
Proof.
  unfold init. destruct (init_body a (init_first a)) as [e|[[] s']] eqn:H;
    [done|]. intros [= <-].
  unfold init_body in H.
  apply bind_ok in H as ([] & s0 & H0 & H).
  assert (s0 = init_first a ∧
          (arg_residents_info a = None ∨ arg_residents_info a = Some []))
    as [-> Hnone].
  { destruct (arg_residents_info a) as [[|r rs]|] eqn:Hres.
    - inv_run H0. auto.
    - simpl in H0. apply bind_ok in H0 as ([] & s1 & H1 & _).
      by rewrite add_resident_info_before_nofill in H1.
    - inv_run H0. auto. }
  clear H0.
  apply bind_ok in H as (d & s0 & Hd & H). inv_run Hd.
  apply bind_ok in H as ([] & s0 & Hm & H). inv_run Hm.
  apply bind_ok in H as ([] & s1 & H1 & H). inv_run H.
  by exists d, s1.
Qed.

Lemma init_run a d s1 :
  (arg_residents_info a = None ∨ arg_residents_info a = Some []) →
  fromisoformat (arg_start_date a) = Ok d →
  for_each (arg_holidays a) add_holiday (init_second a d (init_first a))
    = inr (tt, s1) →
  init a = Ok (set_model empty_model s1).
Proof.
  intros Hres Hd Hloop. unfold init, init_body.
  assert (match arg_residents_info a with
          | Some (r :: rs) => for_each (r :: rs) add_resident_info
          | _ => mret tt
          end = mret tt) as -> by (by destruct Hres as [->| ->]).
  unfold mbind, M_bind, mret, M_ret, lift, modify, Ok.
  rewrite Hd. unfold Ok. by rewrite Hloop.
Qed.


(** X11.  After a successful construction, [working_days] holds exactly the
    days of the horizon whose index is 0 to 4 modulo 7 and that are not
    holidays, [weekends_and_holidays] exactly the days whose index is 5
    or 6 modulo 7 and the holidays, and neither list repeats a day. *)
Theorem init_day_lists a s :
  init a = Ok s →
  (∀ d, d ∈ working_days s ↔
        0 ≤ d < arg_num_days a ∧ d `mod` 7 < 5 ∧ d ∉ arg_holidays a) ∧
  (∀ d, d ∈ weekends_and_holidays s ↔
        (0 ≤ d < arg_num_days a ∧ 5 ≤ d `mod` 7) ∨ d ∈ arg_holidays a) ∧
  NoDup (working_days s) ∧ NoDup (weekends_and_holidays s).
Proof.
  intros H. apply init_ok in H as (dt & s1 & _ & _ & Hloop & ->).
  apply add_holidays_inv in Hloop as (Hw & Hh & _). simpl in Hw, Hh. simpl.
  pose proof (NoDup_weekdays (arg_num_days a)) as Hnd.
  rewrite Hw in Hnd. apply NoDup_app in Hnd as (Hndh & Hdisj & Hndw).
  split_and!.
  - intros d. pose proof (elem_of_weekdays (arg_num_days a) d) as Hwd.
    rewrite Hw, elem_of_app in Hwd. split.
    + intros Hd. destruct Hwd as [Hwd _].
      destruct (Hwd (or_intror Hd)) as [? ?]. split; [done|split; [done|]].
      intros Hhol. exact (Hdisj _ Hhol Hd).
    + intros (Hrange & Hweek & Hn). destruct Hwd as [_ Hwd].
      destruct (Hwd (conj Hrange Hweek)) as [?|?]; done.
  - intros d. rewrite <- elem_of_weekends. by rewrite Hh, elem_of_app.
  - done.
  - rewrite Hh. apply NoDup_app_mod; [apply NoDup_weekends|done|].
    intros x Hx Hy. apply elem_of_weekends in Hx.
    assert (x ∈ arg_holidays a ++ working_days s1) as Hxw
      by (apply elem_of_app; by left).
    rewrite <- Hw in Hxw. apply elem_of_weekdays in Hxw. weekday_lia x.
Qed.

(** X12.  For a start date in the format [YYYY-MM-DD], the constructor
    succeeds exactly when no resident list is passed (or an empty one)
    and the holidays are distinct days of the horizon that fall on a
    weekday (index 0 to 4 modulo 7). *)
Theorem init_succeeds_iff a d :
  fromisoformat (arg_start_date a) = Ok d →
  (∃ s, init a = Ok s) ↔
  (arg_residents_info a = None ∨ arg_residents_info a = Some []) ∧
  NoDup (arg_holidays a) ∧
  ∀ h, h ∈ arg_holidays a → 0 ≤ h < arg_num_days a ∧ h `mod` 7 < 5.
Proof.
  intros Hdate. split.
  - intros (s & H). apply init_ok in H as (dt & s1 & Hres & Hd & Hloop & ->).
    apply add_holidays_inv in Hloop as (Hw & _ & _). simpl in Hw.
    pose proof (NoDup_weekdays (arg_num_days a)) as Hnd.
    rewrite Hw in Hnd. apply NoDup_app in Hnd as (Hndh & _ & _).
    split_and!; try done.
    intros h Hh. apply elem_of_weekdays. rewrite Hw. apply elem_of_app. by left.
  - intros (Hres & Hnd & Hhol).
    destruct (add_holidays_run (arg_holidays a)
                (init_second a d (init_first a)) Hnd) as (s1 & Hloop).
    { intros h Hh. simpl. apply elem_of_weekdays. by apply Hhol. }
    exists (set_model empty_model s1). by eapply init_run.
Qed.

(** ** Vacation days on no-fill days *)




(** ** Registering residents *)



Lemma bind_run {A B} (c : M A) (k : A → M B) s a s1 :
  c s = inr (a, s1) → (c ≫= k) s = k a s1.
Proof. unfold mbind, M_bind. by intros ->. Qed.

Lemma attr_run {A} (f : Solver → option A) s a :
  f s = Some a → attr f s = inr (a, s).
Proof. unfold attr. by intros ->. Qed.









(** ** Compiling too early, or for an unknown classification *)

(** X16.  [setup_model] on a freshly constructed solver, before any
    [add_resident_info], raises [AttributeError]: [residents_info] has
    not been assigned. *)
Theorem setup_model_before_residents a s :
  init a = Ok s → setup_model s = Raise AttributeError.
Proof.
  intros H. apply init_registers_nobody in H.
  unfold setup_model.
  rewrite (bind_run _ _ s tt (set_penalties [] s)) by done.
  rewrite (bind_run _ _ _ (classification s) (set_penalties [] s)) by done.
  apply bind_raise. unfold attr. simpl. by rewrite H.
Qed.

(** X17.  With a classification that is neither 'junior' nor 'senior' and
    at least one resident, [setup_model] raises [UnboundLocalError]:
    [build_functions] is never bound. *)
Theorem setup_model_unknown_classification s r rs :
  classification s ≠ "junior" → classification s ≠ "senior" →
  residents_info s = Some (r :: rs) →
  setup_model s = Raise UnboundLocalError.
Proof.
  intros Hj Hs Hres. unfold setup_model.
  rewrite (bind_run _ _ s tt (set_penalties [] s)) by done.
  rewrite (bind_run _ _ _ (classification s) (set_penalties [] s)) by done.
  rewrite (bind_run _ _ _ (r :: rs) (set_penalties [] s))
    by (by apply attr_run).
  apply bind_raise. simpl. apply bind_raise.
  unfold add_resident_model, select_build_functions.
  rewrite !bool_decide_eq_false_2 by done. by apply bind_raise.
Qed.

(** ** Two residents under one name *)

Lemma sum_values_twice a vs i j v :
  (∀ w, w ∈ vs → 0 ≤ value a w) →
  vs !! i = Some v → vs !! j = Some v → i ≠ j →
  2 * value a v ≤ sum_values a vs.
Proof.
  revert i j. induction vs as [|w vs IH]; intros i j Hnn Hi Hj Hne; [done|].
  assert (∀ u, u ∈ vs → 0 ≤ value a u) as Hnn'
    by (intros u Hu; apply Hnn; by right).
  assert (0 ≤ value a w) as Hw by (apply Hnn; left).
  assert (∀ k, vs !! k = Some v → value a v ≤ sum_values a vs) as Hone.
  { clear -Hnn'. induction vs as [|u vs IH]; intros k Hk; [done|].
    assert (0 ≤ value a u) by (apply Hnn'; left).
    assert (0 ≤ sum_values a vs) as Hrest.
    { clear -Hnn'. induction vs as [|z vs IH]; simpl; [done|].
      assert (0 ≤ value a z) by (apply Hnn'; right; left).
      assert (0 ≤ sum_values a vs); [|unfold sum_values in *; lia].
      apply IH. intros y Hy. apply Hnn'.
      apply elem_of_cons in Hy as [->|Hy]; [left|right; by right]. }
    destruct k as [|k]; simpl in Hk.
    - injection Hk as ->. unfold sum_values in *. simpl. lia.
    - assert (value a v ≤ sum_values a vs).
      { apply (IH ltac:(intros y Hy; apply Hnn'; by right) k Hk). }
      unfold sum_values in *. simpl. lia. }
  destruct i as [|i], j as [|j]; simpl in Hi, Hj; try done.
  - injection Hi as ->. specialize (Hone _ Hj).
    unfold sum_values in *. simpl. lia.
  - injection Hj as ->. specialize (Hone _ Hi).
    unfold sum_values in *. simpl. lia.
  - assert (2 * value a v ≤ sum_values a vs).
    { apply (IH i j); try done. congruence. }
    unfold sum_values in *. simpl. lia.
Qed.

(** X18.  When two entries of the resident list bear the same name, the
    later table replaces the earlier and the coverage constraint counts
    its variable twice: in no solution does a resident of that name work
    a shift of a day outside the no-fill list. *)
Theorem shared_name_never_works s s' residents nf i j ri rj day shift :
  setup_model s = inr (tt, s') →
  residents_info s = Some residents → nofill s = Some nf →
  residents !! i = Some ri → residents !! j = Some rj → i ≠ j →
  name ri = name rj →
  day ∈ days s → day ∉ nf → shift ∈ shifts s →
  ∀ a, solution (model s') a → ¬ works s' a ri day shift.
Proof.
  intros H Hres Hnf Hi Hj Hne Hname Hday Hfill Hshift a Hsol Hworks.
  destruct (coverage_emitted s s' residents nf day shift)
    as (vs & Hvs & Hct); try done.
  pose proof (solution_body _ _ _ Hsol Hct) as Hone. simpl in Hone.
  rewrite count_true_pos in Hone.
  destruct (Forall2_lookup_l _ _ _ _ _ Hvs Hi) as (vi & Hvi & Hli).
  destruct (Forall2_lookup_l _ _ _ _ _ Hvs Hj) as (vj & Hvj & Hlj).
  rewrite <- Hname, Hli in Hlj. injection Hlj as <-.
  apply (works_value _ _ _ _ _ _ Hli) in Hworks.
  assert (2 * value a vi ≤ sum_values a vs); [|lia].
  apply (sum_values_twice a vs i j); try done.
  intros w Hw.
  assert (bool_var (model s') w) as Hb.
  { apply list_elem_of_lookup in Hw as [k Hk].
    destruct (Forall2_lookup_r _ _ _ _ _ Hvs Hk) as (r & Hr & Hlook).
    destruct (rule_applied s s' residents r)
      as (_ & _ & rows & _ & _ & _ & _ & Hrows & Hbr & _); try done.
    { by eapply list_elem_of_lookup_2. }
    by eapply schedule_lookup_bool. }
  destruct (solution_bool _ _ _ Hsol Hb); lia.
Qed.

(** ** Weekends *)

(** The post-call rule in the compiled model. *)
Lemma post_call_compiled s s' residents r D shift :
  setup_model s = inr (tt, s') →
  residents_info s = Some residents → r ∈ residents →
  0 ≤ D → D + 1 < num_days s →
  Some (D `mod` 7) ≠ ignored_weekday (classification s) →
  shift ∈ shifts s →
  ∃ l, py_last (shifts s) = Ok l ∧
    ∀ a, solution (model s') a →
      ¬ (works s' a r D l ∧ works s' a r (D + 1) shift).
Proof.
  intros H Hres Hr HD0 HD1 Hign Hshift.
  destruct (rule_applied s s' residents r)
    as (x & fs & rows & _ & Hname & _ & Hfs & Hrows & _ & Hrule); try done.
  destruct (Hrule _ (post_call_days_selected _ _ Hfs))
    as (s3 & s4 & Hrun & Hext3 & Hext4 & Hsch).
  apply post_call_days_emits with (D := D) (shift := shift) in Hrun
    as (l & va & vb & Hl & Hva & Hvb & Hct); try done.
  2:{ by rewrite (ext_num_days _ _ Hext3). }
  2:{ by rewrite (ext_shifts _ _ Hext3). }
  rewrite (ext_shifts _ _ Hext3) in Hl. simpl in Hl. rewrite Hname in Hva, Hvb.
  assert (∀ d sh, schedule_lookup (schedules s') (name r) d sh
                  = schedule_lookup (schedules s3) (name r) d sh) as Hsame.
  { intros d sh. apply schedule_lookup_entry. by rewrite Hrows, Hsch. }
  assert (Ct (AtMostOne [Pos va; Pos vb]) [] ∈ cp_cts (model s')) as Hct'
    by (by eapply extends_ct).
  exists l. split; [done|].
  intros a Hsol [(wa & Hwa & Ha1) (wb & Hwb & Hb1)].
  rewrite Hsame in Hwa, Hwb. rewrite Hva in Hwa. rewrite Hvb in Hwb.
  injection Hwa as <-. injection Hwb as <-.
  pose proof (solution_body _ _ _ Hsol Hct') as Hamo. simpl in Hamo. lia.
Qed.

Lemma py_last_elem {A} (l : list A) x : py_last l = Ok x → x ∈ l.
Proof. apply py_index_elem. Qed.

(** X19.  Under the senior rule set, a resident who works the last shift of
    a Friday works every shift of the Saturday and no shift of the
    Sunday, when the Sunday is in the horizon. *)
Theorem senior_friday_weekend s s' residents r day shift :
  setup_model s = inr (tt, s') → classification s = "senior" →
  residents_info s = Some residents → r ∈ residents →
  day ∈ days s → 0 ≤ day → day `mod` 7 = Weekday.FRIDAY →
  day + 2 < num_days s → shift ∈ shifts s →
  ∃ l, py_last (shifts s) = Ok l ∧
    ∀ a, solution (model s') a → works s' a r day l →
      works s' a r (day + 1) shift ∧ ¬ works s' a r (day + 2) shift.
Proof.
  intros H Hcls Hres Hr Hday Hday0 Hfri Hend Hshift.
  destruct (friday_implication_compiled s s' residents r day shift)
    as (l & va & vb & Hl & _ & _ & _ & Hsat); try done.
  assert (l ∈ shifts s) as Hlin by (by apply py_last_elem).
  destruct (friday_implication_compiled s s' residents r day l)
    as (l' & _ & _ & Hl' & _ & _ & _ & Hsatl); try done.
  rewrite Hl in Hl'. injection Hl' as <-.
  destruct (post_call_compiled s s' residents r (day + 1) shift)
    as (l' & Hl' & Hpost); try done; try lia.
  { rewrite Hcls. unfold ignored_weekday, Weekday.FRIDAY in *. simpl.
    intros [= Heq].
    pose proof (Z.div_mod day 7 ltac:(lia)).
    pose proof (Z.div_mod (day + 1) 7 ltac:(lia)).
    pose proof (Z.mod_pos_bound (day + 1) 7 ltac:(lia)).
    rewrite Hfri in *. rewrite Heq in *. lia. }
  rewrite Hl in Hl'. injection Hl' as <-.
  rewrite Hcls in Hsat, Hsatl. unfold friday_gap in Hsat, Hsatl.
  simpl in Hsat, Hsatl.
  exists l. split; [done|]. intros a Hsol Hw.
  specialize (Hsat a Hsol Hw). specialize (Hsatl a Hsol Hw).
  split; [done|].
  intros Hsun. apply (Hpost a Hsol).
  replace (day + 1 + 1) with (day + 2) by lia. done.
Qed.

(** X20.  Under the junior rule set, a resident who works the last shift of
    a Friday works no shift of the Saturday and every shift of the
    Sunday. *)
Theorem junior_friday_weekend s s' residents r day shift :
  setup_model s = inr (tt, s') → classification s = "junior" →
  residents_info s = Some residents → r ∈ residents →
  day ∈ days s → 0 ≤ day → day `mod` 7 = Weekday.FRIDAY →
  day + 1 < num_days s → shift ∈ shifts s →
  ∃ l, py_last (shifts s) = Ok l ∧
    ∀ a, solution (model s') a → works s' a r day l →
      ¬ works s' a r (day + 1) shift ∧ works s' a r (day + 2) shift.
Proof.
  intros H Hcls Hres Hr Hday Hday0 Hfri Hend Hshift.
  destruct (friday_implication_compiled s s' residents r day shift)
    as (l & va & vb & Hl & _ & _ & _ & Hsun); try done.
  destruct (post_call_compiled s s' residents r day shift)
    as (l' & Hl' & Hpost); try done.
  { by rewrite Hcls. }
  rewrite Hl in Hl'. injection Hl' as <-.
  rewrite Hcls in Hsun. unfold friday_gap in Hsun. simpl in Hsun.
  exists l. split; [done|]. intros a Hsol Hw.
  split; [|by apply Hsun].
  intros Hsat. by apply (Hpost a Hsol).
Qed.

(** ** The length of the horizon *)

Lemma collect_length {A B} (l : list A) (f : A → M B) : ∀ s ys s',
  collect l f s = inr (ys, s') → length ys = length l.
Proof.
  induction l as [|x l IH]; intros s ys s' H; simpl in H.
  - by inv_run H.
  - apply bind_ok in H as (y & s1 & H1 & H).
    apply bind_ok in H as (rest & s2 & H2 & H). inv_run H.
    simpl. f_equal. by eapply IH.
Qed.

Lemma add_resident_model_rows cls resident s s' :
  add_resident_model resident (select_build_functions cls) s = inr (tt, s') →
  ∃ rows, schedules s' !! name resident = Some rows ∧
    length rows = length (days s).
Proof.
  intros H. pose proof H as H'.
  apply add_resident_model_table in H'
    as (fs & rows' & s1 & s2 & _ & _ & Hsch & _ & [_ E1] & [_ E2] & _).
  unfold add_resident_model in H.
  apply bind_ok in H as (fs' & s0 & H0 & H). inv_run H0.
  apply bind_ok in H as (ds & s0' & H0 & H). inv_run H0.
  apply bind_ok in H as (rows & s3 & Hrows & H).
  pose proof (collect_length _ _ _ _ _ Hrows) as Hlen.
  apply collect_rows_bool_vars in Hrows as [[_ Hsch3] _].
  apply bind_ok in H as ([] & s4 & H4 & H). inv_run H4.
  apply bind_ok in H as ([] & s5 & Hfs & H).
  apply bind_ok in H as (c & s6 & H6 & H). inv_run H6.
  assert (frame (set_schedules (<[name resident:=rows]> (schedules s3)) s3) s5)
    as [_ Hsch5].
  { eapply preserves_for_each; [apply _| |done].
    intros func Hfunc. apply of_option_ok in Hlift.
    by eapply frame_build_functions. }
  assert (schedules s' = schedules s5) as ->.
  { destruct (on_trauma resident && bool_decide (classification s5 = "junior")).
    - by destruct (frame_balance_trauma_call _ _ _ _ H) as [_ ->].
    - by inv_run H. }
  exists rows. rewrite Hsch5. simpl. by rewrite lookup_insert_eq.
Qed.

Lemma table_rows_length s s' residents r :
  setup_model s = inr (tt, s') →
  residents_info s = Some residents → r ∈ residents →
  ∃ rows, schedules s' !! name r = Some rows ∧
    length rows = length (days s).
Proof.
  intros H Hres Hr.
  apply setup_model_ok in H
    as (residents' & s1 & s2 & Hres' & Hloop & Hcov & Hfin).
  rewrite Hres in Hres'. injection Hres' as <-.
  assert (frame s1 s2) as Hfr12.
  { eapply preserves_for_each; [apply _| |done].
    intros day _. apply frame_coverage_body. }
  assert (frame s1 s') as [_ Hsch1] by (by etrans).
  destruct (last_named residents (name r)) as (l1 & x & l2 & Hl & Hx & Hl2).
  { apply list_elem_of_fmap. by exists r. }
  rewrite Hl in Hloop. apply for_each_app in Hloop as (sa & Ha & Hloop).
  simpl in Hloop. apply bind_ok in Hloop as ([] & sb & Hb & Hloop).
  assert (extends (set_penalties [] s) sa) as Hexta.
  { eapply preserves_for_each; [apply _| |done].
    intros y _. apply extends_add_resident_model. }
  assert (keeps (name r) sb s1) as [_ Hkeep].
  { eapply preserves_for_each; [apply _| |done].
    intros y Hy. apply keeps_add_resident_model. intros Hname.
    apply Hl2. rewrite <- Hname. apply list_elem_of_fmap. by exists y. }
  apply add_resident_model_rows in Hb as (rows & Hrows & Hlen).
  exists rows. split.
  - by rewrite Hsch1, Hkeep, <- Hx.
  - by rewrite Hlen, (ext_days _ _ Hexta).
Qed.

Lemma py_index_bound {A} (l : list A) i x :
  py_index l i = Ok x → 0 ≤ i → i < len l.
Proof.
  unfold py_index. cbv zeta. intros H Hi.
  destruct (decide (i < 0)); [lia|]. destruct (decide (0 ≤ i)); [|done].
  apply of_option_ok in H. apply lookup_lt_Some in H. unfold len. lia.
Qed.

(** When the model compiles, the day that a Friday implies lies in the
    horizon. *)
Lemma friday_later_day_in_horizon s s' residents r day shift :
  setup_model s = inr (tt, s') →
  residents_info s = Some residents → r ∈ residents →
  day ∈ days s → 0 ≤ day → day `mod` 7 = Weekday.FRIDAY → shift ∈ shifts s →
  day + friday_gap (classification s) < len (days s).
Proof.
  intros H Hres Hr Hday Hday0 Hfri Hshift.
  destruct (friday_implication_compiled s s' residents r day shift)
    as (l & va & vb & _ & _ & Hvb & _); try done.
  destruct (table_rows_length s s' residents r) as (rows & Hrows & Hlen);
    try done.
  unfold schedule_lookup in Hvb. rewrite Hrows in Hvb. simpl in Hvb.
  apply res_bind_ok in Hvb as (row & Hrow & _).
  apply py_index_bound in Hrow.
  - unfold len in *. by rewrite <- Hlen.
  - unfold friday_gap. case_bool_decide; lia.
Qed.

(** X21.  When the model compiles, for every resident, every Friday of the
    horizon and every shift, the day that the Friday implies (Saturday
    for seniors, Sunday for juniors) lies in the horizon, and in every
    solution a resident who works the last shift of the Friday works
    that shift of the later day. *)
Theorem friday_implies_later_day s s' residents r day shift :
  setup_model s = inr (tt, s') →
  residents_info s = Some residents → r ∈ residents →
  day ∈ days s → 0 ≤ day → day `mod` 7 = Weekday.FRIDAY → shift ∈ shifts s →
  day + friday_gap (classification s) < len (days s) ∧
  ∃ l, py_last (shifts s) = Ok l ∧
    ∀ a, solution (model s') a →
      works s' a r day l →
      works s' a r (day + friday_gap (classification s)) shift.
Proof.
  intros H Hres Hr Hday Hday0 Hfri Hshift.
  split; [by eapply friday_later_day_in_horizon|].
  destruct (friday_implication_compiled s s' residents r day shift)
    as (l & va & vb & Hl & _ & _ & _ & Himp); try done.
  by exists l.
Qed.

Lemma len_py_range n : 0 ≤ n → len (py_range n) = n.
Proof. intros Hn. unfold len, py_range. rewrite length_seqZ. lia. Qed.

(** X22.  A model with at least one resident and one shift compiles only
    for a horizon [range(n)] that does not end on a Friday ([n] is not 5
    modulo 7), nor, for juniors, on a Saturday ([n] is not 6 modulo
    7). *)
Theorem compiled_horizon_end s s' residents r shift n :
  setup_model s = inr (tt, s') →
  residents_info s = Some residents → r ∈ residents → shift ∈ shifts s →
  days s = py_range n → 0 ≤ n →
  n `mod` 7 ≠ 5 ∧ (classification s = "junior" → n `mod` 7 ≠ 6).
Proof.
  intros H Hres Hr Hshift Hdays Hn.
  assert (∀ day, 0 ≤ day < n → day `mod` 7 = 4 →
            day + friday_gap (classification s) < n) as Hfri.
  { intros day Hday Hmod.
    rewrite <- (len_py_range n Hn), <- Hdays.
    apply (friday_later_day_in_horizon s s' residents r day shift);
      [done|done|done| |lia|exact Hmod|done].
    rewrite Hdays. unfold py_range. apply elem_of_seqZ. lia. }
  pose proof (Z.div_mod n 7 ltac:(lia)) as Hdm.
  pose proof (Z.mod_pos_bound n 7 ltac:(lia)) as Hb.
  split.
  - intros H5. specialize (Hfri (n - 1)).
    assert ((n - 1) `mod` 7 = 4) as Hm.
    { rewrite H5 in Hdm.
      replace (n - 1) with (4 + (n `div` 7) * 7) by lia.
      by rewrite Z.mod_add. }
    specialize (Hfri ltac:(lia) Hm).
    unfold friday_gap in Hfri. case_bool_decide; lia.
  - intros Hcls H6. specialize (Hfri (n - 2)).
    assert ((n - 2) `mod` 7 = 4) as Hm.
    { rewrite H6 in Hdm.
      replace (n - 2) with (4 + (n `div` 7) * 7) by lia.
      by rewrite Z.mod_add. }
    specialize (Hfri ltac:(lia) Hm).
    unfold friday_gap in Hfri. rewrite Hcls in Hfri. simpl in Hfri. lia.
Qed.

(** ** Penalty thresholds *)

Lemma penalties_append_emits v s u s' :
  penalties_append v s = inr (u, s') →
  frame s s' ∧ v ∈ penalty_list s'.
Proof.
  intros H. split; [destruct u; by eapply frame_penalties_append|].
  apply penalties_append_ok in H as [_ ->]. simpl.
  apply elem_of_app. right. by left.
Qed.

Lemma disperse_call_threshold_emits x s3 s4 week i :
  disperse_call x s3 = inr (tt, s4) →
  0 ≤ week < num_days s3 `div` Weekday.len →
  max_shifts_per_week s3 < i < 7 →
  ∃ vs flag pen,
    week_vars s3 x week = Ok vs ∧
    cp_vars (model s4) !! flag
      = Some (VarDecl ("Week_" +:+ pretty week +:+ "_penalty_" +:+ name x
                       +:+ "_exceeds_" +:+ pretty i) 0 1) ∧
    cp_vars (model s4) !! pen
      = Some (VarDecl ("Week_" +:+ pretty week +:+ "_penalty_" +:+ name x)
                0 7) ∧
    Ct (Linear (lin_sum vs) Rge (lin_int i)) [Pos flag] ∈ cp_cts (model s4) ∧
    Ct (lin_rel pen Rge (2 * i)) [Pos flag] ∈ cp_cts (model s4) ∧
    pen ∈ penalty_list s4.
Proof.
  intros H Hweek Hi. unfold disperse_call in H.
  apply bind_ok in H as (n & s0 & H0 & H). inv_run H0.
  loop_elem H week as (sx & sy & [Hx Hsx] & Hrun & [Hy _]).
  { unfold py_range. apply elem_of_seqZ. lia. }
  apply bind_ok in Hrun as (per_day & s1 & H1 & Hrun).
  apply (res_collect_reads _ _ (λ day s, day_vars s x day)) in H1 as [Hpd ->].
  2:{ intros day s1' row s2' Hrow.
      apply bind_ok in Hrow as (sh & s0 & H0 & Hrow). inv_run H0.
      apply (res_collect_reads _ _
        (λ am_pm s, schedule_lookup (schedules s) (name x) day am_pm))
        in Hrow as [Hrow ->].
      - done.
      - intros am_pm sa v sb Hv. by apply schedule_var_ok in Hv. }
  apply bind_ok in Hrun as (flag0 & s1 & H1 & Hrun).
  apply NewIntVar_emits in H1 as [[Hf1 _] _].
  apply bind_ok in Hrun as (cap & s0 & H0 & Hrun). inv_run H0.
  apply bind_ok in Hrun as ([] & s5 & H5 & Hrun).
  apply AddIf_emits in H5 as [[Hf5 _] _].
  apply bind_ok in Hrun as (cap' & s0 & H0 & Hrun). inv_run H0.
  apply bind_ok in Hrun as ([] & s6 & H6 & Hrun).
  apply AddIf_emits in H6 as [[Hf6 _] _].
  apply bind_ok in Hrun as (pen & s7 & H7 & Hrun).
  apply NewIntVar_emits in H7 as [[Hf7 _] Hpen].
  apply bind_ok in Hrun as (cap'' & s0 & H0 & Hrun). inv_run H0.
  assert (extends s3 s7) as Hext7.
  { etrans; [done|]. etrans; [done|]. etrans; [done|]. by etrans. }
  loop_elem Hrun i as (sz & sw & [Hz _] & Hbody & [Hw _]).
  { unfold py_range2. apply elem_of_seqZ.
    rewrite (ext_max_shifts_per_week _ _ Hext7). lia. }
  apply bind_ok in Hbody as (flag & s8 & H8 & Hbody).
  apply NewIntVar_emits in H8 as [[Hf8 _] Hflag].
  apply bind_ok in Hbody as ([] & s9 & H9 & Hbody).
  apply AddIf_emits in H9 as [[Hf9 _] Hge].
  apply bind_ok in Hbody as ([] & s10 & H10 & Hbody).
  apply AddIf_emits in H10 as [[Hf10 _] Hpge].
  apply penalties_append_emits in Hbody as [[Hf11 _] Hin].
  assert (extends sw s4) as Hend by (by etrans).
  exists (concat per_day), flag, pen. split_and!.
  - unfold week_vars.
    rewrite (res_collect_ext _ _ (λ day, day_vars sx x day)).
    + by rewrite Hpd.
    + intros day. apply day_vars_entry; [by rewrite (ext_shifts _ _ Hx)|].
      by rewrite Hsx.
  - eapply extends_var; [done|]. eapply extends_var; [done|].
    eapply extends_var; [done|]. by eapply extends_var.
  - eapply extends_var; [done|]. eapply extends_var; [done|].
    eapply extends_var; [done|]. eapply extends_var; [done|].
    eapply extends_var; [done|]. by eapply extends_var.
  - eapply extends_ct; [done|]. eapply extends_ct; [done|].
    by eapply extends_ct.
  - eapply extends_ct; [done|]. by eapply extends_ct.
  - by eapply extends_penalty.
Qed.

(** X23.  For every resident (names distinct), every complete week and
    every threshold [i] from [max_shifts_per_week + 1] to 6, the weekly
    penalty variable is part of the objective and lies between 0 and 7;
    when the flag [Week_<w>_penalty_<name>_exceeds_<i>] is set in a
    solution, the resident has at least [i] shifts in the week and the
    weekly penalty is at least [2 * i]; so the flags of the thresholds 4,
    5 and 6 are never set. *)
Theorem weekly_threshold_flag s s' residents r week i :
  setup_model s = inr (tt, s') →
  residents_info s = Some residents → NoDup (name <$> residents) →
  r ∈ residents →
  0 ≤ week < num_days s `div` 7 → max_shifts_per_week s < i < 7 →
  ∃ vs flag pen,
    week_vars s' r week = Ok vs ∧
    var_named (model s') flag
      ("Week_" +:+ pretty week +:+ "_penalty_" +:+ name r
       +:+ "_exceeds_" +:+ pretty i) ∧
    var_named (model s') pen
      ("Week_" +:+ pretty week +:+ "_penalty_" +:+ name r) ∧
    pen ∈ default [] (cp_objective (model s')) ∧
    ∀ a, solution (model s') a →
      0 ≤ value a pen ≤ 7 ∧
      (value a flag = 1 → i ≤ sum_values a vs ∧ 2 * i ≤ value a pen) ∧
      (4 ≤ i → value a flag = 0).
Proof.
  intros H Hres Hnd Hr Hweek Hi.
  destruct (rule_ran s s' residents r disperse_call)
    as (rows & s3 & s4 & Hrun & Hext3 & Hext4 & Hsch & Hrows & Hb); try done.
  { apply disperse_call_selected. }
  apply disperse_call_threshold_emits with (week := week) (i := i) in Hrun
    as (vs & flag & pen & Hvs & Hflag & Hpen & Hge & Hpge & Hin).
  2:{ by rewrite (ext_num_days _ _ Hext3). }
  2:{ by rewrite (ext_max_shifts_per_week _ _ Hext3). }
  exists vs, flag, pen. split_and!.
  - rewrite <- Hvs. apply week_vars_entry; [|by rewrite Hrows, Hsch].
    by rewrite (ext_shifts _ _ (setup_model_extends _ _ H)),
      (ext_shifts _ _ Hext3).
  - eapply var_named_decl, extends_var; done.
  - eapply var_named_decl, extends_var; done.
  - rewrite (setup_model_objective _ _ H). simpl. by eapply extends_penalty.
  - intros a Hsol.
    assert (bool_var (model s') flag) as Hbf.
    { eapply bool_var_lookup; [by eapply extends_var|done|done]. }
    pose proof (solution_domain _ _ _ _ Hsol (extends_var _ _ _ _ Hext4 Hpen))
      as Hdom. simpl in Hdom.
    assert (value a flag = 1 → i ≤ sum_values a vs ∧ 2 * i ≤ value a pen)
      as Hset.
    { intros Hf.
      pose proof (solution_body_if _ _ _ _ Hsol (extends_ct _ _ _ Hext4 Hge)
                    Hf) as H1.
      pose proof (solution_body_if _ _ _ _ Hsol (extends_ct _ _ _ Hext4 Hpge)
                    Hf) as H2.
      unfold lin_rel, body_holds, rel_holds, lin_value, lin_sum, lin_int,
        lin_var, sum_values in H1, H2. simpl in H1, H2.
      unfold sum_values. lia. }
    split_and!; [lia|lia|done|].
    intros Hi4. destruct (solution_bool _ _ _ Hsol Hbf) as [?|Hf]; [done|].
    specialize (Hset Hf). lia.
Qed.

Lemma penalize_multiple_fridays_emits x s3 s4 friday :
  penalize_multiple_fridays x s3 = inr (tt, s4) →
  friday ∈ days s3 → friday `mod` 7 = Weekday.FRIDAY →
  friday + 7 ∈ days s3 →
  ∃ l va vb flag pen,
    py_last (shifts s3) = Ok l ∧
    schedule_lookup (schedules s3) (name x) friday l = Ok va ∧
    schedule_lookup (schedules s3) (name x) (friday + 7) l = Ok vb ∧
    cp_vars (model s4) !! flag
      = Some (VarDecl (name x +:+ "_Fridays_" +:+ pretty friday +:+ "_"
                       +:+ pretty (friday + 7)) 0 1) ∧
    cp_vars (model s4) !! pen
      = Some (VarDecl ("penalty_" +:+ (name x +:+ "_Fridays_"
                       +:+ pretty friday +:+ "_" +:+ pretty (friday + 7)))
                0 16) ∧
    Ct (BoolAnd [Pos va; Pos vb]) [Pos flag] ∈ cp_cts (model s4) ∧
    Ct (lin_rel pen Rge (extra_friday_penalty_amount s3)) [Pos flag]
      ∈ cp_cts (model s4) ∧
    pen ∈ penalty_list s4.
Proof.
  intros H Hday Hfri Hnext. unfold penalize_multiple_fridays in H.
  apply bind_ok in H as (ds & s0 & H0 & H). inv_run H0.
  loop_elem H friday as (sx & sy & [Hx Hsx] & Hrun & [Hy _]).
  { apply list_elem_of_filter. by split. }
  apply bind_ok in Hrun as (ds' & s0 & H0 & Hrun). inv_run H0.
  unfold py_in, Weekday.len in Hrun.
  rewrite bool_decide_eq_true_2 in Hrun by (by rewrite (ext_days _ _ Hx)).
  simpl in Hrun.
  apply bind_ok in Hrun as (flag & s1 & H1 & Hrun).
  apply NewIntVar_emits in H1 as [[Hf1 Hs1] Hflag].
  apply bind_ok in Hrun as (pen & s2 & H2 & Hrun).
  apply NewIntVar_emits in H2 as [[Hf2 Hs2] Hpen].
  apply bind_ok in Hrun as (l & s0 & H0 & Hrun).
  apply last_shift_ok in H0 as [Hl ->].
  apply bind_ok in Hrun as (va & s0 & H0 & Hrun).
  apply schedule_var_ok in H0 as [Hva ->].
  apply bind_ok in Hrun as (l' & s0 & H0 & Hrun).
  apply last_shift_ok in H0 as [Hl' ->].
  rewrite Hl in Hl'. injection Hl' as <-.
  apply bind_ok in Hrun as (vb & s0 & H0 & Hrun).
  apply schedule_var_ok in H0 as [Hvb ->].
  apply bind_ok in Hrun as ([] & s5 & H5 & Hrun).
  apply AddIf_emits in H5 as [[Hf5 _] Hand].
  apply bind_ok in Hrun as (amount & s0 & H0 & Hrun). inv_run H0.
  apply bind_ok in Hrun as ([] & s6 & H6 & Hrun).
  apply AddIf_emits in H6 as [[Hf6 _] Hge].
  apply penalties_append_emits in Hrun as [[Hf7 _] Hin].
  rewrite (ext_shifts _ _ Hf2), (ext_shifts _ _ Hf1), (ext_shifts _ _ Hx)
    in Hl.
  rewrite Hs2, Hs1, Hsx in Hva, Hvb.
  rewrite (ext_extra_friday_penalty_amount _ _ Hf5),
    (ext_extra_friday_penalty_amount _ _ Hf2),
    (ext_extra_friday_penalty_amount _ _ Hf1),
    (ext_extra_friday_penalty_amount _ _ Hx) in Hge.
  exists l, va, vb, flag, pen. split_and!; try done.
  - eapply extends_var; [done|]. eapply extends_var; [done|].
    eapply extends_var; [done|]. eapply extends_var; [done|].
    by eapply extends_var.
  - eapply extends_var; [done|]. eapply extends_var; [done|].
    eapply extends_var; [done|]. by eapply extends_var.
  - eapply extends_ct; [done|]. eapply extends_ct; [done|].
    by eapply extends_ct.
  - eapply extends_ct; [done|]. by eapply extends_ct.
  - by eapply extends_penalty.
Qed.

Lemma penalize_multiple_fridays_selected cls fs :
  select_build_functions cls = Some fs → penalize_multiple_fridays ∈ fs.
Proof.
  unfold select_build_functions. intros H.
  repeat case_bool_decide; simplify_eq.
  - unfold junior_build_functions. in_list.
  - unfold senior_build_functions. in_list.
Qed.

(** X24.  For every resident (names distinct) and every Friday whose
    following Friday is in the horizon, the Friday penalty variable is
    part of the objective and lies between 0 and 16; when the conflict
    flag is set in a solution, the resident works the last shift of both
    Fridays and the penalty is at least [extra_friday_penalty_amount]. *)
Theorem friday_conflict_flag s s' residents r friday :
  setup_model s = inr (tt, s') →
  residents_info s = Some residents → NoDup (name <$> residents) →
  r ∈ residents →
  friday ∈ days s → friday `mod` 7 = Weekday.FRIDAY → friday + 7 ∈ days s →
  ∃ va vb flag pen,
    last_shift_var s' r friday = Ok va ∧
    last_shift_var s' r (friday + 7) = Ok vb ∧
    var_named (model s') flag
      (name r +:+ "_Fridays_" +:+ pretty friday +:+ "_"
       +:+ pretty (friday + 7)) ∧
    var_named (model s') pen
      ("penalty_" +:+ (name r +:+ "_Fridays_" +:+ pretty friday +:+ "_"
       +:+ pretty (friday + 7))) ∧
    pen ∈ default [] (cp_objective (model s')) ∧
    ∀ a, solution (model s') a →
      0 ≤ value a pen ≤ 16 ∧
      (value a flag = 1 →
       value a va = 1 ∧ value a vb = 1 ∧
       extra_friday_penalty_amount s ≤ value a pen).
Proof.
  intros H Hres Hnd Hr Hday Hfri Hnext.
  destruct (rule_ran s s' residents r penalize_multiple_fridays)
    as (rows & s3 & s4 & Hrun & Hext3 & Hext4 & Hsch & Hrows & Hb); try done.
  { apply penalize_multiple_fridays_selected. }
  apply penalize_multiple_fridays_emits with (friday := friday) in Hrun
    as (l & va & vb & flag & pen & Hl & Hva & Hvb & Hflag & Hpen & Hand & Hge
        & Hin).
  2:{ by rewrite (ext_days _ _ Hext3). }
  2:{ done. }
  2:{ by rewrite (ext_days _ _ Hext3). }
  assert (shifts s' = shifts s3) as Hsh.
  { by rewrite (ext_shifts _ _ (setup_model_extends _ _ H)),
       (ext_shifts _ _ Hext3). }
  assert (∀ d sh, schedule_lookup (schedules s') (name r) d sh
                  = schedule_lookup (schedules s3) (name r) d sh) as Hsame.
  { intros d sh. apply schedule_lookup_entry. by rewrite Hrows, Hsch. }
  rewrite (ext_extra_friday_penalty_amount _ _ Hext3) in Hge. simpl in Hge.
  exists va, vb, flag, pen. split_and!.
  - unfold last_shift_var. rewrite Hsh, Hl. simpl. by rewrite Hsame.
  - unfold last_shift_var. rewrite Hsh, Hl. simpl. by rewrite Hsame.
  - eapply var_named_decl, extends_var; done.
  - eapply var_named_decl, extends_var; done.
  - rewrite (setup_model_objective _ _ H). simpl. by eapply extends_penalty.
  - intros a Hsol.
    pose proof (solution_domain _ _ _ _ Hsol (extends_var _ _ _ _ Hext4 Hpen))
      as Hdom. simpl in Hdom.
    split; [lia|]. intros Hf.
    pose proof (solution_body_if _ _ _ _ Hsol (extends_ct _ _ _ Hext4 Hand)
                  Hf) as H1.
    pose proof (solution_body_if _ _ _ _ Hsol (extends_ct _ _ _ Hext4 Hge)
                  Hf) as H2.
    simpl in H1. apply Forall_cons in H1 as [Ha H1].
    apply Forall_cons in H1 as [Hb' _].
    unfold lin_rel, body_holds, rel_holds, lin_value, lin_int, lin_var,
      sum_values in H2. simpl in H2.
    split_and!; [done|done|lia].
Qed.

(** ** Least values and the objective *)

#[global] Instance keeps_nonneg_preorder : PreOrder keeps_nonneg.
Proof.
  split.
  - intros s H. exact H.
  - intros s1 s2 s3 H1 H2 H. by apply H2, H1.
Qed.

Lemma nonneg_NewIntVar lb ub label :
  0 ≤ lb → preserves keeps_nonneg (NewIntVar lb ub label).
Proof.
  intros Hlb s v s' H. apply NewIntVar_ok in H as [_ ->].
  intros Hs. unfold nonneg_vars. simpl. apply Forall_app. split; [done|].
  by apply Forall_singleton.
Qed.

Lemma nonneg_NewBoolVar label : preserves keeps_nonneg (NewBoolVar label).
Proof. by apply nonneg_NewIntVar. Qed.

Lemma nonneg_same_vars (c : M unit) :
  (∀ s u s', c s = inr (u, s') → cp_vars (model s') = cp_vars (model s)) →
  preserves keeps_nonneg c.
Proof.
  intros Hc s u s' H Hs. unfold nonneg_vars. by rewrite (Hc _ _ _ H).
Qed.

Lemma nonneg_Add body : preserves keeps_nonneg (Add body).
Proof. apply nonneg_same_vars. intros s u s' H. by apply Add_ok in H as ->. Qed.

Lemma nonneg_AddIf body l : preserves keeps_nonneg (AddIf body l).
Proof.
  apply nonneg_same_vars. intros s u s' H. by apply AddIf_ok in H as ->.
Qed.

Lemma nonneg_penalties_append v : preserves keeps_nonneg (penalties_append v).
Proof.
  apply nonneg_same_vars. intros s u s' H.
  by apply penalties_append_ok in H as [_ ->].
Qed.

Lemma nonneg_modify f :
  (∀ s, cp_vars (model (f s)) = cp_vars (model s)) →
  preserves keeps_nonneg (modify f).
Proof.
  intros Hf. apply nonneg_same_vars. intros s u s' H.
  apply modify_ok in H as ->. apply Hf.
Qed.

Lemma nonneg_schedule_var nm day shift :
  preserves keeps_nonneg (schedule_var nm day shift).
Proof.
  intros s v s' H. apply schedule_var_ok in H as [_ ->]. done.
Qed.

Lemma nonneg_first_shift : preserves keeps_nonneg first_shift.
Proof. intros s v s' H. apply first_shift_ok in H as [_ ->]. done. Qed.

Lemma nonneg_last_shift : preserves keeps_nonneg last_shift.
Proof. intros s v s' H. apply last_shift_ok in H as [_ ->]. done. Qed.

Ltac nonneg_step :=
  lazymatch goal with
  | |- preserves _ (mret _) => apply preserves_ret; apply _
  | |- preserves _ (raise _) => apply preserves_raise
  | |- preserves _ (lift _) => apply preserves_lift; apply _
  | |- preserves _ (gets _) => apply preserves_gets; apply _
  | |- preserves _ (attr _) => apply preserves_attr; apply _
  | |- preserves _ (NewIntVar _ _ _) => apply nonneg_NewIntVar; done
  | |- preserves _ (NewBoolVar _) => apply nonneg_NewBoolVar
  | |- preserves _ (Add _) => apply nonneg_Add
  | |- preserves _ (AddIf _ _) => apply nonneg_AddIf
  | |- preserves _ (penalties_append _) => apply nonneg_penalties_append
  | |- preserves _ (modify _) => apply nonneg_modify; intros ?; reflexivity
  | |- preserves _ (schedule_var _ _ _) => apply nonneg_schedule_var
  | |- preserves _ first_shift => apply nonneg_first_shift
  | |- preserves _ last_shift => apply nonneg_last_shift
  | |- preserves _ (_ ≫= _) => apply preserves_bind; [apply _| |intros ?]
  | |- preserves _ (for_each _ _) =>
      apply preserves_for_each; [apply _|intros ? _]
  | |- preserves _ (collect _ _) =>
      apply preserves_collect; [apply _|intros ? _]
  | |- preserves _ (dict_comp _ _ _) =>
      apply preserves_dict_comp; [apply _|intros ?]
  | |- preserves _ (if ?b then _ else _) => destruct b
  | |- preserves _ (match ?x with _ => _ end) => destruct x
  end.

Ltac nonneg_method := repeat nonneg_step.

Lemma nonneg_strictly_bounded resident calculation lo up descr :
  preserves keeps_nonneg (strictly_bounded resident calculation lo up descr).
Proof. unfold strictly_bounded. nonneg_method. Qed.

Lemma nonneg_balance_trauma_call resident :
  preserves keeps_nonneg (balance_trauma_call resident).
Proof.
  unfold balance_trauma_call. nonneg_method. apply nonneg_strictly_bounded.
Qed.

Lemma nonneg_expected_night_shifts resident :
  preserves keeps_nonneg (expected_night_shifts resident).
Proof. unfold expected_night_shifts. nonneg_method. Qed.

Lemma nonneg_set_shift_expectations resident :
  preserves keeps_nonneg (set_shift_expectations resident).
Proof.
  unfold set_shift_expectations.
  nonneg_method; first [apply nonneg_expected_night_shifts
                       |apply nonneg_strictly_bounded].
Qed.

Lemma nonneg_build_functions cls fs func resident :
  select_build_functions cls = Some fs → func ∈ fs →
  preserves keeps_nonneg (func resident).
Proof.
  unfold select_build_functions. intros H Hf.
  repeat case_bool_decide; simplify_eq.
  - unfold junior_build_functions in Hf.
    rewrite !elem_of_cons, elem_of_nil in Hf.
    destruct Hf as [->|[->|[->|[->|[->|[->|[->|[->|[->|[->|[]]]]]]]]]]];
      try apply nonneg_set_shift_expectations;
      unfold emergency_wednesday_halfday, cant_book_vacation_days,
        trauma_day_call, post_call_days, prefer_full_day_call,
        penalize_multiple_fridays, disperse_call, friday_implies_sunday,
        implication_rule, assign_claimed_days; nonneg_method.
  - unfold senior_build_functions in Hf.
    rewrite !elem_of_cons, elem_of_nil in Hf.
    destruct Hf as [->|[->|[->|[->|[->|[->|[->|[]]]]]]]];
      try apply nonneg_set_shift_expectations;
      unfold cant_book_vacation_days, post_call_days,
        penalize_multiple_fridays, disperse_call, friday_implies_saturday,
        implication_rule, assign_claimed_days; nonneg_method.
Qed.

Lemma nonneg_add_resident_model cls resident :
  preserves keeps_nonneg
    (add_resident_model resident (select_build_functions cls)).
Proof.
  intros s [] s' H. unfold add_resident_model in H.
  apply bind_ok in H as (fs & s0 & H0 & H). inv_run H0.
  apply of_option_ok in Hlift.
  lazymatch type of H with
  | ?c _ = _ => assert (preserves keeps_nonneg c) as Hp
  end; [|by eapply Hp].
  apply preserves_bind; [apply _|nonneg_method|intros ds].
  apply preserves_bind; [apply _|nonneg_method|intros rows].
  apply preserves_bind; [apply _|nonneg_method|intros _].
  apply preserves_bind; [apply _| |intros _].
  { apply preserves_for_each; [apply _|]. intros func Hfunc.
    by eapply nonneg_build_functions. }
  nonneg_method. apply nonneg_balance_trauma_call.
Qed.

Lemma nonneg_slot_vars day shift : preserves keeps_nonneg (slot_vars day shift).
Proof. unfold slot_vars. nonneg_method. Qed.

Lemma nonneg_setup_model : preserves keeps_nonneg setup_model.
Proof.
  unfold setup_model.
  apply preserves_bind; [apply _|nonneg_method|intros _].
  apply preserves_bind; [apply _|nonneg_method|intros cls].
  apply preserves_bind; [apply _|nonneg_method|intros residents].
  apply preserves_bind; [apply _| |intros _].
  { apply preserves_for_each; [apply _|]. intros r _.
    apply nonneg_add_resident_model. }
  apply preserves_bind; [apply _|nonneg_method|intros ds].
  apply preserves_bind; [apply _| |intros _].
  { nonneg_method. apply nonneg_slot_vars. }
  apply preserves_bind; [apply _|nonneg_method|intros ps].
  unfold Minimize. nonneg_method.
Qed.

Lemma nonneg_values m a :
  Forall (λ d, 0 ≤ vd_lb d) (cp_vars m) → solution m a →
  ∀ v, 0 ≤ value a v.
Proof.
  intros Hlb [Hdom _] v. unfold value.
  destruct (a !! v) as [x|] eqn:Hx; simpl; [|done].
  destruct (Forall2_lookup_l _ _ _ _ _ Hdom Hx) as (d & Hd & [Hl _]).
  apply list_elem_of_lookup_2 in Hd.
  rewrite Forall_forall in Hlb. specialize (Hlb d Hd). lia.
Qed.

Lemma sum_values_nonneg a vs : (∀ v, 0 ≤ value a v) → 0 ≤ sum_values a vs.
Proof.
  intros Hnn. unfold sum_values.
  induction vs as [|v vs IH]; simpl; [done|]. specialize (Hnn v). lia.
Qed.

Lemma optimal_exists_nonneg m a :
  (∀ b, solution m b → 0 ≤ objective_value m b) →
  solution m a → ∃ b, optimal m b.
Proof.
  intros Hb.
  remember (Z.to_nat (objective_value m a)) as n eqn:Hn.
  revert a Hn. induction n as [n IH] using lt_wf_ind. intros a Hn Hsol.
  destruct (classic (∃ b, solution m b
                          ∧ objective_value m b < objective_value m a))
    as [(b & Hsolb & Hlt)|Hno].
  - pose proof (Hb b Hsolb).
    apply (IH (Z.to_nat (objective_value m b))) with b; [lia|done|done].
  - exists a. split; [done|]. intros b Hsolb.
    destruct (Z.le_gt_cases (objective_value m a) (objective_value m b));
      [done|].
    exfalso. apply Hno. exists b. split; [done|lia].
Qed.

(** X25.  Compiling declares no variable with a negative least value: in
    every solution of a model compiled from an object whose variables
    have non-negative least values (a fresh model has none), every
    variable and the objective are non-negative, and a satisfiable
    compiled model has an optimal solution. *)
Theorem compiled_objective_nonneg s s' :
  setup_model s = inr (tt, s') → nonneg_vars s →
  (∀ a, solution (model s') a →
     (∀ v, 0 ≤ value a v) ∧ 0 ≤ objective_value (model s') a) ∧
  ((∃ a, solution (model s') a) → ∃ b, optimal (model s') b).
Proof.
  intros H Hs.
  assert (nonneg_vars s') as Hs' by (by eapply nonneg_setup_model).
  assert (∀ a, solution (model s') a →
            (∀ v, 0 ≤ value a v) ∧ 0 ≤ objective_value (model s') a) as Hnn.
  { intros a Hsol.
    pose proof (nonneg_values _ _ Hs' Hsol) as Hv. split; [done|].
    by apply sum_values_nonneg. }
  split; [done|]. intros (a & Hsol).
  apply (optimal_exists_nonneg _ a); [|done].
  intros b Hb. by apply Hnn.
Qed.

(** ** The start date *)

Lemma blind_ret {A} (x : A) : date_blind (mret x).
Proof. by intros d s. Qed.

Lemma blind_bind {A B} (c : M A) (k : A → M B) :
  date_blind c → (∀ a, date_blind (k a)) → date_blind (c ≫= k).
Proof.
  intros Hc Hk d s. unfold mbind, M_bind. rewrite Hc.
  destruct (c s) as [e|[a s1]]; [done|]. apply Hk.
Qed.

Lemma blind_raise {A} e : date_blind (raise e : M A).
Proof. by intros d s. Qed.

Lemma blind_lift {A} (r : result A) : date_blind (lift r).
Proof. intros d s. unfold lift. by destruct r. Qed.

Lemma blind_gets {A} (f : Solver → A) :
  (∀ d s, f (set_start_date d s) = f s) → date_blind (gets f).
Proof. intros Hf d s. unfold gets, Ok. by rewrite Hf. Qed.

Lemma blind_attr {A} (f : Solver → option A) :
  (∀ d s, f (set_start_date d s) = f s) → date_blind (attr f).
Proof. intros Hf d s. unfold attr. rewrite Hf. by destruct (f s). Qed.

Lemma blind_modify (f : Solver → Solver) :
  (∀ d s, f (set_start_date d s) = set_start_date d (f s)) →
  date_blind (modify f).
Proof. intros Hf d s. unfold modify, Ok. by rewrite Hf. Qed.

Lemma blind_for_each {A} (l : list A) (body : A → M unit) :
  (∀ x, date_blind (body x)) → date_blind (for_each l body).
Proof.
  intros Hb. induction l as [|x l IH]; simpl.
  - apply blind_ret.
  - apply blind_bind; [apply Hb|intros _; apply IH].
Qed.

Lemma blind_collect {A B} (l : list A) (f : A → M B) :
  (∀ x, date_blind (f x)) → date_blind (collect l f).
Proof.
  intros Hb. induction l as [|x l IH]; simpl.
  - apply blind_ret.
  - apply blind_bind; [apply Hb|intros y].
    apply blind_bind; [apply IH|intros ys; apply blind_ret].
Qed.

Lemma blind_dict_comp {B} (l : list string) (f : string → M B) acc :
  (∀ x, date_blind (f x)) → date_blind (dict_comp l f acc).
Proof.
  intros Hb. revert acc. induction l as [|x l IH]; intros acc; simpl.
  - apply blind_ret.
  - apply blind_bind; [apply Hb|intros y; apply IH].
Qed.

Lemma blind_NewIntVar lb ub label : date_blind (NewIntVar lb ub label).
Proof. by intros d s. Qed.

Ltac blind_step :=
  lazymatch goal with
  | |- date_blind (mret _) => apply blind_ret
  | |- date_blind (raise _) => apply blind_raise
  | |- date_blind (lift _) => apply blind_lift
  | |- date_blind (gets _) => apply blind_gets; intros ? ?; reflexivity
  | |- date_blind (attr _) => apply blind_attr; intros ? ?; reflexivity
  | |- date_blind (modify _) => apply blind_modify; intros ? ?; reflexivity
  | |- date_blind (NewIntVar _ _ _) => apply blind_NewIntVar
  | |- date_blind (NewBoolVar _) => apply blind_NewIntVar
  | |- date_blind (Add _) => unfold Add
  | |- date_blind (AddIf _ _) => unfold AddIf
  | |- date_blind (Minimize _) => unfold Minimize
  | |- date_blind (penalties_append _) => unfold penalties_append
  | |- date_blind (schedule_var _ _ _) => unfold schedule_var
  | |- date_blind first_shift => unfold first_shift
  | |- date_blind last_shift => unfold last_shift
  | |- date_blind (slot_vars _ _) => unfold slot_vars
  | |- date_blind (strictly_bounded _ _ _ _ _) => unfold strictly_bounded
  | |- date_blind (expected_night_shifts _) => unfold expected_night_shifts
  | |- date_blind (balance_trauma_call _) => unfold balance_trauma_call
  | |- date_blind calculate_call_ratio => unfold calculate_call_ratio
  | |- date_blind (_ ≫= _) => apply blind_bind; [|intros ?]
  | |- date_blind (for_each _ _) => apply blind_for_each; intros ?
  | |- date_blind (collect _ _) => apply blind_collect; intros ?
  | |- date_blind (dict_comp _ _ _) => apply blind_dict_comp; intros ?
  | |- date_blind (if ?b then _ else _) => destruct b
  | |- date_blind (match ?x with _ => _ end) => destruct x
  | |- date_blind (let '(_, _) := ?x in _) => destruct x
  end.

Ltac blind_method := repeat blind_step.

Lemma blind_add_holiday day : date_blind (add_holiday day).
Proof. unfold add_holiday. blind_method. Qed.

Lemma blind_add_resident_info r : date_blind (add_resident_info r).
Proof. unfold add_resident_info. blind_method. Qed.

Lemma blind_build_functions cls fs func resident :
  select_build_functions cls = Some fs → func ∈ fs →
  date_blind (func resident).
Proof.
  unfold select_build_functions. intros H Hf.
  repeat case_bool_decide; simplify_eq.
  - unfold junior_build_functions in Hf.
    rewrite !elem_of_cons, elem_of_nil in Hf.
    destruct Hf as [->|[->|[->|[->|[->|[->|[->|[->|[->|[->|[]]]]]]]]]]];
      unfold emergency_wednesday_halfday, cant_book_vacation_days,
        trauma_day_call, post_call_days, prefer_full_day_call,
        penalize_multiple_fridays, disperse_call, set_shift_expectations,
        friday_implies_sunday, implication_rule, assign_claimed_days;
      blind_method.
  - unfold senior_build_functions in Hf.
    rewrite !elem_of_cons, elem_of_nil in Hf.
    destruct Hf as [->|[->|[->|[->|[->|[->|[->|[]]]]]]]];
      unfold cant_book_vacation_days, post_call_days,
        penalize_multiple_fridays, disperse_call, set_shift_expectations,
        friday_implies_saturday, implication_rule, assign_claimed_days;
      blind_method.
Qed.

Lemma blind_for_each_elem {A} (l : list A) (body : A → M unit) :
  (∀ x, x ∈ l → date_blind (body x)) → date_blind (for_each l body).
Proof.
  induction l as [|x l IH]; intros Hb; simpl.
  - apply blind_ret.
  - apply blind_bind; [apply Hb; left|intros _].
    apply IH. intros y Hy. apply Hb. by right.
Qed.

Lemma blind_bind_run {A B} (c : M A) (k : A → M B) :
  date_blind c →
  (∀ a, (∃ s s', c s = inr (a, s')) → date_blind (k a)) →
  date_blind (c ≫= k).
Proof.
  intros Hc Hk d s. unfold mbind, M_bind. rewrite Hc.
  destruct (c s) as [e|[a s1]] eqn:E; [done|]. apply Hk. eauto.
Qed.

Lemma blind_add_resident_model cls resident :
  date_blind (add_resident_model resident (select_build_functions cls)).
Proof.
  unfold add_resident_model.
  apply blind_bind_run; [blind_method|intros fs (s & s' & Hfs)].
  apply lift_ok in Hfs as [Hfs _]. apply of_option_ok in Hfs.
  apply blind_bind; [blind_method|intros ds].
  apply blind_bind; [blind_method|intros rows].
  apply blind_bind; [blind_method|intros _].
  apply blind_bind; [|intros _; blind_method].
  apply blind_for_each_elem. intros func Hfunc.
  by eapply blind_build_functions.
Qed.

Lemma blind_setup_model : date_blind setup_model.
Proof.
  unfold setup_model.
  apply blind_bind; [blind_method|intros _].
  apply blind_bind; [blind_method|intros cls].
  apply blind_bind; [blind_method|intros residents].
  apply blind_bind; [|intros _; blind_method].
  apply blind_for_each. intros r. apply blind_add_resident_model.
Qed.

Lemma exec_blind (c : M unit) d s s' :
  date_blind c → exec c s = Ok s' →
  exec c (set_start_date d s) = Ok (set_start_date d s').
Proof.
  intros Hc. unfold exec. rewrite Hc.
  destruct (c s) as [e|[[] s1]]; [done|]. by intros [= <-].
Qed.

Lemma init_with_start_date a date d s :
  init a = Ok s → fromisoformat date = Ok d →
  init (with_start_date date a) = Ok (set_start_date (Some d) s).
Proof.
  intros H Hd. apply init_ok in H as (d0 & s1 & Hres & _ & Hloop & ->).
  pose proof (blind_for_each (arg_holidays a) add_holiday blind_add_holiday
                (Some d)
                (init_second a d0 (init_first a))) as Hb.
  rewrite Hloop in Hb.
  apply (init_run (with_start_date date a) d (set_start_date (Some d) s1));
    try done.
Qed.

(** X26.  The start date has no effect on the model: constructing with
    another valid [start_date], registering the same residents and
    compiling gives the same object, the [start_date] attribute apart
    (day 0 is always taken as a Monday). *)
Theorem model_ignores_start_date a rs date d s' :
  compile a rs = Ok s' → fromisoformat date = Ok d →
  compile (with_start_date date a) rs = Ok (set_start_date (Some d) s').
Proof.
  intros H Hd. unfold compile, configure in *.
  apply res_bind_ok in H as (s1 & H & Hsetup).
  apply res_bind_ok in H as (s0 & Hinit & Hreg).
  rewrite (init_with_start_date a date d s0 Hinit Hd). simpl.
  rewrite (exec_blind _ (Some d) s0 s1); [|by apply blind_for_each,
    blind_add_resident_info|done].
  simpl. apply exec_blind; [apply blind_setup_model|done].
Qed.

(** ** The table of assignment variables *)

Lemma dict_comp_row (l : list string) (label : string → string) :
  ∀ acc s row s',
    dict_comp l (λ shift, NewBoolVar (label shift)) acc s = inr (row, s') →
    (∀ k, k ∈ l →
       ∃ v, row !! k = Some v ∧
            cp_vars (model s') !! v = Some (VarDecl (label k) 0 1)) ∧
    (∀ k, k ∉ l → row !! k = acc !! k).
Proof.
  induction l as [|k0 l IH]; intros acc s row s' H; simpl in H.
  - inv_run H. split; [|done]. intros k Hk. by apply elem_of_nil in Hk.
  - apply bind_ok in H as (v0 & s1 & H1 & H2).
    pose proof (dict_comp_bool_vars _ _ _ _ _ _ H2) as [[Hext _] _].
    apply NewIntVar_emits in H1 as [_ Hdecl].
    apply IH in H2 as [Hin Hout]. split.
    + intros k Hk. destruct (decide (k ∈ l)) as [Hl|Hl]; [by apply Hin|].
      apply elem_of_cons in Hk as [->|Hk]; [|done].
      exists v0. rewrite (Hout _ Hl), lookup_insert_eq. split; [done|].
      by eapply extends_var.
    + intros k Hk. apply not_elem_of_cons in Hk as [Hne Hk].
      by rewrite (Hout _ Hk), lookup_insert_ne.
Qed.

Lemma collect_rows_slots (ds : list Z) (label : Z → string → string) :
  ∀ s rows s',
    collect ds (λ day,
      sh ← gets shifts;
      dict_comp sh (λ shift, NewBoolVar (label day shift)) ∅) s
      = inr (rows, s') →
    ∀ i d k, ds !! i = Some d → k ∈ shifts s →
      ∃ row v, rows !! i = Some row ∧ row !! k = Some v ∧
        cp_vars (model s') !! v = Some (VarDecl (label d k) 0 1).
Proof.
  induction ds as [|d0 ds IH]; intros s rows s' H i d k Hi Hk; [done|].
  simpl in H.
  apply bind_ok in H as (row0 & s1 & H1 & H2).
  apply bind_ok in H2 as (rest & s2 & H2 & H3). inv_run H3.
  apply bind_ok in H1 as (sh & s0 & H0 & H1). inv_run H0.
  pose proof (dict_comp_bool_vars _ _ _ _ _ _ H1) as [[Hext1 _] _].
  pose proof (collect_rows_bool_vars _ _ _ _ _ H2) as [[Hext2 _] _].
  destruct i as [|i]; simpl in Hi.
  - injection Hi as <-.
    apply dict_comp_row in H1 as [Hin _].
    destruct (Hin k Hk) as (v & Hv & Hdecl).
    exists row0, v. split_and!; try done. by eapply extends_var.
  - destruct (IH _ _ _ H2 i d k Hi) as (row & v & Hrow & Hv & Hdecl).
    { by rewrite (ext_shifts _ _ Hext1). }
    by exists row, v.
Qed.

Lemma add_resident_model_slots cls resident s s' :
  add_resident_model resident (select_build_functions cls) s = inr (tt, s') →
  ∀ i d k, days s !! i = Some d → k ∈ shifts s →
    ∃ rows row v,
      schedules s' !! name resident = Some rows ∧
      rows !! i = Some row ∧ row !! k = Some v ∧
      cp_vars (model s') !! v
        = Some (VarDecl ("call_" +:+ name resident +:+ "_" +:+ pretty d
                         +:+ "_" +:+ k) 0 1).
Proof.
  intros H i d k Hi Hk. unfold add_resident_model in H.
  apply bind_ok in H as (fs' & s0 & H0 & H). inv_run H0.
  apply of_option_ok in Hlift.
  apply bind_ok in H as (ds & s0' & H0 & H). inv_run H0.
  apply bind_ok in H as (rows & s3 & Hrows & H).
  pose proof (collect_rows_slots _
    (λ day shift, "call_" +:+ name resident +:+ "_" +:+ pretty day +:+ "_"
                  +:+ shift) _ _ _ Hrows i d k Hi Hk)
    as (row & v & Hrow & Hv & Hdecl).
  apply bind_ok in H as ([] & s4 & H4 & H). inv_run H4.
  apply bind_ok in H as ([] & s5 & Hfs & H).
  apply bind_ok in H as (c & s6 & H6 & H). inv_run H6.
  assert (frame (set_schedules (<[name resident:=rows]> (schedules s3)) s3) s5)
    as [Hext5 Hsch5].
  { eapply preserves_for_each; [apply _| |done].
    intros func Hfunc. by eapply frame_build_functions. }
  assert (frame s5 s') as [Hext' Hsch'].
  { destruct (on_trauma resident && bool_decide (classification s5 = "junior")).
    - by eapply frame_balance_trauma_call.
    - by inv_run H. }
  exists rows, row, v. split_and!; try done.
  - rewrite Hsch', Hsch5. simpl. by rewrite lookup_insert_eq.
  - eapply extends_var; [done|]. eapply extends_var; [done|]. done.
Qed.

Lemma py_index_lookup {A} (l : list A) (i : nat) x :
  l !! i = Some x → py_index l (Z.of_nat i) = Ok x.
Proof.
  intros H. unfold py_index. cbv zeta.
  destruct (decide (Z.of_nat i < 0)); [lia|].
  destruct (decide (0 ≤ Z.of_nat i)); [|lia].
  by rewrite Nat2Z.id, H.
Qed.

(** X27.  When the model compiles, the table holds, for every resident, every
    position [i] of [days] and every shift, a boolean variable of the
    model, labelled [call_<name>_<day>_<shift>] with the day found at
    that position. *)
Theorem table_slot_variable s s' residents r i d shift :
  setup_model s = inr (tt, s') →
  residents_info s = Some residents → r ∈ residents →
  days s !! i = Some d → shift ∈ shifts s →
  ∃ v, schedule_lookup (schedules s') (name r) (Z.of_nat i) shift = Ok v ∧
    var_named (model s') v
      ("call_" +:+ name r +:+ "_" +:+ pretty d +:+ "_" +:+ shift) ∧
    bool_var (model s') v.
Proof.
  intros H Hres Hr Hi Hshift.
  apply setup_model_ok in H
    as (residents' & s1 & s2 & Hres' & Hloop & Hcov & Hfin).
  rewrite Hres in Hres'. injection Hres' as <-.
  assert (frame s1 s2) as Hfr12.
  { eapply preserves_for_each; [apply _| |done].
    intros day _. apply frame_coverage_body. }
  assert (frame s1 s') as [Hext1 Hsch1] by (by etrans).
  destruct (last_named residents (name r)) as (l1 & x & l2 & Hl & Hx & Hl2).
  { apply list_elem_of_fmap. by exists r. }
  rewrite Hl in Hloop. apply for_each_app in Hloop as (sa & Ha & Hloop).
  simpl in Hloop. apply bind_ok in Hloop as ([] & sb & Hb & Hloop).
  assert (extends (set_penalties [] s) sa) as Hexta.
  { eapply preserves_for_each; [apply _| |done].
    intros y _. apply extends_add_resident_model. }
  assert (keeps (name r) sb s1) as [Hextb Hkeep].
  { eapply preserves_for_each; [apply _| |done].
    intros y Hy. apply keeps_add_resident_model. intros Hname.
    apply Hl2. rewrite <- Hname. apply list_elem_of_fmap. by exists y. }
  destruct (add_resident_model_slots _ _ _ _ Hb i d shift)
    as (rows & row & v & Hrows & Hrow & Hv & Hdecl).
  { by rewrite (ext_days _ _ Hexta). }
  { by rewrite (ext_shifts _ _ Hexta). }
  assert (cp_vars (model s') !! v
          = Some (VarDecl ("call_" +:+ name r +:+ "_" +:+ pretty d +:+ "_"
                           +:+ shift) 0 1)) as Hdecl'.
  { rewrite <- Hx. eapply extends_var; [done|]. by eapply extends_var. }
  exists v. split_and!.
  - unfold schedule_lookup. rewrite Hsch1, Hkeep, <- Hx, Hrows. simpl.
    rewrite (py_index_lookup _ _ _ Hrow). simpl. by rewrite Hv.
  - by eapply var_named_decl.
  - by eapply bool_var_lookup.
Qed.

(** ** The no-fill rule, were it run *)

Lemma frame_cant_book_nofill_days resident :
  preserves frame (cant_book_nofill_days resident).
Proof. unfold cant_book_nofill_days. frame_method. Qed.

(** X28.  [cant_book_nofill_days], which neither rule list contains, adds
    when it is run for a resident, for every day of the no-fill list and
    every shift, the constraint that sets the resident's variable to 0:
    every model that keeps the constraint has the variable at 0 in every
    solution. *)
Theorem cant_book_nofill_days_pins r s s' nf day shift :
  cant_book_nofill_days r s = inr (tt, s') →
  nofill s = Some nf → day ∈ nf → shift ∈ shifts s →
  ∃ v, schedule_lookup (schedules s) (name r) day shift = Ok v ∧
    Ct (lin_rel v Req 0) [] ∈ cp_cts (model s') ∧
    ∀ s'' a, extends s' s'' → solution (model s'') a → value a v = 0.
Proof.
  intros H Hnf Hday Hshift. unfold cant_book_nofill_days in H.
  apply bind_ok in H as (nf' & s0 & H0 & H). inv_run H0.
  rewrite Hnf in Hattr. injection Hattr as <-.
  loop_elem H day as (sx & sy & [Hx Hsx] & Hrun & Hfry); [done|].
  apply bind_ok in Hrun as (sh & s0 & H0 & Hrun). inv_run H0.
  loop_elem Hrun shift as (sz & sw & [Hz Hsz] & Hrun' & Hfrw).
  { by rewrite (ext_shifts _ _ Hx). }
  apply bind_ok in Hrun' as (v & s0 & H0 & Hrun').
  apply schedule_var_ok in H0 as [Hv ->].
  apply Add_ok in Hrun'. subst sw.
  assert (Ct (lin_rel v Req 0) [] ∈ cp_cts (model s')) as Hct.
  { eapply extends_ct; [|apply added_ct_elem].
    etrans; by apply frame_extends. }
  exists v. rewrite <- Hsx, <- Hsz. split_and!; try done.
  intros s'' a Hext Hsol. apply lin_rel_eq_holds.
  eapply solution_body; [done|]. by eapply extends_ct.
Qed.

(** ** Overrides out of range *)

(** X29.  A manual override below -1 or above the number of days plus 1
    makes the compiled model unsatisfiable: the resident's total of last
    shifts is bounded by the override minus 1 and plus 1, and lies
    between 0 and the number of days. *)
Theorem override_out_of_range_unsatisfiable s s' residents r z :
  setup_model s = inr (tt, s') →
  residents_info s = Some residents → NoDup (name <$> residents) →
  r ∈ residents →
  days_override r = Some z → z < -1 ∨ len (days s) + 1 < z →
  ∀ a, ¬ solution (model s') a.
Proof.
  intros H Hres Hnd Hr Hov Hz a Hsol.
  destruct (rule_ran s s' residents r set_shift_expectations)
    as (rows & s3 & s4 & Hrun & Hext3 & Hext4 & Hsch & Hrows & Hb); try done.
  { apply set_shift_expectations_selected. }
  apply set_shift_expectations_total in Hrun
    as (e & lo & up & vs & sa & He & Hlo & Hup & Hvs & Hsb & Hexta).
  apply expected_night_shifts_ok in He as (_ & Hover & _).
  assert (z ≠ 0) as Hnz by (unfold len in Hz; lia).
  rewrite (Hover z Hov Hnz) in Hlo, Hup.
  unfold lower_of, upper_of in Hlo, Hup. simpl in Hlo, Hup.
  injection Hlo as <-. injection Hup as <-.
  destruct (strictly_bounded_sound _ _ _ _ _ _ _ s' Hsb)
    as (lf & uf & rest & _ & _ & Hsound); [by etrans|].
  destruct (Hsound a Hsol) as (Hwin & Hdom & _).
  rewrite (ext_days _ _ Hext3) in Hdom. simpl in Hdom.
  unfold lin_value, lin_sum in Hwin, Hdom. simpl in Hwin, Hdom. lia.
Qed.

(** ** The general implication between two weekdays *)

(** X30.  The general implication rule, run for weekdays [first] and
    [second], ties every day of weekday [first] to the next day of
    weekday [second], between 0 and 6 days on (the same day when the
    two weekdays are equal): the last shift of the first day implies
    each shift of that second day. *)
Theorem multiday_implication_later_weekday first second r s s' day shift :
  multiday_implication first second r s = inr (tt, s') →
  day ∈ days s → day `mod` 7 = first → shift ∈ shifts s →
  let gap := (second - first) `mod` 7 in
  0 ≤ gap < 7 ∧ (day + gap) `mod` 7 = second `mod` 7 ∧
  ∃ l va vb, py_last (shifts s) = Ok l ∧
    schedule_lookup (schedules s) (name r) day l = Ok va ∧
    schedule_lookup (schedules s) (name r) (day + gap) shift = Ok vb ∧
    Ct (Implication (Pos va) (Pos vb)) [] ∈ cp_cts (model s') ∧
    ∀ s'' a, extends s' s'' → solution (model s'') a →
      value a va = 1 → value a vb = 1.
Proof.
  intros H Hday Hfirst Hshift gap.
  pose proof (Z.mod_pos_bound (second - first) 7 ltac:(lia)) as Hgap.
  split; [done|]. split.
  { unfold gap. rewrite <- Hfirst.
    rewrite Zplus_mod_idemp_r.
    replace (day + (second - day `mod` 7)) with (second + day `div` 7 * 7)
      by (pose proof (Z.div_mod day 7 ltac:(lia)); lia).
    by rewrite Z.mod_add by lia. }
  unfold multiday_implication in H.
  apply implication_rule_emits with (day := day) (shift := shift) in H
    as (l & va & vb & Hl & Hva & Hvb & Hct); try done.
  exists l, va, vb. split_and!; try done.
  intros s'' a Hext Hsol Ha.
  by apply (solution_body _ _ _ Hsol (extends_ct _ _ _ Hext Hct)).
Qed.

(** * Instances of the further properties *)

Lemma vacation_never_worked_witness :
  ∃ v,
    schedule_lookup (schedules two_fridays_compiled) "B" 4 "night" = Ok v ∧
    Ct (lin_rel v Req 0) [] ∈ cp_cts (model two_fridays_compiled) ∧
    ∀ a, solution (model two_fridays_compiled) a →
      value a v = 0 ∧ ¬ works two_fridays_compiled a resident_B_away 4 "night".
Proof.
  apply (vacation_never_worked two_fridays_solver two_fridays_compiled
           two_fridays_residents resident_B_away 4 "night"); evaluate.
Defined.

Lemma claimed_day_worked_witness :
  ∃ v,
    schedule_lookup (schedules claims_compiled) "A" 0 "night" = Ok v ∧
    Ct (lin_rel v Req 1) [] ∈ cp_cts (model claims_compiled) ∧
    ∀ a, solution (model claims_compiled) a →
      works claims_compiled a resident_A_claims 0 "night".
Proof.
  apply (claimed_day_worked claims_solver claims_compiled claims_residents
           resident_A_claims 0 "night"); evaluate.
Defined.

Lemma claimed_vacation_day_unsatisfiable_witness :
  setup_model conflict_solver = inr (tt, conflict_compiled) ∧
  ∀ a, ¬ solution (model conflict_compiled) a.
Proof.
  split; [evaluate|].
  apply (claimed_vacation_day_unsatisfiable conflict_solver conflict_compiled
           conflict_residents resident_A_conflict 0 "night"); evaluate.
Defined.

Lemma emergency_wednesday_free_witness :
  solution (model junior_week_compiled) junior_week_solution ∧
  ∃ v,
    schedule_lookup (schedules junior_week_compiled) "E" 2 "night" = Ok v ∧
    Ct (lin_rel v Req 0) [] ∈ cp_cts (model junior_week_compiled) ∧
    ∀ a, solution (model junior_week_compiled) a →
      value a v = 0 ∧ ¬ works junior_week_compiled a resident_E 2 "night".
Proof.
  split; [evaluate|].
  apply (emergency_wednesday_free junior_week_solver junior_week_compiled
           junior_week_residents resident_E 2 "night"); evaluate.
Defined.

Lemma half_day_call_penalised_witness :
  ∃ va vb flag pen,
    first_shift_var mixed_compiled (trauma_resident "T") 0 = Ok va ∧
    last_shift_var mixed_compiled (trauma_resident "T") 0 = Ok vb ∧
    var_named (model mixed_compiled) flag
      ("full_day_" +:+ "T" +:+ "_" +:+ pretty 0) ∧
    var_named (model mixed_compiled) pen
      ("penalty_" +:+ "T" +:+ "_halfday_" +:+ pretty 0) ∧
    pen ∈ default [] (cp_objective (model mixed_compiled)) ∧
    ∀ a, solution (model mixed_compiled) a →
      (value a flag = 1 ↔ value a va ≠ value a vb) ∧
      (value a va ≠ value a vb →
       half_day_call_penalty mixed_solver ≤ value a pen).
Proof.
  apply (half_day_call_penalised mixed_solver mixed_compiled mixed_residents
           (trauma_resident "T") 0); evaluate.
Defined.

Lemma weekly_excess_flagged_witness :
  ∃ vs flag,
    week_vars one_week_compiled (resident_defaults "A") 0 = Ok vs ∧
    var_named (model one_week_compiled) flag
      ("A" +:+ "_week_" +:+ pretty 0 +:+ "_exceeds_max") ∧
    ∀ a, solution (model one_week_compiled) a →
      (value a flag = 1 ↔
       max_shifts_per_week one_week_solver < sum_values a vs).
Proof.
  apply (weekly_excess_flagged one_week_solver one_week_compiled residents_ABC
           (resident_defaults "A") 0); evaluate.
Defined.


Lemma trauma_day_shifts_window_witness :
  ∃ ratio f lo up vs,
    int_truediv (len (working_days mixed_solver))
      (trauma_days_available mixed_residents (working_days mixed_solver))
      = Ok ratio ∧
    float_of_int
      (len (working_days mixed_solver)
       - count_days (λ day, py_in day (on_vacation_days (trauma_resident "T")))
           (days mixed_solver)) = Ok f ∧
    lower_of (PFloat (fmul f ratio)) = Ok lo ∧
    upper_of (PFloat (fmul f ratio)) = Ok up ∧
    Forall2
      (λ day v,
         first_shift_var mixed_compiled (trauma_resident "T") day = Ok v)
      (working_days mixed_solver) vs ∧
    ∀ a, solution (model mixed_compiled) a → lo ≤ sum_values a vs ≤ up.
Proof.
  apply (trauma_day_shifts_window mixed_solver mixed_compiled mixed_residents
           (trauma_resident "T")); evaluate.
Defined.

Lemma compiled_trauma_junior_available_witness :
  trauma_days_available mixed_residents (working_days mixed_solver) ≠ 0 ∧
  ∃ day, day ∈ working_days mixed_solver
         ∧ day ∉ on_vacation_days (trauma_resident "T").
Proof.
  apply (compiled_trauma_junior_available mixed_solver mixed_compiled
           mixed_residents (trauma_resident "T")); evaluate.
Defined.

Lemma add_holiday_moves_day_witness :
  add_holiday 5 one_week_solver = Raise ValueError ∧
  ∃ s', add_holiday 0 one_week_solver = inr (tt, s') ∧
    working_days one_week_solver ≡ₚ 0 :: working_days s' ∧
    weekends_and_holidays s' ≡ₚ 0 :: weekends_and_holidays one_week_solver ∧
    Sorted Z.le (working_days s') ∧
    Sorted Z.le (weekends_and_holidays s') ∧
    days s' = days one_week_solver ∧ model s' = model one_week_solver ∧
    residents_info s' = residents_info one_week_solver.
Proof.
  split.
  - apply (add_holiday_moves_day 5 one_week_solver). evaluate.
  - apply (add_holiday_moves_day 0 one_week_solver). evaluate.
Defined.

Lemma init_day_lists_witness :
  (∀ d, d ∈ working_days holiday_solver ↔
        0 ≤ d < arg_num_days holiday_args ∧ d `mod` 7 < 5
        ∧ d ∉ arg_holidays holiday_args) ∧
  (∀ d, d ∈ weekends_and_holidays holiday_solver ↔
        (0 ≤ d < arg_num_days holiday_args ∧ 5 ≤ d `mod` 7)
        ∨ d ∈ arg_holidays holiday_args) ∧
  NoDup (working_days holiday_solver) ∧
  NoDup (weekends_and_holidays holiday_solver).
Proof. apply (init_day_lists holiday_args holiday_solver). evaluate. Defined.

Lemma init_succeeds_iff_witness :
  fromisoformat (arg_start_date holiday_args) = Ok (2024, 5, 6) ∧
  (∃ s, init holiday_args = Ok s) ∧
  ((∃ s, init holiday_args = Ok s) ↔
   (arg_residents_info holiday_args = None
    ∨ arg_residents_info holiday_args = Some []) ∧
   NoDup (arg_holidays holiday_args) ∧
   ∀ h, h ∈ arg_holidays holiday_args →
     0 ≤ h < arg_num_days holiday_args ∧ h `mod` 7 < 5).
Proof.
  split; [evaluate|]. split; [eexists; evaluate|].
  apply (init_succeeds_iff holiday_args (2024, 5, 6)). evaluate.
Defined.




Lemma setup_model_before_residents_witness :
  setup_model (solver_of (init default_args)) = Raise AttributeError.
Proof.
  apply (setup_model_before_residents default_args). evaluate.
Defined.

Lemma setup_model_unknown_classification_witness :
  setup_model fellow_solver = Raise UnboundLocalError.
Proof.
  apply (setup_model_unknown_classification fellow_solver
           (resident_defaults "A") []); evaluate.
Defined.

Lemma shared_name_never_works_witness :
  setup_model shared_name_solver = inr (tt, shared_name_compiled) ∧
  solution (model shared_name_compiled) shared_name_solution ∧
  ∀ a, solution (model shared_name_compiled) a →
    ¬ works shared_name_compiled a (resident_defaults "A") 0 "night".
Proof.
  split; [evaluate|]. split; [evaluate|].
  apply (shared_name_never_works shared_name_solver shared_name_compiled
           shared_name_residents [] 0%nat 1%nat (resident_defaults "A")
           (resident_defaults "A") 0 "night"); evaluate.
Defined.

Lemma senior_friday_weekend_witness :
  ∃ l, py_last (shifts one_week_solver) = Ok l ∧
    ∀ a, solution (model one_week_compiled) a →
      works one_week_compiled a (resident_defaults "A") 4 l →
      works one_week_compiled a (resident_defaults "A") (4 + 1) "night" ∧
      ¬ works one_week_compiled a (resident_defaults "A") (4 + 2) "night".
Proof.
  apply (senior_friday_weekend one_week_solver one_week_compiled residents_ABC
           (resident_defaults "A") 4 "night"); evaluate.
Defined.

Lemma junior_friday_weekend_witness :
  solution (model junior_week_compiled) junior_week_solution ∧
  works junior_week_compiled junior_week_solution (trauma_resident "T") 4 "night" ∧
  ∃ l, py_last (shifts junior_week_solver) = Ok l ∧
    ∀ a, solution (model junior_week_compiled) a →
      works junior_week_compiled a (trauma_resident "T") 4 l →
      ¬ works junior_week_compiled a (trauma_resident "T") (4 + 1) "day" ∧
      works junior_week_compiled a (trauma_resident "T") (4 + 2) "day".
Proof.
  split; [evaluate|]. split; [evaluate|].
  apply (junior_friday_weekend junior_week_solver junior_week_compiled
           junior_week_residents (trauma_resident "T") 4 "day"); evaluate.
Defined.

Lemma friday_implies_later_day_witness :
  4 + friday_gap (classification one_week_solver)
    < len (days one_week_solver) ∧
  ∃ l, py_last (shifts one_week_solver) = Ok l ∧
    ∀ a, solution (model one_week_compiled) a →
      works one_week_compiled a (resident_defaults "A") 4 l →
      works one_week_compiled a (resident_defaults "A")
        (4 + friday_gap (classification one_week_solver)) "night".
Proof.
  apply (friday_implies_later_day one_week_solver one_week_compiled
           residents_ABC (resident_defaults "A") 4 "night"); evaluate.
Defined.

Lemma compiled_horizon_end_witness :
  7 `mod` 7 ≠ 5 ∧ (classification one_week_solver = "junior" → 7 `mod` 7 ≠ 6).
Proof.
  apply (compiled_horizon_end one_week_solver one_week_compiled residents_ABC
           (resident_defaults "A") "night" 7); evaluate.
Defined.

Lemma weekly_threshold_flag_witness :
  ∃ vs flag pen,
    week_vars one_week_compiled (resident_defaults "A") 0 = Ok vs ∧
    var_named (model one_week_compiled) flag
      ("Week_" +:+ pretty 0 +:+ "_penalty_" +:+ "A" +:+ "_exceeds_"
       +:+ pretty 2) ∧
    var_named (model one_week_compiled) pen
      ("Week_" +:+ pretty 0 +:+ "_penalty_" +:+ "A") ∧
    pen ∈ default [] (cp_objective (model one_week_compiled)) ∧
    ∀ a, solution (model one_week_compiled) a →
      0 ≤ value a pen ≤ 7 ∧
      (value a flag = 1 → 2 ≤ sum_values a vs ∧ 2 * 2 ≤ value a pen) ∧
      (4 ≤ 2 → value a flag = 0).
Proof.
  apply (weekly_threshold_flag one_week_solver one_week_compiled residents_ABC
           (resident_defaults "A") 0 2); evaluate.
Defined.

Lemma friday_conflict_flag_witness :
  ∃ va vb flag pen,
    last_shift_var two_fridays_compiled (resident_defaults "A") 4 = Ok va ∧
    last_shift_var two_fridays_compiled (resident_defaults "A") (4 + 7)
      = Ok vb ∧
    var_named (model two_fridays_compiled) flag
      ("A" +:+ "_Fridays_" +:+ pretty 4 +:+ "_" +:+ pretty (4 + 7)) ∧
    var_named (model two_fridays_compiled) pen
      ("penalty_" +:+ ("A" +:+ "_Fridays_" +:+ pretty 4 +:+ "_"
                       +:+ pretty (4 + 7))) ∧
    pen ∈ default [] (cp_objective (model two_fridays_compiled)) ∧
    ∀ a, solution (model two_fridays_compiled) a →
      0 ≤ value a pen ≤ 16 ∧
      (value a flag = 1 →
       value a va = 1 ∧ value a vb = 1 ∧
       extra_friday_penalty_amount two_fridays_solver ≤ value a pen).
Proof.
  apply (friday_conflict_flag two_fridays_solver two_fridays_compiled
           two_fridays_residents (resident_defaults "A") 4); evaluate.
Defined.

Lemma compiled_objective_nonneg_witness :
  (∀ a, solution (model one_week_compiled) a →
     (∀ v, 0 ≤ value a v) ∧ 0 ≤ objective_value (model one_week_compiled) a) ∧
  ((∃ a, solution (model one_week_compiled) a) →
   ∃ b, optimal (model one_week_compiled) b).
Proof.
  apply (compiled_objective_nonneg one_week_solver one_week_compiled);
    [evaluate|apply Forall_nil_2].
Defined.

Lemma model_ignores_start_date_witness :
  compile (with_start_date "2024-05-06" (senior_block 1))
    [resident_defaults "A"]
  = Ok (set_start_date (Some (2024, 5, 6)) one_day_compiled).
Proof.
  apply (model_ignores_start_date (senior_block 1) [resident_defaults "A"]
           "2024-05-06" (2024, 5, 6) one_day_compiled); evaluate.
Defined.

Lemma table_slot_variable_witness :
  ∃ v,
    schedule_lookup (schedules four_day_compiled) "A" (Z.of_nat 1) "night"
      = Ok v ∧
    var_named (model four_day_compiled) v
      ("call_" +:+ "A" +:+ "_" +:+ pretty 1 +:+ "_" +:+ "night") ∧
    bool_var (model four_day_compiled) v.
Proof.
  apply (table_slot_variable four_day_solver four_day_compiled residents_ABC
           (resident_defaults "A") 1%nat 1 "night"); evaluate.
Defined.

Lemma cant_book_nofill_days_pins_witness :
  ∃ v,
    schedule_lookup (schedules nofill_compiled) "B" 1 "day" = Ok v ∧
    Ct (lin_rel v Req 0) [] ∈ cp_cts (model nofill_ruled) ∧
    ∀ s'' a, extends nofill_ruled s'' → solution (model s'') a →
      value a v = 0.
Proof.
  apply (cant_book_nofill_days_pins (trauma_resident "B") nofill_compiled
           nofill_ruled [1] 1 "day"); evaluate.
Defined.

Lemma override_out_of_range_unsatisfiable_witness :
  setup_model override_solver = inr (tt, override_compiled) ∧
  ∀ a, ¬ solution (model override_compiled) a.
Proof.
  split; [evaluate|].
  apply (override_out_of_range_unsatisfiable override_solver override_compiled
           override_residents resident_A_override 5); evaluate.
Defined.

Lemma multiday_implication_later_weekday_witness :
  solution (model weekend_implied) junior_week_solution ∧
  let gap := (Weekday.SUNDAY - Weekday.FRIDAY) `mod` 7 in
  0 ≤ gap < 7 ∧ (4 + gap) `mod` 7 = Weekday.SUNDAY `mod` 7 ∧
  ∃ l va vb, py_last (shifts junior_week_compiled) = Ok l ∧
    schedule_lookup (schedules junior_week_compiled) "T" 4 l = Ok va ∧
    schedule_lookup (schedules junior_week_compiled) "T" (4 + gap) "night"
      = Ok vb ∧
    Ct (Implication (Pos va) (Pos vb)) [] ∈ cp_cts (model weekend_implied) ∧
    ∀ s'' a, extends weekend_implied s'' → solution (model s'') a →
      value a va = 1 → value a vb = 1.
Proof.
  split; [evaluate|].
  apply (multiday_implication_later_weekday Weekday.FRIDAY Weekday.SUNDAY
           (trauma_resident "T") junior_week_compiled weekend_implied
           4 "night"); evaluate.
Defined.
